(** * k9s port-forward and benchmark views: model and verified properties

  Shallow embedding of
    - [internal/views/forward.go]   (forwardView: benchCmd, benchStopCmd,
      runBenchmark, deleteCmd, hydrate, loadConfig, updateBenchConfig,
      benchConfig, reload), and
    - the containerView part of [internal/ui/types.go] (portForward,
      runForward).

  The Go code runs handlers on one UI goroutine and hands work to
  background goroutines, which talk back through the application's update
  queue ([QueueUpdate]/[QueueUpdateDraw]).  The model keeps that shape:
  an [appView] record holds the application as one forward view sees it,
  closures passed to the queue are the constructors of [Job], goroutines
  are small state machines and [step] interleaves them.  A [desk] holds
  the application with every forward view built so far, and [dstep] runs
  each handler, closure and goroutine against the view that owns it. *)

From Stdlib Require Import ZArith Lia Ascii.
From stdpp Require Import gmap strings list fin_maps pretty.

#[local] Set Warnings "-clear-no-such-hyp".

(** ** Configuration records (package [config]) *)

Module config.

(** [config.HTTP], restricted to the two fields the views set. *)
Record HTTP := mkHTTP { Method : string; Path : string }.

(** [config.BenchConfig]: a Go [int] is kept as a [Z]; the views only
    compare it with zero. *)
Record BenchConfig := mkBenchConfig {
  C : Z;
  N : Z;
  HTTP_ : HTTP;
  Name : string
}.

(** The zero value Go yields for a missing map key. *)
Definition zero : BenchConfig := mkBenchConfig 0%Z 0%Z (mkHTTP "" "") "".

Definition with_Name (n : string) (b : BenchConfig) : BenchConfig :=
  mkBenchConfig (C b) (N b) (HTTP_ b) n.

(** [Benchmarks.Defaults] carries the two counters only. *)
Record Benchmark := mkBenchmark { dC : Z; dN : Z }.

Record Benchmarks := mkBenchmarks {
  Defaults : Benchmark;
  Containers : gmap string BenchConfig
}.

End config.

(** ** Table data (package [resource]) *)

Module resource.

Inductive Action := New | Update | Delete | Unchanged.

Definition Row := list string.

Record RowEvent := mkRowEvent {
  action : Action;
  Fields : Row;
  Deltas : Row
}.

Record TableData := mkTableData {
  Header : Row;
  NumCols : gmap string bool;
  Rows : gmap string RowEvent;
  Namespace : string
}.

End resource.

(** ** Port-forward sessions (package [k8s]) *)

(** A [*k8s.PortForward] is a pointer: the registry, the goroutine running
  the tunnel and the queued closures all hold the same object.  Objects
  live in a heap indexed by [loc]. *)
Definition loc := nat.

Record PortForward := mkPortForward {
  pf_path : string;
  pf_container : string;
  pf_ports : list string;
  pf_age : string;      (* what [Age()] prints; the clock is not modelled *)
  pf_active : bool;
  pf_stopped : bool     (* [Stop()] has been called *)
}.

Definition SetActive (b : bool) (f : PortForward) : PortForward :=
  mkPortForward (pf_path f) (pf_container f) (pf_ports f) (pf_age f) b (pf_stopped f).

Definition Stop (f : PortForward) : PortForward :=
  mkPortForward (pf_path f) (pf_container f) (pf_ports f) (pf_age f) (pf_active f) true.

(** Modelled from the spec: the helper [fqn] is not part of the sources at
    hand; the specification writes a path as [namespace/pod]. *)
Definition fqn (ns n : string) : string := ns +:+ "/" +:+ n.

(** Modelled from the spec: the helper [fwFQN] is not part of the sources
    at hand; the specification fixes the key of a session as
    [path + "|" + container]. *)
Definition fwFQN (po co : string) : string := po +:+ "|" +:+ co.

(** Modelled from the spec: the helper [containerID] is not part of the
    sources at hand; the specification fixes the key of a per-container
    benchmark override as [path + "|" + container]. *)
Definition containerID (path co : string) : string := path +:+ "|" +:+ co.

(** Modelled from the spec: the method [PortForward.FQN] is not part of the
    sources at hand; it is the session key of the object's path and
    container. *)
Definition FQN (f : PortForward) : string := fwFQN (pf_path f) (pf_container f).

(** Modelled from the spec: [k8s.NewPortForward] and [PortForward.Start]
    are not part of the sources at hand; a successful [Start] on
    [(path, co, ports)] leaves a session for them that is not active yet. *)
Definition started (path co : string) (ports : list string) (age : string) : PortForward :=
  mkPortForward path co ports age false false.

(** ** The benchmark session *)

(** Modelled from the spec: the [benchmark] struct is declared outside the
    sources at hand; it holds the configuration of the session and the
    [canceled] flag the views read. *)
Record benchmark := mkBench { b_config : config.BenchConfig; canceled : bool }.

(** Modelled from the spec: [benchmark.cancel] is not part of the sources
    at hand; it requests cancellation of the load generator, which the
    completion callback later finds in [canceled]. *)
Definition cancel (b : benchmark) : benchmark := mkBench (b_config b) true.

(** ** The table widget, as far as the handlers read it *)

Record tableView := mkTableView {
  cells : list (list string);   (* row 0 is the header *)
  selection : nat;              (* row of [GetSelection] *)
  cmdBuff : string
}.

(** [trimCell tv r c]; cells are stored trimmed, a missing cell reads empty. *)
Definition trimCell (t : tableView) (r c : nat) : string :=
  default "" (cells t !! r ≫= λ row : list string, row !! c).

(** ** What the model takes from outside

  Constants and helpers the two files use but do not define. *)
Class Extern := {
  DefaultC : Z;
  DefaultN : Z;
  DefaultMethod : string;
  K9sHome : string;
  K9sBench : string;
  AllNamespaces : string;
  filepath_Join : string → string → string;
  namespaced : string → string * string;
  urlFor : config.BenchConfig → string → string → string;
  asNum : Z → string;
  (* [newBenchmark base cfg]: the [*benchmark] it returns, nil or not, and
     the error it returns, nil or not *)
  newBenchmark : string → config.BenchConfig → option benchmark * option string;
  (* [tableView.update]: how the widget redraws itself from fresh data *)
  tv_update : tableView → resource.TableData → tableView
}.

(** ** Closures handed to the update queue *)

Inductive Job :=
| registerForward (pf : loc)     (* types.go, 203-207 *)
| unregisterForward (pf : loc)   (* types.go, 214-217 *)
| benchDone                      (* forward.go, 175-187 *)
| statusResetJob                 (* forward.go, 185 *)
| reloadJob.                     (* forward.go, 358-360: [cb()] is [v.reload] *)

(** ** Goroutines *)

Inductive goroutine :=
| runForward_start (pf : loc)      (* spawned, nothing executed yet *)
| runForward_queued (pf : loc)     (* registration queued, next is line 209 *)
| runForward_blocked (pf : loc)    (* inside [f.ForwardPorts()] *)
| runBenchmark_running             (* inside [v.bench.run] *)
| statusHold                       (* waiting on [time.After(2s)] *)
| updateBenchConfig_start          (* spawned by [watchK9sDir] *)
| updateBenchConfig_loop (file : string).

Inductive flashLevel := flashInfo | flashWarn | flashErr.

(** ** The application state

  The fields [v_bench], [tv], [modal] and [watcherClosed] are those of the
  forward view [v] whose handlers and closures run; the others belong to
  the application and are shared by all views (see [desk] below). *)

Record appView := mkApp {
  forwarders : gmap string loc;            (* [app.forwarders] *)
  heap : gmap loc PortForward;
  bench : config.Benchmarks;               (* [app.bench.Benchmarks] *)
  CurrentCluster : string;                 (* [app.config.K9s.CurrentCluster] *)
  v_bench : option benchmark;              (* [forwardView.bench] *)
  tv : tableView;
  modal : option string;                   (* pending "Delete PortForward" prompt *)
  forwardDialog : bool;                    (* containerView page "forward" shown *)
  updates : list Job;                      (* the queue behind QueueUpdate *)
  goroutines : list goroutine;
  flashes : list (flashLevel * string);    (* [app.flash()] messages, oldest first *)
  status : option (flashLevel * string);   (* [app.status]; [None] after reset *)
  logs : list string;
  watcherClosed : bool
}.

Section Setters.
Implicit Type a : appView.

Definition set_forwarders (f : gmap string loc → gmap string loc) a :=
  mkApp (f (forwarders a)) (heap a) (bench a) (CurrentCluster a) (v_bench a) (tv a)
        (modal a) (forwardDialog a) (updates a) (goroutines a) (flashes a) (status a)
        (logs a) (watcherClosed a).
Definition set_heap (f : gmap loc PortForward → gmap loc PortForward) a :=
  mkApp (forwarders a) (f (heap a)) (bench a) (CurrentCluster a) (v_bench a) (tv a)
        (modal a) (forwardDialog a) (updates a) (goroutines a) (flashes a) (status a)
        (logs a) (watcherClosed a).
Definition set_bench (b : config.Benchmarks) a :=
  mkApp (forwarders a) (heap a) b (CurrentCluster a) (v_bench a) (tv a)
        (modal a) (forwardDialog a) (updates a) (goroutines a) (flashes a) (status a)
        (logs a) (watcherClosed a).
Definition set_v_bench (b : option benchmark) a :=
  mkApp (forwarders a) (heap a) (bench a) (CurrentCluster a) b (tv a)
        (modal a) (forwardDialog a) (updates a) (goroutines a) (flashes a) (status a)
        (logs a) (watcherClosed a).
Definition set_tv (t : tableView) a :=
  mkApp (forwarders a) (heap a) (bench a) (CurrentCluster a) (v_bench a) t
        (modal a) (forwardDialog a) (updates a) (goroutines a) (flashes a) (status a)
        (logs a) (watcherClosed a).
Definition set_modal (m : option string) a :=
  mkApp (forwarders a) (heap a) (bench a) (CurrentCluster a) (v_bench a) (tv a)
        m (forwardDialog a) (updates a) (goroutines a) (flashes a) (status a)
        (logs a) (watcherClosed a).
Definition set_forwardDialog (d : bool) a :=
  mkApp (forwarders a) (heap a) (bench a) (CurrentCluster a) (v_bench a) (tv a)
        (modal a) d (updates a) (goroutines a) (flashes a) (status a)
        (logs a) (watcherClosed a).
Definition set_updates (f : list Job → list Job) a :=
  mkApp (forwarders a) (heap a) (bench a) (CurrentCluster a) (v_bench a) (tv a)
        (modal a) (forwardDialog a) (f (updates a)) (goroutines a) (flashes a) (status a)
        (logs a) (watcherClosed a).
Definition set_goroutines (f : list goroutine → list goroutine) a :=
  mkApp (forwarders a) (heap a) (bench a) (CurrentCluster a) (v_bench a) (tv a)
        (modal a) (forwardDialog a) (updates a) (f (goroutines a)) (flashes a) (status a)
        (logs a) (watcherClosed a).
Definition set_status (s : option (flashLevel * string)) a :=
  mkApp (forwarders a) (heap a) (bench a) (CurrentCluster a) (v_bench a) (tv a)
        (modal a) (forwardDialog a) (updates a) (goroutines a) (flashes a) s
        (logs a) (watcherClosed a).
Definition set_watcherClosed (w : bool) a :=
  mkApp (forwarders a) (heap a) (bench a) (CurrentCluster a) (v_bench a) (tv a)
        (modal a) (forwardDialog a) (updates a) (goroutines a) (flashes a) (status a)
        (logs a) w.

(** [app.flash().err/info/warn]: one more message on the flash line. *)
Definition flash (l : flashLevel) (msg : string) a :=
  mkApp (forwarders a) (heap a) (bench a) (CurrentCluster a) (v_bench a) (tv a)
        (modal a) (forwardDialog a) (updates a) (goroutines a)
        (flashes a ++ [(l, msg)]) (status a) (logs a) (watcherClosed a).
(** [log.Debug().Msg]. *)
Definition log (msg : string) a :=
  mkApp (forwarders a) (heap a) (bench a) (CurrentCluster a) (v_bench a) (tv a)
        (modal a) (forwardDialog a) (updates a) (goroutines a) (flashes a) (status a)
        (logs a ++ [msg]) (watcherClosed a).

Definition statusReset a := set_status None a.
Definition QueueUpdate (j : Job) a := set_updates (λ q, q ++ [j]) a.
Definition go (g : goroutine) a := set_goroutines (λ gs, gs ++ [g]) a.
End Setters.

(** ** forward.go *)

Section Views.
Context {E : Extern}.

(** [defaultConfig], forward.go 283-292. *)
Definition defaultConfig : config.BenchConfig :=
  config.mkBenchConfig DefaultC DefaultN (config.mkHTTP DefaultMethod "/") "".

(** [loadConfig], forward.go 303-318. *)
Definition loadConfig (dc dn : Z) (id : string)
    (cc : gmap string config.BenchConfig) : Z * Z * config.BenchConfig :=
  let c := dc in
  let n := dn in
  match cc !! id with
  | None => (c, n, config.zero)
  | Some cfg =>
      let c := if decide (config.C cfg ≠ 0%Z) then config.C cfg else c in
      let n := if decide (config.N cfg ≠ 0%Z) then config.N cfg else n in
      (c, n, cfg)
  end.

(** [benchConfig], forward.go 373-375. *)
Definition benchConfig (cluster : string) : string :=
  filepath_Join K9sHome (K9sBench +:+ "-" +:+ cluster +:+ ".yml").

(** [getSelectedItem], forward.go 191-198. *)
Definition getSelectedItem (a : appView) : string :=
  let r := selection (tv a) in
  if decide (r = 0%nat) then ""
  else fwFQN (fqn (trimCell (tv a) r 0) (trimCell (tv a) r 1)) (trimCell (tv a) r 2).

(** The configuration [benchCmd] hands to [newBenchmark]: forward.go
    149-155, the statements between the single-flight guard and the
    constructor call. *)
Definition benchCmd_config (a : appView) (sel : string) : config.BenchConfig :=
  let r := selection (tv a) in
  let cfg := defaultConfig in
  let co := trimCell (tv a) r 2 in
  let cfg := match config.Containers (bench a) !! containerID sel co with
             | Some b => b
             | None => cfg
             end in
  config.with_Name sel cfg.

(** [benchCmd], forward.go 138-170. *)
Definition benchCmd (a : appView) : appView :=
  let sel := getSelectedItem a in
  if decide (sel = "") then a
  else match v_bench a with
       | Some _ => flash flashErr "Only one benchmark allowed at a time" a
       | None =>
           let cfg := benchCmd_config a sel in
           let base := trimCell (tv a) (selection (tv a)) 4 in
           let '(b, err) := newBenchmark base cfg in
           (* line 159 stores what comes back before the error is looked at *)
           let a := set_v_bench b a in
           match err with
           | Some err => statusReset (flash flashErr ("Bench failed " +:+ err) a)
           | None =>
               go runBenchmark_running
                 (log "Bench starting..."
                    (set_status (Some (flashWarn, "Benchmark in progress...")) a))
           end
       end.

(** [benchStopCmd], forward.go 127-136. *)
Definition benchStopCmd (a : appView) : appView :=
  let a := match v_bench a with
           | Some b =>
               set_v_bench (Some (cancel b))
                 (set_status (Some (flashErr, "Benchmark Camceled!"))
                    (log ">>> Benchmark canceled!!" a))
           | None => a
           end in
  statusReset a.

(** *** Hydrating the forwards table *)

(** [strings.Split(s, sep)] for a one-byte separator; never empty. *)
Fixpoint strings_Split (s : string) (sep : Ascii.ascii) : list string :=
  match s with
  | EmptyString => [""]
  | String c r =>
      if Ascii.eqb c sep then "" :: strings_Split r sep
      else match strings_Split r sep with
           | h :: t => String c h :: t
           | [] => [String c ""]
           end
  end.

(** [strings.Join(l, sep)]. *)
Fixpoint strings_Join (l : list string) (sep : string) : string :=
  match l with
  | [] => ""
  | [x] => x
  | x :: rest => x +:+ sep +:+ strings_Join rest sep
  end.

(** [initHeader], forward.go 294-301; [rows] is only a capacity hint. *)
Definition initHeader (rows : nat) : resource.TableData :=
  resource.mkTableData
    ["NAMESPACE"; "NAME"; "CONTAINER"; "PORTS"; "URL"; "C"; "N"; "AGE"]
    (<["C" := true]> (<["N" := true]> ∅))
    ∅
    AllNamespaces.

(** The body of the loop of [hydrate], forward.go 252-270, up to the map
    store: the row built for one session.  [None] is the run-time panic of
    [f.Ports()[0]] on a session without ports. *)
Definition hydrate_row (a : appView) (f : PortForward) : option resource.RowEvent :=
  let dc := config.dC (config.Defaults (bench a)) in
  let dn := config.dN (config.Defaults (bench a)) in
  let '(c, n, cfg) :=
    loadConfig dc dn (containerID (pf_path f) (pf_container f))
      (config.Containers (bench a)) in
  p0 ← pf_ports f !! 0%nat;
  let ports := strings_Split p0 ":"%char in
  let '(ns, na) := namespaced (pf_path f) in
  let fields :=
    [ ns; na; pf_container f; strings_Join (pf_ports f) ",";
      urlFor cfg (pf_container f) (hd "" ports); asNum c; asNum n; pf_age f ] in
  Some (resource.mkRowEvent resource.New fields fields).

Definition set_Rows (f : gmap string resource.RowEvent → gmap string resource.RowEvent)
    (d : resource.TableData) : resource.TableData :=
  resource.mkTableData (resource.Header d) (resource.NumCols d)
    (f (resource.Rows d)) (resource.Namespace d).

(** The loop of [hydrate] over the registry entries in the order [order].
    Go ranges over a map in an unspecified order, so the order is an
    argument. *)
Fixpoint hydrate_loop (a : appView) (order : list (string * loc))
    (data : resource.TableData) : option resource.TableData :=
  match order with
  | [] => Some data
  | (_, p) :: rest =>
      f ← heap a !! p;
      ev ← hydrate_row a f;
      hydrate_loop a rest (set_Rows <[pf_path f := ev]> data)
  end.

(** [hydrate], forward.go 248-274, for a given iteration order. *)
Definition hydrate_in (a : appView) (order : list (string * loc)) : option resource.TableData :=
  hydrate_loop a order (initHeader (size (forwarders a))).

(** [hydrate] with the enumeration [map_to_list] picks. *)
Definition hydrate (a : appView) : option resource.TableData :=
  hydrate_in a (map_to_list (forwarders a)).

(** [refresh], forward.go 88-93 (focus and title are presentation only). *)
Definition refresh (a : appView) : option appView :=
  data ← hydrate a;
  Some (set_tv (tv_update (tv a) data) a).

(** Modelled from the spec: [Bench.Reload] is not part of the sources at
    hand.  [loaded path] is what the file at [path] parses to, or the error
    text; a failed reload leaves the previously loaded configuration in
    effect. *)
Definition Reload (loaded : string → config.Benchmarks + string) (path : string)
    (b : config.Benchmarks) : config.Benchmarks * option string :=
  match loaded path with
  | inl b' => (b', None)
  | inr err => (b, Some err)
  end.

(** [reload], forward.go 79-86. *)
Definition reload (loaded : string → config.Benchmarks + string) (a : appView) : option appView :=
  let path := benchConfig (CurrentCluster a) in
  let a := log ("Reloading config " +:+ path) a in
  let '(b, err) := Reload loaded path (bench a) in
  let a := set_bench b a in
  let a := match err with
           | Some err => flash flashErr err a
           | None => a
           end in
  refresh a.

(** *** Deleting a forward *)

Definition set_cmdBuff (b : string) (t : tableView) : tableView :=
  mkTableView (cells t) (selection t) b.

(** [deleteCmd], forward.go 200-227: the handler itself only opens the
    confirmation prompt, remembering the selected item. *)
Definition deleteCmd (a : appView) : appView :=
  if decide (cmdBuff (tv a) ≠ "") then set_tv (set_cmdBuff "" (tv a)) a
  else
    let sel := getSelectedItem a in
    if decide (sel = "") then a
    else set_modal (Some sel) a.

(** The closure [deleteCmd] passes to [showModal], forward.go 212-224: what
    runs when the operator confirms. *)
Definition deleteOk (sel : string) (a : appView) : option appView :=
  match forwarders a !! sel with
  | None => Some (log ("Unable to find forwarder " +:+ sel) a)
  | Some fw =>
      let a := set_heap (alter Stop fw) a in
      let a := set_forwarders (delete sel) a in
      (* the message also prints the map, which the model leaves out *)
      let a := log "PortForwards after delete" a in
      data ← hydrate a;
      let a := set_tv (tv_update (tv a) data) a in
      Some (flash flashInfo ("PortForward " +:+ sel +:+ " deleted!") a)
  end.

(** The done function [showModal] installs, forward.go 325-330. *)
Definition modalDone (button : string) (a : appView) : option appView :=
  match modal a with
  | None => Some a
  | Some sel =>
      a ← (if decide (button = "OK") then deleteOk sel a else Some a);
      Some (set_modal None a)
  end.

(** ** types.go: starting a forward *)

(** [portForward], types.go 187-200, on the container [co] of the pod at
    [path].  [startErr] is the error of [pf.Start], if any; the new object
    gets the first unused location. *)
Definition portForward (path co lport cport age : string)
    (startErr : option string) (a : appView) : appView :=
  let ports := [lport +:+ ":" +:+ cport] in
  match startErr with
  | Some err => flash flashErr err a
  | None =>
      let pf := fresh (dom (heap a)) in
      let a := set_heap <[pf := started path co ports age]> a in
      let a := log (">>> Starting port forward " +:+ path) a in
      go (runForward_start pf) a
  end.

(** [containerView.dismissModal], types.go 220-223. *)
Definition dismissModal (a : appView) : appView := set_forwardDialog false a.

(** ** Jobs run by the UI goroutine *)

(** The body of each queued closure.  [None] is a run-time panic (a nil
    session, an empty port list). *)
Definition run_job (loaded : string → config.Benchmarks + string)
    (j : Job) (a : appView) : option appView :=
  match j with
  | registerForward pf =>
      f ← heap a !! pf;
      p0 ← pf_ports f !! 0%nat;
      let a := set_forwarders <[FQN f := pf]> a in
      let a := flash flashInfo ("PortForward activated " +:+ pf_path f +:+ ":" +:+ p0) a in
      Some (dismissModal a)
  | unregisterForward pf =>
      f ← heap a !! pf;
      let a := set_forwarders (delete (FQN f)) a in
      Some (set_heap (alter (SetActive false) pf) a)
  | benchDone =>
      b ← v_bench a;
      let a := if canceled b
               then set_status (Some (flashInfo, "Benchmark canceled")) a
               else set_v_bench (Some (cancel b))
                      (set_status (Some (flashInfo, "Benchmark Completed!")) a) in
      let a := set_v_bench None a in
      Some (go statusHold a)
  | statusResetJob => Some (statusReset a)
  | reloadJob => reload loaded a
  end.

(** ** Goroutine steps *)

(** What a background goroutine does to the application: it either queues
    a job for the UI goroutine or touches the state itself. *)
Inductive effect :=
| Enqueue (j : Job)                            (* QueueUpdate / QueueUpdateDraw *)
| WriteActive (pf : loc) (b : bool)            (* [pf.SetActive(b)] *)
| WriteFlash (l : flashLevel) (msg : string)   (* [app.flash()] *)
| WriteLog (msg : string)
| CloseWatcher.

(** What lets a goroutine move on. *)
Inductive event :=
| Scheduled                          (* it gets the processor *)
| Returned (err : option string)     (* [ForwardPorts] came back *)
| Finished                           (* the load generator is done *)
| Elapsed                            (* the timer fired *)
| FsEvent (name : string)            (* [<-w.Events] *)
| FsError (err : string)             (* [<-w.Errors] *)
| CtxDone.                           (* [<-ctx.Done()] *)

(** One step of a goroutine: the effects, in program order, and what is
    left of the goroutine.  The state is only read.
    - [runForward], types.go 202-218;
    - [runBenchmark], forward.go 172-189; [benchmark.run] is not part of
      the sources at hand and is taken, as the specification has it, to
      block until the load generator finishes and then to invoke the
      completion callback;
    - the timer goroutine of forward.go 183-186;
    - [updateBenchConfig], forward.go 351-371. *)
Definition go_step (a : appView) (g : goroutine) (e : event)
    : option (list effect * option goroutine) :=
  match g, e with
  | runForward_start pf, Scheduled =>
      Some ([Enqueue (registerForward pf)], Some (runForward_queued pf))
  | runForward_queued pf, Scheduled =>
      Some ([WriteActive pf true], Some (runForward_blocked pf))
  | runForward_blocked pf, Returned (Some err) =>
      Some ([WriteFlash flashErr err], None)
  | runForward_blocked pf, Returned None =>
      Some ([Enqueue (unregisterForward pf)], None)
  | runBenchmark_running, Finished =>
      Some ([WriteLog "Bench Completed!"; Enqueue benchDone], None)
  | statusHold, Elapsed =>
      Some ([Enqueue statusResetJob], None)
  | updateBenchConfig_start, Scheduled =>
      Some ([], Some (updateBenchConfig_loop (benchConfig (CurrentCluster a))))
  | updateBenchConfig_loop file, FsEvent name =>
      if decide (file = "" ∨ name = file)
      then Some ([WriteLog "Capuring Event"; Enqueue reloadJob], Some g)
      else Some ([], Some g)
  | updateBenchConfig_loop file, FsError err =>
      Some ([WriteLog ("FS " +:+ file +:+ " watcher failed")], None)
  | updateBenchConfig_loop file, CtxDone =>
      Some ([WriteLog ("<<FS " +:+ file +:+ " WATCHER DONE>>"); CloseWatcher], None)
  | _, _ => None
  end.

Definition apply_effect (a : appView) (e : effect) : appView :=
  match e with
  | Enqueue j => QueueUpdate j a
  | WriteActive pf b => set_heap (alter (SetActive b) pf) a
  | WriteFlash l msg => flash l msg a
  | WriteLog msg => log msg a
  | CloseWatcher => set_watcherClosed true a
  end.

(** [watchK9sDir], forward.go 341-349: the state and the error it returns.
    [newErr] is the error of [fsnotify.NewWatcher], [addErr] that of
    [w.Add(config.K9sHome)], if any; the goroutine is launched before the
    directory is added. *)
Definition watchK9sDir (newErr addErr : option string) (a : appView)
    : appView * option string :=
  match newErr with
  | Some err => (a, Some err)
  | None => (go updateBenchConfig_start a, addErr)
  end.

(** The first statement of [init], forward.go 59-61. *)
Definition init_watch (newErr addErr : option string) (a : appView) : appView :=
  let '(a, err) := watchK9sDir newErr addErr a in
  match err with
  | Some err =>
      flash flashErr
        ("RuRoh! Unable to watch benchmarks directory " +:+ K9sHome +:+ " : " +:+ err) a
  | None => a
  end.

(** ** The interleaving semantics *)

(** Operator actions; each runs to completion on the UI goroutine. *)
Inductive key :=
| PortForwardOK (path co lport cport age : string) (startErr : option string)
| BenchCmd
| BenchStopCmd
| DeleteCmd
| ModalDone (button : string)
| WatchDir (newErr addErr : option string)   (* the view is initialised *)
| Select (row : nat)               (* the cursor moves *)
| UseCluster (cluster : string).   (* another cluster gets selected *)

Inductive label :=
| Dispatch (loaded : string → config.Benchmarks + string)  (* oldest queued job runs *)
| Go (i : nat) (e : event)                                  (* goroutine [i] moves *)
| Key (k : key).

Definition set_selection (r : nat) (t : tableView) : tableView :=
  mkTableView (cells t) r (cmdBuff t).

Definition set_CurrentCluster (c : string) (a : appView) : appView :=
  mkApp (forwarders a) (heap a) (bench a) c (v_bench a) (tv a)
        (modal a) (forwardDialog a) (updates a) (goroutines a) (flashes a) (status a)
        (logs a) (watcherClosed a).

Definition handle (k : key) (a : appView) : option appView :=
  match k with
  | PortForwardOK path co lport cport age startErr =>
      Some (portForward path co lport cport age startErr a)
  | BenchCmd => Some (benchCmd a)
  | BenchStopCmd => Some (benchStopCmd a)
  | DeleteCmd => Some (deleteCmd a)
  | ModalDone button => modalDone button a
  | WatchDir newErr addErr => Some (init_watch newErr addErr a)
  | Select row => Some (set_tv (set_selection row (tv a)) a)
  | UseCluster cluster => Some (set_CurrentCluster cluster a)
  end.

Definition step (l : label) (a : appView) : option appView :=
  match l with
  | Dispatch loaded =>
      match updates a with
      | [] => None
      | j :: q => run_job loaded j (set_updates (λ _, q) a)
      end
  | Go i e =>
      g ← goroutines a !! i;
      '(effs, g') ← go_step a g e;
      let a := foldl apply_effect a effs in
      Some (set_goroutines
              (λ gs, match g' with Some g1 => <[i := g1]> gs | None => delete i gs end) a)
  | Key k => handle k a
  end.

(** A run: the labels are taken left to right. *)
Fixpoint run (ls : list label) (a : appView) : option appView :=
  match ls with
  | [] => Some a
  | l :: rest => a' ← step l a; run rest a'
  end.

End Views.

(** ** A concrete setting for the worked examples *)

(** Sample values for what the model takes from outside: a one-worker,
    200-request GET default, a joiner that glues directory and file with a
    slash, and a benchmark constructor that always succeeds. *)
Definition sampleExtern : Extern := {|
  DefaultC := 1;
  DefaultN := 200;
  DefaultMethod := "GET";
  K9sHome := "/home/op/.k9s";
  K9sBench := "bench";
  AllNamespaces := "";
  filepath_Join := λ dir file, dir +:+ "/" +:+ file;
  namespaced := λ path, (hd "" (strings_Split path "/"%char), strings_Join (tail (strings_Split path "/"%char)) "/");
  urlFor := λ cfg co port, "http://localhost:" +:+ port +:+ config.Path (config.HTTP_ cfg);
  asNum := λ n, pretty n;
  newBenchmark := λ base cfg, (Some (mkBench cfg false), None);
  tv_update := λ t data, t
|}.

(** The benchmark file of the spec's merge example: defaults
    [{C:10, N:100}] and, for container [app] of pod [ns/pod], the override
    [{C:0, N:50}] stored under [containerID "ns/pod" "app"]. *)
Definition override_0_50 : config.BenchConfig :=
  config.mkBenchConfig 0 50 (config.mkHTTP "" "") "".

Definition sampleBench : config.Benchmarks :=
  config.mkBenchmarks (config.mkBenchmark 10 100)
    {[ containerID "ns/pod" "app" := override_0_50 ]}.

(** The forwards table showing that one container, cursor on its row. *)
Definition sampleTable : tableView :=
  mkTableView
    [ ["NAMESPACE"; "NAME"; "CONTAINER"; "PORTS"; "URL"; "C"; "N"; "AGE"];
      ["ns"; "pod"; "app"; "8080:80"; "http://localhost:8080/"; "10"; "50"; "1m"] ]
    1 "".

(** A freshly started application on cluster [c0]: nothing registered,
    nothing queued, no goroutine. *)
Definition app0 : appView :=
  mkApp ∅ ∅ sampleBench "c0" None sampleTable None true [] [] [] None [] false.

Definition noFile : string → config.Benchmarks + string := λ _, inr "no such file".

(** A benchmark directory that holds the file of cluster [c1] only. *)
Definition onlyFile_c1 : string → config.Benchmarks + string :=
  λ path, if decide (path = "/home/op/.k9s/bench-c1.yml")
          then inl (config.mkBenchmarks (config.mkBenchmark 3 30) ∅)
          else inr "no such file".

(** The operator confirms the forward dialog for container [app] of pod
    [ns/pod], local port 8080 to pod port 80, and [Start] succeeds. *)
Definition startForward : label :=
  Key (PortForwardOK "ns/pod" "app" "8080" "80" "0s" None).

(** [app0] right after that confirmation has been handled. *)
Definition app_started : appView :=
  portForward "ns/pod" "app" "8080" "80" "0s" None app0.

(** The benchmark file with the same override stored under the key
    [benchCmd] looks up for the selected row. *)
Definition sampleBench_fwFQN : config.Benchmarks :=
  config.mkBenchmarks (config.mkBenchmark 10 100)
    {[ containerID (fwFQN "ns/pod" "app") "app" := override_0_50 ]}.

(** [app0] with a benchmark started on the selected row, and then with
    that benchmark cancelled. *)
Definition app_running : appView := benchCmd (E:=sampleExtern) app0.
Definition app_canceled : appView := benchStopCmd app_running.

(** [app0] with two forwards registered on containers [app] and [sidecar]
    of the same pod. *)
Definition app_two_forwards : appView :=
  set_heap (λ _, <[0 := mkPortForward "ns/pod" "app" ["8080:80"] "2m" true false]>
                   (<[1 := mkPortForward "ns/pod" "sidecar" ["9090:90"] "1m" true false]> ∅))
    (set_forwarders (λ _, <[fwFQN "ns/pod" "app" := 0]>
                            (<[fwFQN "ns/pod" "sidecar" := 1]> ∅)) app0).

(** ** Vocabulary of the properties *)

(** Goroutines currently running a load generator, and completion
    callbacks waiting in the queue. *)
Definition is_generator (g : goroutine) : bool :=
  match g with runBenchmark_running => true | _ => false end.

Definition is_benchDone (j : Job) : bool :=
  match j with benchDone => true | _ => false end.

Fixpoint count {A} (p : A → bool) (l : list A) : nat :=
  match l with
  | [] => 0
  | x :: rest => (if p x then 1 else 0) + count p rest
  end.

Definition generators (a : appView) : nat := count is_generator (goroutines a).
Definition pendingDone (a : appView) : nat := count is_benchDone (updates a).

(** Every registered session exists and has at least one port; this is
    what [hydrate] relies on when it reads [f.Ports()[0]]. *)
Definition registry_ok (a : appView) : Prop :=
  ∀ fq pf, forwarders a !! fq = Some pf →
    ∃ f, heap a !! pf = Some f ∧ pf_ports f ≠ [].

(** The same for all sessions ever started, registered or not: each has a
    port, and the registry only points at existing sessions.  Every step
    keeps this, see [step_sessions_ok]. *)
Definition sessions_ok (h : gmap loc PortForward) (m : gmap string loc) : Prop :=
  (∀ pf f, h !! pf = Some f → pf_ports f ≠ []) ∧
  (∀ fq pf, m !! fq = Some pf → is_Some (h !! pf)).

(** An effect that leaves shared rendering state alone: queueing a job
    does, and so do logging and closing the goroutine's own watcher; a
    session field or the flash line written in place does not. *)
Definition marshalled (e : effect) : bool :=
  match e with
  | Enqueue _ | WriteLog _ | CloseWatcher => true
  | WriteActive _ _ | WriteFlash _ _ => false
  end.

(** The path of the session an entry of the registry points to. *)
Definition entry_path (h : gmap loc PortForward) (e : string * loc) : option string :=
  pf_path <$> h !! e.2.

(** The paths of the sessions registered in [m]. *)
Definition paths_of (h : gmap loc PortForward) (m : gmap string loc) : gset string :=
  list_to_set (omap (entry_path h) (map_to_list m)).

Definition registered_paths (a : appView) : gset string :=
  paths_of (heap a) (forwarders a).

(** ** pod.go: shell arguments *)

Definition shellCheck : string :=
  "command -v bash >/dev/null && exec bash || exec sh".

(** [computeShellArgs], pod.go 220-235; [kcfg] is the [*string] of the
    kubeconfig flag, [None] for a nil pointer.  The slice starts empty with
    capacity 15 and grows by [append]. *)
Definition computeShellArgs {E : Extern} (path co context : string)
    (kcfg : option string) : list string :=
  let args := [] in
  let args := args ++ ["exec"; "-it"] in
  let args := args ++ ["--context"; context] in
  let '(ns, po) := namespaced path in
  let args := args ++ ["-n"; ns] in
  let args := args ++ [po] in
  let args := match kcfg with
              | Some k => if decide (k ≠ "") then args ++ ["--kubeconfig"; k] else args
              | None => args
              end in
  let args := if decide (co ≠ "") then args ++ ["-c"; co] else args in
  args ++ ["--"; "sh"; "-c"; shellCheck].

(** ** types.go: asking for a forward *)

(** The part of a [containerView] that [portFwdCmd] and the dialog read. *)
Record containerView := mkContainerView {
  cv_path : string;          (* [*v.path] *)
  selectedItem : string;
  selectedRow : nat;
  masterPage : tableView
}.

(** Helpers of the container view that the sources at hand use but do not
    define. *)
Class ExternContainer := {
  rowSelected : containerView → bool;
  isTCPPort : string → bool;
  stripPort : string → string;
  TrimSpace : string → string       (* [strings.TrimSpace] *)
}.

(** The two input fields of the forward dialog. *)
Record portDialog := mkPortDialog {
  p1 : string;     (* "Pod Port:" *)
  p2 : string      (* "Local Port:" *)
}.

Section ContainerView.
Context {C : ExternContainer}.

(** The loop of [portFwdCmd], types.go 169-177: the first entry that is a
    TCP port, trimmed; empty when there is none. *)
Fixpoint firstTCPPort (ports : list string) : string :=
  match ports with
  | [] => ""
  | p :: rest => if isTCPPort p then TrimSpace p else firstTCPPort rest
  end.

(** [showPortFwdDialog], types.go 230-261: both fields start with the
    proposed port. *)
Definition showPortFwdDialog (port : string) : portDialog := mkPortDialog port port.

(** [portFwdCmd], types.go 146-185: the new state, the dialog it opened
    if any, and whether the key event was consumed (the handler returned
    nil). *)
Definition portFwdCmd (cv : containerView) (a : appView)
    : appView * option portDialog * bool :=
  if negb (rowSelected cv) then (a, None, false)
  else if decide (is_Some (forwarders a !! fwFQN (cv_path cv) (selectedItem cv))) then
    (flash flashErr ("A PortForward already exist on container " +:+ cv_path cv) a,
     None, true)
  else
    let state := trimCell (masterPage cv) (selectedRow cv) 3 in
    if decide (state ≠ "Running") then
      (flash flashErr ("Container " +:+ selectedItem cv +:+ " is not running?") a,
       None, true)
    else
      let portC := trimCell (masterPage cv) (selectedRow cv) 10 in
      let ports := strings_Split portC ","%char in
      if decide (length ports = 0) then
        (flash flashErr "Container exposes no ports" a, None, true)
      else
        let port := firstTCPPort ports in
        let '(a, port) :=
          if decide (port = "") then
            (flash flashWarn
               "No valid TCP port found on this container. User will specify..." a,
             "MY_TCP_PORT!")
          else (a, port) in
        (set_forwardDialog true a, Some (showPortFwdDialog port), true).

(** The OK button of the dialog, types.go 247-249, wired to [portForward]
    (types.go 182 and 187-200): the container is read from column 0 of the
    selected row. *)
Definition dialogOK (cv : containerView) (d : portDialog) (age : string)
    (startErr : option string) (a : appView) : appView :=
  let co := trimCell (masterPage cv) (selectedRow cv) 0 in
  portForward (cv_path cv) co (stripPort (p2 d)) (stripPort (p1 d)) age startErr a.

End ContainerView.

(** ** registrar.go: the command table *)

Module registrar.

(** The constructors and handlers the table refers to, by name. *)
Inductive viewCtor :=
| newResourceView | newSecretView | newNodeView | newNamespaceView | newPodView
| newSvcView | newContextView | newDaemonSetView | newSubjectView | newForwardView
| newBenchView | newDumpView | newCronJobView | newJobView | newDeployView
| newReplicaSetView | newStatefulSetView.

Inductive listCtor :=
| NewConfigMapList | NewPersistentVolumeList | NewPersistentVolumeClaimList
| NewSecretList | NewNodeList | NewNamespaceList | NewPodList
| NewServiceAccountList | NewServiceList | NewContextList | NewDaemonSetList
| NewEndpointsList | NewEventList | NewReplicationControllerList
| NewClusterRoleList | NewClusterRoleBindingList | NewRoleBindingList
| NewRoleList | NewCustomResourceDefinitionList | NewCronJobList | NewJobList
| NewDeploymentList | NewReplicaSetList | NewStatefulSetList | NewIngressList
| NewPDBList | NewHorizontalPodAutoscalerV1List
| NewHorizontalPodAutoscalerV2Beta1List | NewHorizontalPodAutoscalerList.

Inductive enterCtor := showSAPolicy | showRBAC | showClusterRole | showRole.

Inductive colorer :=
| pvColorer | pvcColorer | nsColorer | podColorer | ctxColorer | dpColorer
| evColorer | rsColorer | stsColorer | pdbColorer.

(** [crdCmd], registrar.go 18-23. *)
Record crdCmd := mkCrdCmd {
  api : string;
  version : string;
  plural : string;
  singular : string
}.

(** [resCmd], registrar.go 25-34; a nil function is [None].  The field
    [decorateFn] is never set in this file and is left out. *)
Record resCmd := mkResCmd {
  crd : crdCmd;
  title : string;
  viewFn : option viewCtor;
  listFn : option listCtor;
  enterFn : option enterCtor;
  colorerFn : option colorer
}.

Definition noCrd : crdCmd := mkCrdCmd "" "" "" "".
Definition apiCrd (a : string) : crdCmd := mkCrdCmd a "" "" "".

Definition with_plural (p : string) (r : resCmd) : resCmd :=
  mkResCmd (mkCrdCmd (api (crd r)) (version (crd r)) p (singular (crd r)))
           (title r) (viewFn r) (listFn r) (enterFn r) (colorerFn r).

Definition with_singular (s : string) (r : resCmd) : resCmd :=
  mkResCmd (mkCrdCmd (api (crd r)) (version (crd r)) (plural (crd r)) s)
           (title r) (viewFn r) (listFn r) (enterFn r) (colorerFn r).

(** The table is a Go map from alias to command, [gmap string resCmd]. *)

(** [stateRes], registrar.go 134-158. *)
Definition stateRes (m : gmap string resCmd) : gmap string resCmd :=
  let viewFn := newResourceView in
  let m := <["cm" := mkResCmd noCrd "ConfigMaps" (Some viewFn) (Some NewConfigMapList) None None]> m in
  let m := <["pv" := mkResCmd noCrd "PersistentVolumes" (Some viewFn)
                       (Some NewPersistentVolumeList) None (Some pvColorer)]> m in
  let m := <["pvc" := mkResCmd noCrd "PersistentVolumeClaims" (Some viewFn)
                        (Some NewPersistentVolumeClaimList) None (Some pvcColorer)]> m in
  <["sec" := mkResCmd noCrd "Secrets" (Some newSecretView) (Some NewSecretList) None None]> m.

(** [primRes], registrar.go 160-190. *)
Definition primRes (m : gmap string resCmd) : gmap string resCmd :=
  let m := <["no" := mkResCmd noCrd "Nodes" (Some newNodeView) (Some NewNodeList)
                       None (Some nsColorer)]> m in
  let m := <["ns" := mkResCmd noCrd "Namespaces" (Some newNamespaceView)
                       (Some NewNamespaceList) None (Some nsColorer)]> m in
  let m := <["po" := mkResCmd noCrd "Pods" (Some newPodView) (Some NewPodList)
                       None (Some podColorer)]> m in
  let m := <["sa" := mkResCmd noCrd "ServiceAccounts" (Some newResourceView)
                       (Some NewServiceAccountList) (Some showSAPolicy) None]> m in
  <["svc" := mkResCmd noCrd "Services" (Some newSvcView) (Some NewServiceList) None None]> m.

(** [coreRes], registrar.go 192-222. *)
Definition coreRes (m : gmap string resCmd) : gmap string resCmd :=
  let m := <["ctx" := mkResCmd noCrd "Contexts" (Some newContextView)
                        (Some NewContextList) None (Some ctxColorer)]> m in
  let m := <["ds" := mkResCmd noCrd "DaemonSets" (Some newDaemonSetView)
                       (Some NewDaemonSetList) None (Some dpColorer)]> m in
  let m := <["ep" := mkResCmd noCrd "EndPoints" (Some newResourceView)
                       (Some NewEndpointsList) None None]> m in
  let m := <["ev" := mkResCmd noCrd "Events" (Some newResourceView)
                       (Some NewEventList) None (Some evColorer)]> m in
  <["rc" := mkResCmd noCrd "ReplicationControllers" (Some newResourceView)
              (Some NewReplicationControllerList) None (Some rsColorer)]> m.

(** [custRes], registrar.go 224-245. *)
Definition custRes (m : gmap string resCmd) : gmap string resCmd :=
  let m := <["usr" := mkResCmd noCrd "Users" (Some newSubjectView) None None None]> m in
  let m := <["grp" := mkResCmd noCrd "Groups" (Some newSubjectView) None None None]> m in
  let m := <["pf" := mkResCmd noCrd "PortForward" (Some newForwardView) None None None]> m in
  let m := <["be" := mkResCmd noCrd "Benchmark" (Some newBenchView) None None None]> m in
  <["sd" := mkResCmd noCrd "ScreenDumps" (Some newDumpView) None None None]> m.

(** [rbacRes], registrar.go 247-277. *)
Definition rbacRes (m : gmap string resCmd) : gmap string resCmd :=
  let viewFn := newResourceView in
  let rbac := apiCrd "rbac.authorization.k8s.io" in
  let m := <["cr" := mkResCmd rbac "ClusterRoles" (Some viewFn)
                       (Some NewClusterRoleList) (Some showRBAC) None]> m in
  let m := <["crb" := mkResCmd rbac "ClusterRoleBindings" (Some viewFn)
                        (Some NewClusterRoleBindingList) (Some showClusterRole) None]> m in
  let m := <["rb" := mkResCmd rbac "RoleBindings" (Some viewFn)
                       (Some NewRoleBindingList) (Some showRole) None]> m in
  <["ro" := mkResCmd rbac "Roles" (Some viewFn) (Some NewRoleList) (Some showRBAC) None]> m.

(** [apiExtRes], registrar.go 279-286. *)
Definition apiExtRes (m : gmap string resCmd) : gmap string resCmd :=
  <["crd" := mkResCmd (apiCrd "apiextensions.k8s.io") "CustomResourceDefinitions"
               (Some newResourceView) (Some NewCustomResourceDefinitionList) None None]> m.

(** [batchRes], registrar.go 288-301. *)
Definition batchRes (m : gmap string resCmd) : gmap string resCmd :=
  let m := <["cj" := mkResCmd (apiCrd "batch") "CronJobs" (Some newCronJobView)
                       (Some NewCronJobList) None None]> m in
  <["jo" := mkResCmd (apiCrd "batch") "Jobs" (Some newJobView) (Some NewJobList) None None]> m.

(** [appsRes], registrar.go 303-325. *)
Definition appsRes (m : gmap string resCmd) : gmap string resCmd :=
  let m := <["dp" := mkResCmd (apiCrd "apps") "Deployments" (Some newDeployView)
                       (Some NewDeploymentList) None (Some dpColorer)]> m in
  let m := <["rs" := mkResCmd (apiCrd "apps") "ReplicaSets" (Some newReplicaSetView)
                       (Some NewReplicaSetList) None (Some rsColorer)]> m in
  <["sts" := mkResCmd (apiCrd "apps") "StatefulSets" (Some newStatefulSetView)
               (Some NewStatefulSetList) None (Some stsColorer)]> m.

(** [extRes], registrar.go 327-334. *)
Definition extRes (m : gmap string resCmd) : gmap string resCmd :=
  <["ing" := mkResCmd (apiCrd "extensions") "Ingress" (Some newResourceView)
               (Some NewIngressList) None None]> m.

(** [v1beta1Res], registrar.go 336-344. *)
Definition v1beta1Res (m : gmap string resCmd) : gmap string resCmd :=
  <["pdb" := mkResCmd (apiCrd "v1.beta1") "PodDisruptionBudgets" (Some newResourceView)
               (Some NewPDBList) None (Some pdbColorer)]> m.

(** What the table builders ask of a [k8s.Connection]: the answer of
    [SupportsRes("autoscaling", ...)] as (revision, ok, error), and the
    extension fields of the custom resource definitions the cluster lists
    (empty when the listing fails, its error being dropped). *)
Inductive elem :=
| EString (s : string)
| EOther.

Inductive any :=
| AString (s : string)
| ASlice (l : list elem)     (* a [[]interface{}]; its elements are strings or not *)
| AOther.

Record Connection := mkConnection {
  SupportsRes : string * bool * option string;
  crds : list (gmap string any)
}.

Definition hpaCmd (l : listCtor) : resCmd :=
  mkResCmd (apiCrd "autoscaling") "HorizontalPodAutoscalers"
           (Some newResourceView) (Some l) None None.

(** [hpaRes], registrar.go 346-388; [None] is the panic of [log.Panic]. *)
Definition hpaRes (c : Connection) (m : gmap string resCmd) : option (gmap string resCmd) :=
  let '(rev, ok, err) := SupportsRes c in
  match err with
  | Some _ => Some m
  | None =>
      if negb ok then Some m
      else if decide (rev = "v1") then
        Some (<["hpa" := hpaCmd NewHorizontalPodAutoscalerV1List]> m)
      else if decide (rev = "v2beta1") then
        Some (<["hpa" := hpaCmd NewHorizontalPodAutoscalerV2Beta1List]> m)
      else if decide (rev = "v2beta2") then
        Some (<["hpa" := hpaCmd NewHorizontalPodAutoscalerList]> m)
      else None
  end.

(** [resourceViews], registrar.go 117-132; a nil connection is [None]. *)
Definition resourceViews (c : option Connection) (m : gmap string resCmd) : option (gmap string resCmd) :=
  let m := primRes m in
  let m := coreRes m in
  let m := stateRes m in
  let m := rbacRes m in
  let m := apiExtRes m in
  let m := batchRes m in
  let m := appsRes m in
  let m := extRes m in
  let m := v1beta1Res m in
  let m := custRes m in
  match c with
  | Some c => hpaRes c m
  | None => Some m
  end.

(** The unchecked type assertion [v.(string)] on a map element: [None] is
    its panic, also raised for a missing key. *)
Definition mustString (v : option any) : option string :=
  match v with
  | Some (AString s) => Some s
  | _ => None
  end.

(** The body of the loop of [allCRDs], registrar.go 50-81, for one custom
    resource definition with extension fields [ff]. *)
Definition registerCRD (ff : gmap string any) (m : gmap string resCmd) : option (gmap string resCmd) :=
  group ← mustString (ff !! "group");
  kind ← mustString (ff !! "kind");
  vers ← mustString (ff !! "version");
  let res := mkResCmd (mkCrdCmd group vers "" "") kind None None None None in
  let '(res, m) := match ff !! "plural" with
                   | Some (AString p) =>
                       let res := with_plural p res in (res, <[p := res]> m)
                   | _ => (res, m)
                   end in
  let '(res, m) := match ff !! "singular" with
                   | Some (AString s) =>
                       let res := with_singular s res in (res, <[s := res]> m)
                   | _ => (res, m)
                   end in
  match ff !! "aliases" with
  | Some (ASlice aa) =>
      foldl (λ (acc : option (gmap string resCmd)) (a : elem),
               m ← acc;
               match a with
               | EString s => Some (<[s := res]> m)
               | EOther => None      (* [a.(string)] panics *)
               end)
            (Some m) aa
  | _ => Some m
  end.

(** [allCRDs], registrar.go 44-83. *)
Definition allCRDs (c : Connection) (m : gmap string resCmd) : option (gmap string resCmd) :=
  foldl (λ (acc : option (gmap string resCmd)) ff, m ← acc; registerCRD ff m) (Some m) (crds c).

(** [aliasCmds], registrar.go 37-42. *)
Definition aliasCmds (c : option Connection) (m : gmap string resCmd) : option (gmap string resCmd) :=
  m ← resourceViews c m;
  match c with
  | Some c => allCRDs c m
  | None => Some m
  end.

(** The table the built-in registrations produce from nothing. *)
Definition builtins : gmap string resCmd := default ∅ (resourceViews None ∅).

End registrar.

(** ** More vocabulary *)

(** Each entry of the registry [m] is filed under the key of the session
    it points to, and that session exists in [h] and has a port. *)
Definition keyed (h : gmap loc PortForward) (m : gmap string loc) : Prop :=
  ∀ fq pf, m !! fq = Some pf →
    ∃ f, h !! pf = Some f ∧ FQN f = fq ∧ pf_ports f ≠ [].

Definition registry_keyed (a : appView) : Prop := keyed (heap a) (forwarders a).

Definition is_reloadJob (j : Job) : bool :=
  match j with reloadJob => true | _ => false end.

(** Reload jobs waiting in the queue. *)
Definition pendingReloads (a : appView) : nat := count is_reloadJob (updates a).

(** The flag of session [pf] is down in [a] and up in [a']. *)
Definition raised (pf : loc) (a a' : appView) : bool :=
  bool_decide (pf_active <$> heap a !! pf = Some false) &&
  bool_decide (pf_active <$> heap a' !! pf = Some true).

(** How often the flag of [pf] goes up along a run. *)
Fixpoint activations {E : Extern} (pf : loc) (ls : list label) (a : appView) : nat :=
  match ls with
  | [] => 0
  | l :: rest =>
      match step l a with
      | Some a' => (if raised pf a a' then 1 else 0) + activations pf rest a'
      | None => 0
      end
  end.

(** A goroutine of [runForward] for [pf] that has not yet executed the
    [pf.SetActive(true)] of types.go 209, and how many of them there are. *)
Definition before_SetActive (pf : loc) (g : goroutine) : bool :=
  match g with
  | runForward_start p | runForward_queued p => bool_decide (p = pf)
  | _ => false
  end.

Definition toActivate (pf : loc) (a : appView) : nat :=
  count (before_SetActive pf) (goroutines a).

(** Session [pf] does not exist in [a] and exists in [a']. *)
Definition started_in (pf : loc) (a a' : appView) : bool :=
  bool_decide (heap a !! pf = None) && bool_decide (is_Some (heap a' !! pf)).

(** At most one goroutine is about to raise the flag of [pf], the flag is
    down while there is one, and there is none for a session that does not
    exist. *)
Definition awaiting_ok (pf : loc) (a : appView) : Prop :=
  toActivate pf a ≤ 1 ∧
  (toActivate pf a = 1 → pf_active <$> heap a !! pf = Some false) ∧
  (heap a !! pf = None → toActivate pf a = 0).

(** The forward of [startForward] registered and deleted by the operator,
    a second forward started on the same container and registered, and then
    the transport call of the first one coming back without error: the
    state in which the job queued by the first goroutine is about to run. *)
Definition restart_run : list label :=
  [ startForward; Go 0 Scheduled; Dispatch noFile; Go 0 Scheduled;
    Key DeleteCmd; Key (ModalDone "OK");
    startForward; Go 1 Scheduled; Dispatch noFile; Go 1 Scheduled;
    Go 0 (Returned None) ].

Definition app_restarted : appView :=
  set_updates (λ _, []) (default app0 (run (E:=sampleExtern) restart_run app0)).

(** What never changes about a session once started; a stop is final. *)
Definition same_session (f f' : PortForward) : Prop :=
  pf_path f' = pf_path f ∧ pf_container f' = pf_container f ∧
  pf_ports f' = pf_ports f ∧ pf_age f' = pf_age f ∧
  (pf_stopped f = true → pf_stopped f' = true).

(** The registered sessions have pairwise different paths. *)
Definition distinct_paths (a : appView) : Prop :=
  ∀ fq1 fq2 pf1 pf2 f1 f2,
    forwarders a !! fq1 = Some pf1 → forwarders a !! fq2 = Some pf2 →
    heap a !! pf1 = Some f1 → heap a !! pf2 = Some f2 →
    pf_path f1 = pf_path f2 → fq1 = fq2.

(** [app0] with two forwards registered on pods [ns/pod] and [ns/other]. *)
Definition app_two_pods : appView :=
  set_heap (λ _, <[0 := mkPortForward "ns/pod" "app" ["8080:80"] "2m" true false]>
                   (<[1 := mkPortForward "ns/other" "app" ["9090:90"] "1m" true false]> ∅))
    (set_forwarders (λ _, <[fwFQN "ns/pod" "app" := 0]>
                            (<[fwFQN "ns/other" "app" := 1]> ∅)) app0).

(** A custom resource definition whose plural name is the alias of the
    built-in pods command, and two clusters: one that lists it and
    supports autoscaling v1, one that reports an autoscaling revision the
    table does not know. *)
Definition ponyCRD : gmap string registrar.any :=
  <["group" := registrar.AString "example.io"]>
    (<["kind" := registrar.AString "Pony"]>
      (<["version" := registrar.AString "v1"]>
        (<["plural" := registrar.AString "po"]>
          (<["singular" := registrar.AString "pony"]>
            (<["aliases" := registrar.ASlice (registrar.EString <$> ["pn"])]> ∅))))).

Definition ponyCluster : registrar.Connection :=
  registrar.mkConnection ("v1", true, None) [ponyCRD].

Definition oddCluster : registrar.Connection :=
  registrar.mkConnection ("v3", true, None) [].

(** Sample helpers of the container view: a row is selected when an item
    is, every entry counts as a TCP port, and ports and cells come
    trimmed. *)
Definition sampleContainer : ExternContainer := {|
  rowSelected := λ cv, bool_decide (selectedItem cv ≠ "");
  isTCPPort := λ p, true;
  stripPort := λ p, p;
  TrimSpace := λ s, s
|}.

(** The container view of pod [ns/pod] with the running container [app]
    selected. *)
Definition sampleContainerView : containerView :=
  mkContainerView "ns/pod" "app" 1
    (mkTableView
       [ ["NAME"; "IMAGE"; "READY"; "STATE"; "RS"; "PROBES"; "CPU"; "MEM"; "%CPU"; "%MEM"; "PORTS"; "AGE"];
         ["app"; "nginx"; "true"; "Running"; "0"; "on:on"; "1"; "2"; "0"; "0"; "80"; "1m"] ]
       1 "").

(** ** Several forward views

  [bench], the table page and the prompt page are fields of a
  [forwardView] (forward.go 25-31), and [newForwardView] is the constructor
  the command table files under [pf] (registrar.go 233-236): the
  application holds as many forward views as have been built.  The
  handlers, closures and goroutines of forward.go modelled above are
  methods of one view [v] and see the application through it.  A [desk]
  is the application together with all its forward views; every queued
  closure and every goroutine carries the view it captured. *)

Record forwardView := mkForwardView {
  fv_bench : option benchmark;     (* [bench] *)
  fv_tv : tableView;               (* page "table" *)
  fv_modal : option string;        (* page "prompt" *)
  fv_watcherClosed : bool          (* the watcher opened by [init] *)
}.

(** [newForwardView], forward.go 35-50: [bench] is left nil.
    [newTableView] is not part of the sources at hand; the table it
    returns is an argument. *)
Definition newForwardView (t : tableView) : forwardView :=
  mkForwardView None t None false.

(** The owner of a closure or goroutine is the forward view it captured,
    [Some v] for the view built as number [v]; code of the container view
    (types.go), which is no forward view, has owner [None]. *)
Record desk := mkDesk {
  d_app : appView;                              (* what all views share *)
  d_views : list forwardView;                   (* in the order they were built *)
  d_updates : list (option nat * Job);          (* the one update queue *)
  d_goroutines : list (option nat * goroutine)
}.

(** The fields of [appView] that belong to the forward view. *)
Definition view_of (a : appView) : forwardView :=
  mkForwardView (v_bench a) (tv a) (modal a) (watcherClosed a).

(** The application as the view [fv] sees it; what the code run against
    it queues or launches is collected from the two empty lists. *)
Definition as_seen_by (fv : forwardView) (a : appView) : appView :=
  mkApp (forwarders a) (heap a) (bench a) (CurrentCluster a)
        (fv_bench fv) (fv_tv fv) (fv_modal fv) (forwardDialog a) [] []
        (flashes a) (status a) (logs a) (fv_watcherClosed fv).

(** The application as seen by the owner [o]; [None] when the view does
    not exist.  Code without a forward view gets the view fields of
    [d_app], which no step changes. *)
Definition focus (o : option nat) (d : desk) : option appView :=
  match o with
  | None => Some (as_seen_by (view_of (d_app d)) (d_app d))
  | Some v => fv ← d_views d !! v; Some (as_seen_by fv (d_app d))
  end.

(** Writing back what code of owner [o] left in [a']: the shared fields go
    to the application, the view fields to the owner's view, and the jobs
    and goroutines it produced are appended, tagged with the owner, to the
    remaining queue [q] and goroutines [gs]. *)
Definition commit (o : option nat) (a' : appView) (q : list (option nat * Job))
    (gs : list (option nat * goroutine)) (d : desk) : desk :=
  mkDesk (as_seen_by (view_of (d_app d)) a')
         (match o with
          | Some v => <[v := view_of a']> (d_views d)
          | None => d_views d
          end)
         (q ++ (pair o <$> updates a'))
         (gs ++ (pair o <$> goroutines a')).

Arguments focus : simpl never.
Arguments commit : simpl never.

(** The keys bound to handlers of the forward view (forward.go 95-105 and
    the prompt); the others belong to the container view's dialog or to
    the application. *)
Definition view_key (k : key) : bool :=
  match k with
  | PortForwardOK _ _ _ _ _ _ | UseCluster _ => false
  | _ => true
  end.

Inductive dlabel :=
| NewView (t : tableView)         (* the [pf] command builds a view *)
| ViewKey (v : nat) (k : key)     (* view [v] handles a key *)
| AppKey (k : key)                (* a key handled outside the forward views *)
| DispatchJob (loaded : string → config.Benchmarks + string)
| GoStep (i : nat) (e : event).

Section Desk.
Context {E : Extern}.

(** One step of the application with its views: [step], with every
    handler, closure and goroutine run against the application as its
    owner sees it. *)
Definition dstep (l : dlabel) (d : desk) : option desk :=
  match l with
  | NewView t =>
      Some (mkDesk (d_app d) (d_views d ++ [newForwardView t]) (d_updates d) (d_goroutines d))
  | ViewKey v k =>
      if view_key k then
        a ← focus (Some v) d;
        a' ← handle k a;
        Some (commit (Some v) a' (d_updates d) (d_goroutines d) d)
      else None
  | AppKey k =>
      if view_key k then None
      else
        a ← focus None d;
        a' ← handle k a;
        Some (commit None a' (d_updates d) (d_goroutines d) d)
  | DispatchJob loaded =>
      match d_updates d with
      | [] => None
      | (o, j) :: q =>
          a ← focus o d;
          a' ← run_job loaded j a;
          Some (commit o a' q (d_goroutines d) d)
      end
  | GoStep i e =>
      '(o, g) ← d_goroutines d !! i;
      a ← focus o d;
      '(effs, g') ← go_step a g e;
      let a' := foldl apply_effect a effs in
      Some (commit o a' (d_updates d)
              (match g' with
               | Some g1 => <[i := (o, g1)]> (d_goroutines d)
               | None => delete i (d_goroutines d)
               end) d)
  end.

Fixpoint drun (ls : list dlabel) (d : desk) : option desk :=
  match ls with
  | [] => Some d
  | l :: rest => d' ← dstep l d; drun rest d'
  end.

End Desk.

(** What belongs to view [v] among tagged goroutines or jobs. *)
Definition owned_by {A} (v : nat) (p : A → bool) (x : option nat * A) : bool :=
  bool_decide (x.1 = Some v) && p x.2.

(** The load generators of view [v], its completion callbacks waiting in
    the queue, and its benchmark slot (nil also for a view that does not
    exist). *)
Definition generators_of (v : nat) (d : desk) : nat :=
  count (owned_by v is_generator) (d_goroutines d).

Definition pendingDone_of (v : nat) (d : desk) : nat :=
  count (owned_by v is_benchDone) (d_updates d).

Definition slot_of (v : nat) (d : desk) : option benchmark :=
  d_views d !! v ≫= fv_bench.

Definition slots (a : appView) : nat :=
  match v_bench a with Some _ => 1 | None => 0 end.

(** The bookkeeping behind the slot of each view: a generator or a queued
    completion callback of the view is covered by its occupied slot. *)
Definition slot_covers (d : desk) : Prop :=
  ∀ v, generators_of v d + pendingDone_of v d
       ≤ match slot_of v d with Some _ => 1 | None => 0 end.

(** The application starts with no forward view, an empty queue and no
    goroutine; every view is built by [NewView]. *)
Definition initial (d : desk) : Prop :=
  d_views d = [] ∧ d_updates d = [] ∧ d_goroutines d = [].

Definition reachable {E : Extern} (d : desk) : Prop :=
  ∃ d0 ls, initial d0 ∧ drun ls d0 = Some d.

(** The sample application before any forward view is built. *)
Definition desk0 : desk := mkDesk app0 [] [] [].

(** ** Properties of [loadConfig] and [benchCmd]'s configuration *)

Section Merge.
Context {E : Extern}.

Lemma loadConfig_found dc dn id cc cfg :
  cc !! id = Some cfg →
  loadConfig dc dn id cc =
    (if decide (config.C cfg = 0%Z) then dc else config.C cfg,
     if decide (config.N cfg = 0%Z) then dn else config.N cfg,
     cfg).
Proof.
  intros Hid. unfold loadConfig. rewrite Hid.
  repeat case_decide; congruence.
Qed.

Lemma loadConfig_missing dc dn id cc :
  cc !! id = None → loadConfig dc dn id cc = (dc, dn, config.zero).
Proof. intros Hid. unfold loadConfig. by rewrite Hid. Qed.

(** The table path gives the spec's merge example for the two counters. *)
Example loadConfig_10_100_0_50 :
  loadConfig 10 100 (containerID "ns/pod" "app") (config.Containers sampleBench)
  = (10%Z, 50%Z, override_0_50).
Proof. reflexivity. Qed.

Lemma benchCmd_config_found a sel b :
  config.Containers (bench a) !! containerID sel (trimCell (tv a) (selection (tv a)) 2) = Some b →
  benchCmd_config a sel = config.with_Name sel b.
Proof. intros Hb. unfold benchCmd_config. by rewrite Hb. Qed.

Lemma benchCmd_config_missing a sel :
  config.Containers (bench a) !! containerID sel (trimCell (tv a) (selection (tv a)) 2) = None →
  benchCmd_config a sel = config.with_Name sel defaultConfig.
Proof. intros Hb. unfold benchCmd_config. by rewrite Hb. Qed.

(** C1.  The configuration [benchCmd] runs with is not the field-by-field
    merge.  With defaults [{C:10, N:100}] and the override [{C:0, N:50}]
    stored under [containerID "ns/pod" "app"], and the row of that container
    selected: [benchCmd] looks the override up under
    [containerID (fwFQN path container) container], misses it and runs with
    the built-in [defaultConfig]; and were the override stored under the
    key [benchCmd] does use, it would be taken whole, [C = 0] included.
    Neither is [{C:10, N:50}], which [loadConfig] shows in the table. *)
Theorem benchCmd_config_not_merged :
  getSelectedItem app0 = fwFQN "ns/pod" "app" ∧
  benchCmd_config app0 (getSelectedItem app0)
    = config.with_Name (fwFQN "ns/pod" "app") defaultConfig ∧
  benchCmd_config (set_bench sampleBench_fwFQN app0) (getSelectedItem app0)
    = config.with_Name (fwFQN "ns/pod" "app") override_0_50 ∧
  config.C override_0_50 = 0%Z ∧
  loadConfig 10 100 (containerID "ns/pod" "app") (config.Containers (bench app0))
    = (10%Z, 50%Z, override_0_50).
Proof.
  split; [reflexivity|]. split; [|split; [|split]].
  - apply benchCmd_config_missing. reflexivity.
  - apply benchCmd_config_found. reflexivity.
  - reflexivity.
  - reflexivity.
Qed.

End Merge.

(** ** The single benchmark slot *)

Lemma fwFQN_nonempty po co : fwFQN po co ≠ "".
Proof. unfold fwFQN. destruct po; simpl; discriminate. Qed.

Section SingleFlight.
Context {E : Extern}.

Lemma count_app {A} (p : A → bool) (l k : list A) :
  count p (l ++ k) = count p l + count p k.
Proof. induction l as [|x l IH]; simpl; [done|]. rewrite IH. lia. Qed.

Lemma count_delete {A} (p : A → bool) (l : list A) i x :
  l !! i = Some x →
  count p l = (if p x then 1 else 0) + count p (delete i l).
Proof.
  revert i. induction l as [|y l IH]; intros [|i] Hi; simplify_eq/=; [done|].
  rewrite (IH _ Hi). lia.
Qed.

Lemma count_insert {A} (p : A → bool) (l : list A) i x y :
  l !! i = Some x →
  count p (<[i := y]> l) + (if p x then 1 else 0)
  = count p l + (if p y then 1 else 0).
Proof.
  revert i. induction l as [|z l IH]; intros [|i] Hi; simplify_eq/=; [lia|].
  specialize (IH _ Hi). lia.
Qed.

(** Effects never touch the slot or the goroutine list; only [Enqueue]
    touches the queue. *)
Lemma apply_effect_frame a e :
  v_bench (apply_effect a e) = v_bench a ∧
  goroutines (apply_effect a e) = goroutines a ∧
  forwarders (apply_effect a e) = forwarders a ∧
  updates (apply_effect a e)
    = updates a ++ match e with Enqueue j => [j] | _ => [] end.
Proof. destruct e; simpl; rewrite ?app_nil_r; done. Qed.

Lemma apply_effects_frame effs a :
  v_bench (foldl apply_effect a effs) = v_bench a ∧
  goroutines (foldl apply_effect a effs) = goroutines a ∧
  forwarders (foldl apply_effect a effs) = forwarders a ∧
  updates (foldl apply_effect a effs)
    = updates a ++ omap (λ e, match e with Enqueue j => Some j | _ => None end) effs.
Proof.
  revert a. induction effs as [|e effs IH]; intros a; simpl.
  - by rewrite app_nil_r.
  - destruct (IH (apply_effect a e)) as (-> & -> & -> & ->).
    destruct (apply_effect_frame a e) as (-> & -> & -> & ->).
    destruct e; simpl; rewrite <- ?app_assoc, ?app_nil_r; done.
Qed.

(** [refresh] and [reload] redraw the table and may replace the loaded
    benchmark file; they leave everything else alone. *)
Lemma refresh_frame a a' :
  refresh a = Some a' →
  v_bench a' = v_bench a ∧ goroutines a' = goroutines a ∧
  updates a' = updates a ∧ forwarders a' = forwarders a ∧ heap a' = heap a.
Proof. unfold refresh. intros; simplify_option_eq. done. Qed.

Lemma reload_frame loaded a a' :
  reload loaded a = Some a' →
  v_bench a' = v_bench a ∧ goroutines a' = goroutines a ∧
  updates a' = updates a ∧ forwarders a' = forwarders a ∧ heap a' = heap a.
Proof.
  unfold reload. destruct (Reload _ _ _) as [b [err|]]; intros Hr;
    apply refresh_frame in Hr; simpl in Hr; done.
Qed.

Lemma deleteOk_slot sel a a' :
  deleteOk sel a = Some a' →
  v_bench a' = v_bench a ∧ goroutines a' = goroutines a ∧ updates a' = updates a.
Proof.
  unfold deleteOk. destruct (forwarders a !! sel); intros; simplify_option_eq; done.
Qed.

Lemma modalDone_slot button a a' :
  modalDone button a = Some a' →
  v_bench a' = v_bench a ∧ goroutines a' = goroutines a ∧ updates a' = updates a.
Proof.
  unfold modalDone. destruct (modal a); [|by intros [= <-]].
  case_decide; intros Hm; simplify_option_eq; [|done].
  match goal with Hd : deleteOk _ _ = Some _ |- _ => apply deleteOk_slot in Hd end.
  done.
Qed.

End SingleFlight.

(** ** One slot for each view *)

Ltac owner_cases o v :=
  let Ho := fresh "Ho" in
  destruct (decide (o = Some v)) as [Ho|Ho];
  [rewrite ?(bool_decide_eq_true_2 _ Ho) in *
  |rewrite ?(bool_decide_eq_false_2 _ Ho) in *].

Ltac no_new := exists []; rewrite app_nil_r; split; [done|simpl; lia].

Section Desks.
Context {E : Extern}.
Hypothesis newBenchmark_some : ∀ base cfg, newBenchmark base cfg ≠ (None, None).

Lemma handle_keeps_slot k a a' :
  handle k a = Some a' → is_Some (v_bench a) → is_Some (v_bench a').
Proof.
  intros Hs [b Hb].
  destruct k; simpl in Hs; simplify_eq/=; try (by eexists).
  - destruct startErr; by eexists.
  - unfold benchCmd. case_decide; [by eexists|]. rewrite Hb. by eexists.
  - unfold benchStopCmd. rewrite Hb. by eexists.
  - unfold deleteCmd. repeat case_decide; by eexists.
  - apply modalDone_slot in Hs as (-> & _). by eexists.
  - unfold init_watch, watchK9sDir. destruct newErr, addErr; by eexists.
Qed.

Lemma handle_slot k a a' :
  handle k a = Some a' →
  updates a' = updates a ∧
  ∃ gs, goroutines a' = goroutines a ++ gs ∧
        count is_generator gs + slots a ≤ slots a'.
Proof.
  intros Hs. unfold slots.
  destruct k; simpl in Hs; simplify_eq/=.
  - destruct startErr; simpl; (split; [done|]); [no_new|].
    eexists. split; [done|]. simpl. lia.
  - unfold benchCmd. case_decide; [split; [done|no_new]|].
    destruct (v_bench a) eqn:Hb; simpl; [rewrite Hb; split; [done|no_new]|].
    pose proof (newBenchmark_some (trimCell (tv a) (selection (tv a)) 4)
                  (benchCmd_config a (getSelectedItem a))) as Hne.
    destruct (newBenchmark _ _) as [nb [err|]]; simpl; (split; [done|]); [no_new|].
    eexists. split; [done|]. destruct nb; [simpl; lia|done].
  - unfold benchStopCmd. destruct (v_bench a); simpl; (split; [done|]); no_new.
  - unfold deleteCmd. repeat case_decide; simpl; (split; [done|]); no_new.
  - apply modalDone_slot in Hs as (-> & -> & ->). split; [done|]. no_new.
  - unfold init_watch, watchK9sDir.
    destruct newErr, addErr; simpl; (split; [done|]);
      try no_new; eexists; (split; [done|]); simpl; lia.
  - split; [done|]. no_new.
  - split; [done|]. no_new.
Qed.

Lemma run_job_slot loaded j a a' :
  run_job loaded j a = Some a' →
  updates a' = updates a ∧
  (∃ gs, goroutines a' = goroutines a ++ gs ∧ count is_generator gs = 0) ∧
  (if is_benchDone j then is_Some (v_bench a) ∧ v_bench a' = None
   else v_bench a' = v_bench a).
Proof.
  intros Hs. destruct j as [pf|pf| | |]; simpl in Hs.
  - simplify_option_eq. split; [done|]. split; [|done]. exists []. by rewrite app_nil_r.
  - simplify_option_eq. split; [done|]. split; [|done]. exists []. by rewrite app_nil_r.
  - destruct (v_bench a) as [b|] eqn:Hb; [|done]. simpl in Hs. injection Hs as <-.
    destruct (canceled b); simpl; (split; [done|]); (split; [by eexists|]);
      split; by eauto.
  - injection Hs as <-. split; [done|]. split; [|done]. exists []. by rewrite app_nil_r.
  - apply reload_frame in Hs as (-> & -> & -> & _). split; [done|]. split; [|done].
    exists []. by rewrite app_nil_r.
Qed.

Lemma go_step_slot a g e effs g' :
  go_step a g e = Some (effs, g') →
  let a' := foldl apply_effect a effs in
  v_bench a' = v_bench a ∧ tv a' = tv a ∧ modal a' = modal a ∧
  goroutines a' = goroutines a ∧
  ∃ js, updates a' = updates a ++ js ∧
    count is_benchDone js
    + match g' with Some g1 => if is_generator g1 then 1 else 0 | None => 0 end
    = if is_generator g then 1 else 0.
Proof.
  intros Hgo.
  destruct g, e as [|[?|]| | | | |]; simpl in Hgo; try done;
    try case_decide; simplify_eq/=; rewrite ?app_nil_r; repeat split; try done;
    try (by exists []; rewrite app_nil_r); by eexists.
Qed.


Lemma owned_by_pair {A} v (p : A → bool) (o : option nat) (x : A) :
  owned_by v p (o, x) = bool_decide (o = Some v) && p x.
Proof. done. Qed.

Lemma count_owned {A} v (p : A → bool) (o : option nat) (xs : list A) :
  count (owned_by v p) (pair o <$> xs)
  = if bool_decide (o = Some v) then count p xs else 0.
Proof.
  induction xs as [|x xs IH]; [simpl; by case_bool_decide|].
  rewrite fmap_cons. cbn [count]. rewrite IH. unfold owned_by. cbn [fst snd].
  by case_bool_decide.
Qed.

Lemma focus_facts o d a :
  focus o d = Some a →
  updates a = [] ∧ goroutines a = [] ∧
  flashes a = flashes (d_app d) ∧
  ∀ v, o = Some v →
    ∃ fv, d_views d !! v = Some fv ∧ view_of a = fv.
Proof.
  unfold focus. destruct o as [u|]; simpl.
  - destruct (d_views d !! u) as [fv|] eqn:Hv; [|done]. simpl. intros [= <-].
    repeat split. intros v [= <-]. exists fv. split; [done|]. by destruct fv.
  - intros [= <-]. repeat split. done.
Qed.

Lemma slot_of_commit v o a' q gs d :
  (∀ u, o = Some u → is_Some (d_views d !! u)) →
  slot_of v (commit o a' q gs d)
  = if bool_decide (o = Some v) then v_bench a' else slot_of v d.
Proof.
  intros Hex. unfold slot_of, commit. simpl. destruct o as [u|].
  - case_bool_decide as Ho.
    + injection Ho as ->. destruct (Hex v eq_refl) as [fv Hfv].
      rewrite list_lookup_insert_eq by (by eapply lookup_lt_Some). done.
    + rewrite list_lookup_insert_ne by congruence. done.
  - by case_bool_decide.
Qed.

Lemma generators_of_commit v o a' q gs d :
  generators_of v (commit o a' q gs d)
  = count (owned_by v is_generator) gs
    + if bool_decide (o = Some v) then count is_generator (goroutines a') else 0.
Proof. unfold generators_of, commit. simpl. by rewrite count_app, count_owned. Qed.

Lemma pendingDone_of_commit v o a' q gs d :
  pendingDone_of v (commit o a' q gs d)
  = count (owned_by v is_benchDone) q
    + if bool_decide (o = Some v) then count is_benchDone (updates a') else 0.
Proof. unfold pendingDone_of, commit. simpl. by rewrite count_app, count_owned. Qed.

Lemma slot_of_focus v d a :
  focus (Some v) d = Some a → v_bench a = slot_of v d.
Proof.
  unfold focus, slot_of. destruct (d_views d !! v) as [fv|]; [|done].
  simpl. by intros [= <-].
Qed.

Lemma focus_exists o d a :
  focus o d = Some a → ∀ u, o = Some u → is_Some (d_views d !! u).
Proof.
  intros Hf u ->. unfold focus in Hf. destruct (d_views d !! u); [by eexists|done].
Qed.

Lemma dstep_slot_covers l d d' :
  dstep l d = Some d' → slot_covers d → slot_covers d'.
Proof.
  intros Hs Hinv v. specialize (Hinv v).
  destruct l as [t|u k|k|loaded|i e]; cbn [dstep] in Hs.
  - injection Hs as <-. unfold generators_of, pendingDone_of, slot_of in *. simpl.
    destruct (d_views d !! v) as [fv|] eqn:Hv.
    + rewrite lookup_app_l by (by eapply lookup_lt_Some). by rewrite Hv.
    + simpl in Hinv. lia.
  - destruct (view_key k); [|done].
    destruct (focus (Some u) d) as [a|] eqn:Hf; [|done]. simpl in Hs.
    destruct (handle k a) as [a'|] eqn:Hh; [|done]. injection Hs as <-.
    rewrite generators_of_commit, pendingDone_of_commit, slot_of_commit
      by eauto using focus_exists.
    destruct (focus_facts _ _ _ Hf) as (Hu0 & Hg0 & _).
    destruct (handle_slot _ _ _ Hh) as (Hu & gs & Hg & Hle).
    rewrite Hu, Hg, Hu0, Hg0. simpl.
    unfold generators_of, pendingDone_of in Hinv.
    owner_cases (Some u) v; [|lia].
    injection Ho as ->. unfold slots in Hle.
    rewrite (slot_of_focus _ _ _ Hf) in Hle. lia.
  - destruct (view_key k); [done|].
    destruct (focus None d) as [a|] eqn:Hf; [|done]. simpl in Hs.
    destruct (handle k a) as [a'|] eqn:Hh; [|done]. injection Hs as <-.
    rewrite generators_of_commit, pendingDone_of_commit, slot_of_commit
      by eauto using focus_exists.
    rewrite !bool_decide_eq_false_2 by done.
    unfold generators_of, pendingDone_of in Hinv. lia.
  - destruct (d_updates d) as [|[o j] q] eqn:Hq; [done|].
    destruct (focus o d) as [a|] eqn:Hf; [|done]. simpl in Hs.
    destruct (run_job loaded j a) as [a'|] eqn:Hj; [|done]. injection Hs as <-.
    rewrite generators_of_commit, pendingDone_of_commit, slot_of_commit
      by eauto using focus_exists.
    destruct (focus_facts _ _ _ Hf) as (Hu0 & Hg0 & _).
    destruct (run_job_slot _ _ _ _ Hj) as (Hu & (gs & Hg & Hgs) & Hslot).
    rewrite Hu, Hg, Hu0, Hg0. simpl. rewrite Hgs.
    unfold generators_of, pendingDone_of in Hinv. rewrite Hq in Hinv.
    cbn [count] in Hinv. rewrite owned_by_pair in Hinv.
    owner_cases o v; simpl in Hinv; [|lia].
    subst o. rewrite (slot_of_focus _ _ _ Hf) in Hslot.
    destruct (is_benchDone j).
    + destruct Hslot as [[b Hb] ->]. rewrite Hb in Hinv. lia.
    + rewrite Hslot. lia.
  - destruct (d_goroutines d !! i) as [[o g]|] eqn:Hgi; [|done]. simpl in Hs.
    destruct (focus o d) as [a|] eqn:Hf; [|done]. simpl in Hs.
    destruct (go_step a g e) as [[effs g']|] eqn:Hgo; [|done]. simpl in Hs.
    injection Hs as <-.
    rewrite generators_of_commit, pendingDone_of_commit, slot_of_commit
      by eauto using focus_exists.
    destruct (focus_facts _ _ _ Hf) as (Hu0 & Hg0 & _).
    destruct (go_step_slot _ _ _ _ _ Hgo) as (Hv & _ & _ & Hg & js & Hu & Hcnt).
    rewrite Hu, Hg, Hu0, Hg0, Hv. simpl.
    unfold generators_of, pendingDone_of in Hinv.
    assert (count (owned_by v is_generator)
              (match g' with
               | Some g1 => <[i:=(o, g1)]> (d_goroutines d)
               | None => delete i (d_goroutines d)
               end)
            + (if bool_decide (o = Some v) then count is_benchDone js else 0)
            = count (owned_by v is_generator) (d_goroutines d)) as Hsame.
    { destruct g' as [g1|].
      - pose proof (count_insert (owned_by v is_generator) _ _ _ (o, g1) Hgi) as Hc.
        rewrite !owned_by_pair in Hc.
        owner_cases o v; simpl in Hc; [destruct (is_generator g), (is_generator g1)|]; lia.
      - pose proof (count_delete (owned_by v is_generator) _ _ _ Hgi) as Hc.
        rewrite !owned_by_pair in Hc.
        owner_cases o v; simpl in Hc; [destruct (is_generator g)|]; lia. }
    owner_cases o v; [|lia].
    subst o. rewrite (slot_of_focus _ _ _ Hf). lia.
Qed.

Lemma reachable_slot_covers d : reachable d → slot_covers d.
Proof.
  intros (d0 & ls & (Hv & Hq & Hg) & Hr).
  assert (slot_covers d0) as H0.
  { intros v. unfold generators_of, pendingDone_of. rewrite Hq, Hg. simpl. lia. }
  clear Hv Hq Hg. revert d0 Hr H0. induction ls as [|l ls IH]; simpl; intros d0 Hr H0.
  - by injection Hr as <-.
  - destruct (dstep l d0) as [d1|] eqn:Hs; [|done]. simpl in Hr.
    eauto using dstep_slot_covers.
Qed.

Lemma drun_snoc ls l d :
  drun (ls ++ [l]) d = drun ls d ≫= dstep l.
Proof.
  revert d. induction ls as [|l0 ls IH]; intros d.
  - change (drun ([] ++ [l]) d) with (dstep l d ≫= Some).
    change (drun [] d ≫= dstep l) with (dstep l d).
    by destruct (dstep l d).
  - change (drun ((l0 :: ls) ++ [l]) d) with (dstep l0 d ≫= drun (ls ++ [l])).
    change (drun (l0 :: ls) d) with (dstep l0 d ≫= drun ls).
    destruct (dstep l0 d) as [d1|]; [|done]. apply IH.
Qed.

Lemma dstep_clears_slot l d d' v :
  dstep l d = Some d' → is_Some (slot_of v d) → slot_of v d' = None →
  (∃ loaded, l = DispatchJob loaded) ∧ head (d_updates d) = Some (Some v, benchDone).
Proof.
  intros Hs [b Hb] Hnone.
  destruct l as [t|u k|k|loaded|i e]; cbn [dstep] in Hs.
  - exfalso. injection Hs as <-. unfold slot_of in *. simpl in Hnone.
    destruct (d_views d !! v) as [fv|] eqn:Hv; [|done].
    rewrite lookup_app_l in Hnone by (by eapply lookup_lt_Some).
    rewrite Hv in Hnone. simpl in *. congruence.
  - exfalso. destruct (view_key k); [|done].
    destruct (focus (Some u) d) as [a|] eqn:Hf; [|done]. simpl in Hs.
    destruct (handle k a) as [a'|] eqn:Hh; [|done]. injection Hs as <-.
    rewrite slot_of_commit in Hnone by eauto using focus_exists.
    owner_cases (Some u) v; [|congruence].
    injection Ho as ->.
    destruct (handle_keeps_slot _ _ _ Hh) as [b' Hb']; [|congruence].
    rewrite (slot_of_focus _ _ _ Hf). by eexists.
  - exfalso. destruct (view_key k); [done|].
    destruct (focus None d) as [a|] eqn:Hf; [|done]. simpl in Hs.
    destruct (handle k a) as [a'|] eqn:Hh; [|done]. injection Hs as <-.
    rewrite slot_of_commit in Hnone by eauto using focus_exists.
    rewrite bool_decide_eq_false_2 in Hnone by done. congruence.
  - split; [by eexists|].
    destruct (d_updates d) as [|[o j] q] eqn:Hq; [done|].
    destruct (focus o d) as [a|] eqn:Hf; [|done]. simpl in Hs.
    destruct (run_job loaded j a) as [a'|] eqn:Hj; [|done]. injection Hs as <-.
    rewrite slot_of_commit in Hnone by eauto using focus_exists.
    owner_cases o v; [|congruence]. subst o. simpl.
    destruct (run_job_slot _ _ _ _ Hj) as (_ & _ & Hslot).
    destruct j; simpl in Hslot; try done;
      rewrite (slot_of_focus _ _ _ Hf) in Hslot; congruence.
  - exfalso.
    destruct (d_goroutines d !! i) as [[o g]|] eqn:Hgi; [|done]. simpl in Hs.
    destruct (focus o d) as [a|] eqn:Hf; [|done]. simpl in Hs.
    destruct (go_step a g e) as [[effs g']|] eqn:Hgo; [|done]. simpl in Hs.
    injection Hs as <-.
    rewrite slot_of_commit in Hnone by eauto using focus_exists.
    destruct (go_step_slot _ _ _ _ _ Hgo) as (Hv & _).
    owner_cases o v; [|congruence]. subst o.
    rewrite Hv, (slot_of_focus _ _ _ Hf) in Hnone. congruence.
Qed.

Lemma count_lookup {A} (p : A → bool) (l : list A) i x :
  l !! i = Some x → p x = true → 0 < count p l.
Proof.
  intros Hi Hp. rewrite (count_delete p l i x Hi), Hp. lia.
Qed.

Lemma slot_of_view v d b :
  slot_of v d = Some b →
  ∃ fv, d_views d !! v = Some fv ∧ fv_bench fv = Some b ∧
        focus (Some v) d = Some (as_seen_by fv (d_app d)).
Proof.
  unfold slot_of, focus. destruct (d_views d !! v) as [fv|]; [|done].
  simpl. intros Hb. by exists fv.
Qed.

Lemma commit_same_view v fv a' q gs d :
  d_views d !! v = Some fv → view_of a' = fv →
  d_views (commit (Some v) a' q gs d) = d_views d.
Proof. intros Hv <-. unfold commit. simpl. by apply list_insert_id. Qed.

(** C5, as the code has it.  The slot is a field of the view, so the
    single flight holds view by view.  In every state the application
    reaches, provided [newBenchmark] never returns neither session nor
    error: a view has at most one load generator, and it has a generator or
    a queued completion callback only while its slot is occupied.  With
    the slot occupied, [benchCmd] on that view leaves views, goroutines and
    queue as they are and, on a selected row, flashes the "only one
    benchmark" error.  A generator that finishes queues the completion
    callback of its view; that callback, once it heads the queue, runs to
    the end and empties the slot of its view; and no other step empties an
    occupied slot. *)
Theorem single_flight (d : desk) (v : nat) :
  reachable d →
  generators_of v d ≤ 1 ∧
  (0 < generators_of v d + pendingDone_of v d → is_Some (slot_of v d)) ∧
  (∀ fv, d_views d !! v = Some fv → is_Some (fv_bench fv) →
     ∃ d', dstep (ViewKey v BenchCmd) d = Some d' ∧
       d_views d' = d_views d ∧ d_goroutines d' = d_goroutines d ∧
       d_updates d' = d_updates d ∧
       flashes (d_app d') = flashes (d_app d) ++
         (if decide (selection (fv_tv fv) = 0) then []
          else [(flashErr, "Only one benchmark allowed at a time")])) ∧
  (∀ i, d_goroutines d !! i = Some (Some v, runBenchmark_running) →
     ∃ d', dstep (GoStep i Finished) d = Some d' ∧
       d_goroutines d' = delete i (d_goroutines d) ∧
       d_updates d' = d_updates d ++ [(Some v, benchDone)] ∧
       d_views d' = d_views d) ∧
  (∀ loaded, head (d_updates d) = Some (Some v, benchDone) →
     ∃ d', dstep (DispatchJob loaded) d = Some d' ∧
       slot_of v d' = None ∧ d_updates d' = tail (d_updates d)) ∧
  (∀ l d', dstep l d = Some d' → is_Some (slot_of v d) → slot_of v d' = None →
     (∃ loaded, l = DispatchJob loaded) ∧
     head (d_updates d) = Some (Some v, benchDone)).
Proof.
  intros Hreach. pose proof (reachable_slot_covers d Hreach v) as Hinv.
  assert (0 < generators_of v d + pendingDone_of v d → is_Some (slot_of v d)) as Hocc.
  { intros Hpos. destruct (slot_of v d); [by eexists|lia]. }
  split; [destruct (slot_of v d); lia|]. split; [exact Hocc|].
  split; [|split; [|split]].
  - intros fv Hv [b Hb]. cbn [dstep view_key].
    unfold focus. rewrite Hv. simpl.
    match goal with |- context [benchCmd ?s] => set (a := s) end.
    assert (benchCmd a
            = if decide (selection (fv_tv fv) = 0) then a
              else flash flashErr "Only one benchmark allowed at a time" a) as ->.
    { unfold benchCmd, getSelectedItem. subst a. simpl. rewrite Hb.
      destruct (decide (selection (fv_tv fv) = 0)) as [Hr|Hr]; [done|].
      case_decide as Hsel; [|done]. by apply fwFQN_nonempty in Hsel. }
    eexists. split; [done|].
    split; [apply commit_same_view with fv; [done|]; subst a; destruct fv;
            by case_decide|].
    unfold commit. simpl. subst a.
    case_decide; simpl; rewrite ?app_nil_r; done.
  - intros i Hg.
    destruct Hocc as [b Hb].
    { pose proof (count_lookup (owned_by v is_generator) _ _ _ Hg) as Hc.
      unfold generators_of. rewrite owned_by_pair in Hc.
      rewrite bool_decide_eq_true_2 in Hc by done. specialize (Hc eq_refl). lia. }
    destruct (slot_of_view _ _ _ Hb) as (fv & Hv & _ & Hf).
    cbn [dstep]. rewrite Hg. simpl. rewrite Hf. simpl.
    eexists. split; [done|].
    split; [unfold commit; simpl; by rewrite app_nil_r|].
    split; [done|].
    apply commit_same_view with fv; [done|]. by destruct fv.
  - intros loaded Hhd.
    destruct (d_updates d) as [|[o j] q] eqn:Hq; [done|]. simpl in Hhd.
    injection Hhd as -> ->.
    destruct Hocc as [b Hb].
    { unfold pendingDone_of. rewrite Hq. cbn [count]. rewrite owned_by_pair.
      rewrite bool_decide_eq_true_2 by done. simpl. lia. }
    destruct (slot_of_view _ _ _ Hb) as (fv & Hv & Hfb & Hf).
    cbn [dstep]. rewrite Hq, Hf. simpl. rewrite Hfb. simpl.
    eexists. split; [done|]. split.
    + rewrite slot_of_commit by (intros u [= <-]; by eexists).
      rewrite bool_decide_eq_true_2 by done. by destruct (canceled b).
    + unfold commit. simpl. destruct (canceled b); simpl; by rewrite app_nil_r.
  - intros l d'. apply dstep_clears_slot.
Qed.

End Desks.


(** ** Running again after a cancellation *)

Section RunAgain.
Context {E : Extern}.

Lemma benchStopCmd_slot a b :
  v_bench a = Some b →
  v_bench (benchStopCmd a) = Some (cancel b) ∧
  tv (benchStopCmd a) = tv a ∧ goroutines (benchStopCmd a) = goroutines a.
Proof. intros Hb. unfold benchStopCmd. rewrite Hb. done. Qed.

Lemma benchCmd_free a :
  v_bench a = None → getSelectedItem a ≠ "" →
  let '(nb, err) := newBenchmark (trimCell (tv a) (selection (tv a)) 4)
                                 (benchCmd_config a (getSelectedItem a)) in
  v_bench (benchCmd a) = nb ∧
  match err with
  | None =>
      goroutines (benchCmd a) = goroutines a ++ [runBenchmark_running] ∧
      flashes (benchCmd a) = flashes a
  | Some err =>
      goroutines (benchCmd a) = goroutines a ∧
      flashes (benchCmd a) = flashes a ++ [(flashErr, "Bench failed " +:+ err)]
  end.
Proof.
  intros Hb Hsel. unfold benchCmd. case_decide; [done|]. rewrite Hb.
  destruct (newBenchmark _ _) as [nb [err|]]; done.
Qed.

(** C6, as the code has it.  Cancelling does not free the slot; the
    completion callback does.  Once [benchDone] has been dispatched, after
    a cancellation or after the generator finished by itself, the slot is
    empty, the status line says which of the two happened, and [benchCmd]
    on a selected row gets past the guard: the slot takes what
    [newBenchmark] returns, and a generator is started when it returns no
    error and "Bench failed" is reported otherwise. *)
Theorem run_after_completion (a : appView) (b : benchmark) (cancelFirst : bool)
    (loaded : string → config.Benchmarks + string) :
  v_bench a = Some b →
  ∃ a1,
    run_job loaded benchDone (if cancelFirst then benchStopCmd a else a) = Some a1 ∧
    v_bench a1 = None ∧
    status a1 = Some (flashInfo,
                      if cancelFirst || canceled b
                      then "Benchmark canceled" else "Benchmark Completed!") ∧
    getSelectedItem a1 = getSelectedItem a ∧
    (getSelectedItem a1 ≠ "" →
       let '(nb, err) := newBenchmark (trimCell (tv a1) (selection (tv a1)) 4)
                                      (benchCmd_config a1 (getSelectedItem a1)) in
       v_bench (benchCmd a1) = nb ∧
       match err with
       | None =>
           goroutines (benchCmd a1) = goroutines a1 ++ [runBenchmark_running] ∧
           flashes (benchCmd a1) = flashes a1
       | Some err =>
           goroutines (benchCmd a1) = goroutines a1 ∧
           flashes (benchCmd a1) = flashes a1 ++ [(flashErr, "Bench failed " +:+ err)]
       end).
Proof.
  intros Hb.
  assert (∃ a1, run_job loaded benchDone (if cancelFirst then benchStopCmd a else a) = Some a1
            ∧ v_bench a1 = None
            ∧ status a1 = Some (flashInfo,
                                if cancelFirst || canceled b
                                then "Benchmark canceled" else "Benchmark Completed!")
            ∧ tv a1 = tv a) as (a1 & Hrun & Hnone & Hst & Htv).
  { destruct cancelFirst; simpl.
    - unfold benchStopCmd. rewrite Hb. simpl. eexists. split; [done|]. done.
    - rewrite Hb. simpl. destruct (canceled b); eexists; (split; [done|]); done. }
  exists a1. split; [done|]. split; [done|]. split; [done|].
  split; [unfold getSelectedItem; by rewrite Htv|].
  intros Hsel. by apply benchCmd_free.
Qed.

End RunAgain.

(** ** Deleting a forward *)

Section DeleteForward.
Context {E : Extern}.

Lemma hydrate_row_is_Some a f :
  pf_ports f ≠ [] → is_Some (hydrate_row a f).
Proof.
  intros Hp. unfold hydrate_row.
  destruct (loadConfig _ _ _ _) as [[c n] cfg].
  destruct (pf_ports f) as [|p0 ps]; [done|]. simpl.
  destruct (namespaced _). by eexists.
Qed.

Lemma hydrate_row_shape a f ev :
  hydrate_row a f = Some ev →
  resource.action ev = resource.New ∧ resource.Deltas ev = resource.Fields ev.
Proof.
  unfold hydrate_row.
  destruct (loadConfig _ _ _ _) as [[c n] cfg].
  destruct (pf_ports f) as [|p0 ps]; [done|]. simpl.
  destruct (namespaced _). by intros [= <-].
Qed.

Lemma hydrate_loop_is_Some a order data :
  (∀ fq pf, (fq, pf) ∈ order → ∃ f, heap a !! pf = Some f ∧ pf_ports f ≠ []) →
  is_Some (hydrate_loop a order data).
Proof.
  revert data. induction order as [|[fq pf] order IH]; intros data Hok; simpl.
  - by eexists.
  - destruct (Hok fq pf) as (f & -> & Hp); [left|]. simpl.
    destruct (hydrate_row_is_Some a f Hp) as [ev ->]. simpl.
    apply IH. intros fq' pf' Hin. apply (Hok fq' pf'). by right.
Qed.

Lemma hydrate_in_is_Some a order :
  registry_ok a → order ≡ₚ map_to_list (forwarders a) →
  is_Some (hydrate_in a order).
Proof.
  intros Hok Hperm. apply hydrate_loop_is_Some.
  intros fq pf Hin. rewrite Hperm in Hin.
  apply elem_of_map_to_list in Hin. eauto.
Qed.

Lemma registry_ok_delete a sel fw :
  registry_ok a →
  registry_ok (set_forwarders (delete sel) (set_heap (alter Stop fw) a)).
Proof.
  intros Hok fq pf. simpl. intros Hfq.
  apply lookup_delete_Some in Hfq as [_ Hfq].
  destruct (Hok fq pf Hfq) as (f & Hf & Hp).
  destruct (decide (fw = pf)) as [->|Hne].
  - exists (Stop f). rewrite lookup_alter_eq, Hf. done.
  - exists f. rewrite lookup_alter_ne by done. done.
Qed.

Lemma sessions_ok_registry a :
  sessions_ok (heap a) (forwarders a) → registry_ok a.
Proof.
  intros [Hports Hreg] fq pf Hfq.
  destruct (Hreg fq pf Hfq) as [f Hf]. eauto.
Qed.

Lemma sessions_ok_alter h (m : gmap string loc) g pf :
  (∀ f, pf_ports (g f) = pf_ports f) →
  sessions_ok h m → sessions_ok (alter g pf h) m.
Proof.
  intros Hg [Hports Hreg]. split.
  - intros pf' f' Hf'. destruct (decide (pf = pf')) as [->|Hne].
    + rewrite lookup_alter_eq in Hf'.
      destruct (h !! pf') as [f|] eqn:Hf; simplify_eq/=.
      rewrite Hg. eauto.
    + rewrite lookup_alter_ne in Hf' by done. eauto.
  - intros fq pf' Hfq. destruct (Hreg fq pf' Hfq) as [f Hf].
    destruct (decide (pf = pf')) as [->|Hne].
    + rewrite lookup_alter_eq, Hf. by eexists.
    + rewrite lookup_alter_ne by done. by eexists.
Qed.

Lemma sessions_ok_delete h (m : gmap string loc) k :
  sessions_ok h m → sessions_ok h (delete k m).
Proof.
  intros [Hports Hreg]. split; [done|].
  intros fq pf [_ Hfq]%lookup_delete_Some. eauto.
Qed.

Lemma sessions_ok_register h (m : gmap string loc) k pf f :
  h !! pf = Some f → sessions_ok h m → sessions_ok h (<[k := pf]> m).
Proof.
  intros Hf [Hports Hreg]. split; [done|].
  intros fq pf' [[_ <-]|[_ Hfq]]%lookup_insert_Some; eauto.
Qed.

Lemma sessions_ok_alloc h (m : gmap string loc) pf f :
  h !! pf = None → pf_ports f ≠ [] →
  sessions_ok h m → sessions_ok (<[pf := f]> h) m.
Proof.
  intros Hnew Hf [Hports Hreg]. split.
  - intros pf' f' [[_ <-]|[_ Hf']]%lookup_insert_Some; eauto.
  - intros fq pf' Hfq. destruct (Hreg fq pf' Hfq) as [f' Hf'].
    exists f'. rewrite lookup_insert_ne; [done|]. intros ->. congruence.
Qed.

Lemma deleteOk_sessions_ok sel a a' :
  deleteOk sel a = Some a' →
  sessions_ok (heap a) (forwarders a) → sessions_ok (heap a') (forwarders a').
Proof.
  unfold deleteOk. destruct (forwarders a !! sel) as [fw|]; intros Hd Hok;
    simplify_option_eq; [|done].
  apply sessions_ok_delete. by apply sessions_ok_alter.
Qed.

(** Every step keeps the sessions well formed, so that [registry_ok]
    holds in every state the application reaches from one where it
    holds. *)
Lemma step_sessions_ok l a a' :
  step l a = Some a' →
  sessions_ok (heap a) (forwarders a) → sessions_ok (heap a') (forwarders a').
Proof.
  intros Hs Hok.
  destruct l as [loaded|i e|k]; simpl in Hs.
  - destruct (updates a) as [|j q]; [done|].
    destruct j as [pf|pf| | |]; simpl in Hs.
    + destruct (heap a !! pf) as [f|] eqn:Hf; [|done]. simpl in Hs.
      destruct (pf_ports f !! 0) as [p0|]; [|done]. simpl in Hs.
      injection Hs as <-. simpl. by eapply sessions_ok_register.
    + destruct (heap a !! pf) as [f|] eqn:Hf; [|done]. simpl in Hs.
      injection Hs as <-. simpl.
      apply sessions_ok_alter; [done|]. by apply sessions_ok_delete.
    + destruct (v_bench a) as [b|]; [|done]. simpl in Hs.
      injection Hs as <-. by destruct (canceled b).
    + by injection Hs as <-.
    + apply reload_frame in Hs as (_ & _ & _ & -> & ->). done.
  - destruct (goroutines a !! i) as [g|]; [|done]. simpl in Hs.
    destruct (go_step a g e) as [[effs g']|] eqn:Hgo; [|done]. simpl in Hs.
    injection Hs as <-.
    destruct g, e as [|[?|]| | | | |]; simpl in Hgo; try done;
      try case_decide; simplify_eq/=; try done.
    by apply sessions_ok_alter.
  - destruct k; simpl in Hs; simplify_eq/=; try done.
    + destruct startErr; simpl; [done|].
      apply sessions_ok_alloc; [|done..].
      apply not_elem_of_dom. apply is_fresh.
    + unfold benchCmd. case_decide; [done|].
      destruct (v_bench a); simpl; [done|].
      by destruct (newBenchmark _ _) as [nb [err|]].
    + unfold benchStopCmd. by destruct (v_bench a).
    + unfold deleteCmd. by repeat case_decide.
    + unfold modalDone in Hs. destruct (modal a); [|by simplify_eq].
      case_decide; simplify_option_eq; [|done].
      by eapply deleteOk_sessions_ok.
    + unfold init_watch, watchK9sDir. by destruct newErr, addErr.
Qed.

(** C7.  The confirmed deletion.  For a name that is not registered it
    only logs: it returns normally with the registry, the sessions and
    the flash line untouched.  For a registered name it stops the session
    and takes the entry out of the registry, leaving the other sessions
    alone; it returns normally whenever the remaining registered sessions
    can be drawn ([registry_ok]). *)
Theorem stop_forward (a : appView) (sel : string) :
  (forwarders a !! sel = None →
     ∃ a', deleteOk sel a = Some a' ∧
       forwarders a' = forwarders a ∧ heap a' = heap a ∧
       flashes a' = flashes a ∧
       logs a' = logs a ++ ["Unable to find forwarder " +:+ sel]) ∧
  (∀ fw, forwarders a !! sel = Some fw →
     (∀ a', deleteOk sel a = Some a' →
        forwarders a' = delete sel (forwarders a) ∧
        forwarders a' !! sel = None ∧
        heap a' !! fw = Stop <$> heap a !! fw ∧
        (∀ pf, pf ≠ fw → heap a' !! pf = heap a !! pf) ∧
        flashes a' = flashes a ++ [(flashInfo, "PortForward " +:+ sel +:+ " deleted!")]) ∧
     (registry_ok a → is_Some (deleteOk sel a))).
Proof.
  split.
  - intros Hsel. unfold deleteOk. rewrite Hsel. eexists. split; [done|]. done.
  - intros fw Hsel. split.
    + intros a'. unfold deleteOk. rewrite Hsel. intros Hd. simplify_option_eq.
      split; [done|]. split; [apply lookup_delete_eq|].
      split; [apply lookup_alter_eq|].
      split; [|done]. intros pf Hne. by apply lookup_alter_ne.
    + intros Hok. unfold deleteOk. rewrite Hsel.
      assert (registry_ok (log "PortForwards after delete"
                (set_forwarders (delete sel) (set_heap (alter Stop fw) a)))) as Hok'
        by exact (registry_ok_delete a sel fw Hok).
      destruct (hydrate_in_is_Some _ (map_to_list (delete sel (forwarders a))) Hok')
        as [data Hdata]; [done|].
      unfold hydrate. simpl. rewrite Hdata. simpl. by eexists.
Qed.

End DeleteForward.

(** ** The forwards table *)

Section Hydrate.
Context {E : Extern}.

Lemma elem_of_paths_of h (m : gmap string loc) k :
  k ∈ paths_of h m ↔
  ∃ fq pf f, m !! fq = Some pf ∧ h !! pf = Some f ∧ pf_path f = k.
Proof.
  unfold paths_of. rewrite elem_of_list_to_set, list_elem_of_omap. split.
  - intros ([fq pf] & Hin & Hp). apply elem_of_map_to_list in Hin.
    unfold entry_path in Hp. simpl in Hp.
    destruct (h !! pf) as [f|] eqn:Hf; simplify_eq/=. eauto 10.
  - intros (fq & pf & f & Hm & Hf & <-). exists (fq, pf).
    split; [by apply elem_of_map_to_list|].
    unfold entry_path. simpl. by rewrite Hf.
Qed.

Lemma size_list_to_set_le (l : list string) :
  size (list_to_set l : gset string) ≤ length l.
Proof.
  induction l as [|x l IH].
  - rewrite list_to_set_nil, size_empty. done.
  - rewrite list_to_set_cons, size_union_alt, size_singleton. simpl.
    assert (size ((list_to_set l : gset string) ∖ {[x]}) ≤ size (list_to_set l : gset string))
      as Hle by (apply subseteq_size; intros y [Hy _]%elem_of_difference; exact Hy).
    lia.
Qed.

Lemma length_omap_le {A B} (f : A → option B) (l : list A) :
  length (omap f l) ≤ length l.
Proof.
  induction l as [|x l IH]; simpl; [done|].
  unfold omap in IH |- *. simpl. destruct (f x); simpl; lia.
Qed.

Lemma size_paths_of h (m : gmap string loc) : size (paths_of h m) ≤ size m.
Proof.
  unfold paths_of.
  etransitivity; [apply size_list_to_set_le|].
  etransitivity; [apply length_omap_le|].
  by rewrite length_map_to_list.
Qed.

(** Two entries with the same path count once. *)
Lemma size_paths_of_shared h (m : gmap string loc) fq1 fq2 pf1 pf2 f1 f2 :
  fq1 ≠ fq2 →
  m !! fq1 = Some pf1 → m !! fq2 = Some pf2 →
  h !! pf1 = Some f1 → h !! pf2 = Some f2 →
  pf_path f1 = pf_path f2 →
  size (paths_of h m) < size m.
Proof.
  intros Hne H1 H2 Hf1 Hf2 Hpath.
  assert (paths_of h m = paths_of h (delete fq2 m)) as ->.
  { apply set_eq. intros k. rewrite !elem_of_paths_of. split.
    - intros (fq & pf & f & Hm & Hf & Hk).
      destruct (decide (fq = fq2)) as [->|Hfq].
      + simplify_eq. exists fq1, pf1, f1.
        rewrite lookup_delete_ne by done. done.
      + exists fq, pf, f. rewrite lookup_delete_ne by done. done.
    - intros (fq & pf & f & Hm & Hf & Hk).
      apply lookup_delete_Some in Hm as [_ Hm]. eauto 10. }
  pose proof (size_paths_of h (delete fq2 m)) as Hle.
  rewrite map_size_delete_Some in Hle by eauto.
  assert (size m ≠ 0); [|lia].
  intros Hz. apply map_size_empty_inv in Hz. by rewrite Hz in H1.
Qed.

(** What the loop of [hydrate] leaves in the table. *)
Lemma hydrate_loop_rows a order data data' :
  hydrate_loop a order data = Some data' →
  resource.Header data' = resource.Header data ∧
  resource.NumCols data' = resource.NumCols data ∧
  resource.Namespace data' = resource.Namespace data ∧
  dom (resource.Rows data')
    = dom (resource.Rows data) ∪ list_to_set (omap (entry_path (heap a)) order) ∧
  (∀ k ev, resource.Rows data' !! k = Some ev →
     resource.Rows data !! k = Some ev ∨
     ∃ fq pf f, (fq, pf) ∈ order ∧ heap a !! pf = Some f ∧
                pf_path f = k ∧ hydrate_row a f = Some ev).
Proof.
  revert data. induction order as [|[fq pf] order IH]; intros data; simpl.
  - intros [= <-]. repeat split; [set_solver|]. eauto.
  - destruct (heap a !! pf) as [f|] eqn:Hf; [|done]. simpl.
    destruct (hydrate_row a f) as [ev0|] eqn:Hrow; [|done]. simpl.
    intros Hloop. apply IH in Hloop as (-> & -> & -> & Hdom & Hrows). simpl.
    repeat split.
    + rewrite Hdom. simpl. rewrite dom_insert_L.
      unfold entry_path at 2. simpl. rewrite Hf. simpl. set_solver.
    + intros k ev Hk. destruct (Hrows k ev Hk) as [Hin|Hin].
      * simpl in Hin. apply lookup_insert_Some in Hin as [[<- <-]|[_ Hin]].
        -- right. exists fq, pf, f. repeat split; [left|..]; done.
        -- by left.
      * right. destruct Hin as (fq' & pf' & f' & Hin & Hrest).
        exists fq', pf', f'. split; [by right|done].
Qed.

(** C10.  [hydrate], whatever order the registry is walked in, files each
    row under the session's path alone: the keys of the table are exactly
    the paths of the registered sessions; every row is that of some session
    with this path, carries action [New] and has its deltas equal to its
    fields.  Hence two sessions on different containers of one pod share a
    single row, and the table has fewer rows than the registry has
    sessions.  The table is produced whenever every registered session has
    a port to show. *)
Theorem hydrate_keyed_by_path (a : appView) (order : list (string * loc)) :
  order ≡ₚ map_to_list (forwarders a) →
  (registry_ok a → is_Some (hydrate_in a order)) ∧
  (∀ data, hydrate_in a order = Some data →
     dom (resource.Rows data) = registered_paths a ∧
     (∀ k ev, resource.Rows data !! k = Some ev →
        resource.action ev = resource.New ∧
        resource.Deltas ev = resource.Fields ev ∧
        ∃ fq pf f, forwarders a !! fq = Some pf ∧ heap a !! pf = Some f ∧
                   pf_path f = k ∧ hydrate_row a f = Some ev) ∧
     (∀ fq1 fq2 pf1 pf2 f1 f2,
        forwarders a !! fq1 = Some pf1 → forwarders a !! fq2 = Some pf2 →
        heap a !! pf1 = Some f1 → heap a !! pf2 = Some f2 →
        pf_path f1 = pf_path f2 → pf_container f1 ≠ pf_container f2 →
        fq1 ≠ fq2 ∧
        is_Some (resource.Rows data !! pf_path f1) ∧
        size (resource.Rows data) < size (forwarders a))).
Proof.
  intros Hperm. split; [intros Hok; by apply hydrate_in_is_Some|].
  intros data Hdata.
  unfold hydrate_in in Hdata.
  apply hydrate_loop_rows in Hdata as (_ & _ & _ & Hdom & Hrows). simpl in *.
  assert (dom (resource.Rows data) = registered_paths a) as Hkeys.
  { rewrite Hdom, dom_empty_L, (left_id_L ∅ (∪)).
    unfold registered_paths, paths_of. by rewrite Hperm. }
  split; [done|]. split.
  - intros k ev Hk. destruct (Hrows k ev Hk) as [Hin|(fq & pf & f & Hin & Hf & <- & Hrow)].
    { by rewrite lookup_empty in Hin. }
    destruct (hydrate_row_shape _ _ _ Hrow) as [Hact Hdel].
    split; [done|]. split; [done|].
    rewrite Hperm in Hin. apply elem_of_map_to_list in Hin. eauto 10.
  - intros fq1 fq2 pf1 pf2 f1 f2 H1 H2 Hf1 Hf2 Hpath Hco.
    assert (fq1 ≠ fq2) as Hne by (intros ->; congruence).
    split; [done|]. split.
    + apply elem_of_dom. rewrite Hkeys.
      apply elem_of_paths_of. eauto 10.
    + rewrite <- size_dom, Hkeys.
      by apply (size_paths_of_shared _ _ fq1 fq2 pf1 pf2 f1 f2).
Qed.

End Hydrate.

(** ** The life of a forward *)

Section Forward.
Context {E : Extern}.

Lemma fresh_loc_unused (h : gmap loc PortForward) pf f :
  h !! pf = Some f → fresh (dom h) ≠ pf.
Proof.
  intros Hf Heq. apply (is_fresh (dom h)). rewrite Heq. apply elem_of_dom. eauto.
Qed.

Lemma deleteOk_active sel a a' pf :
  deleteOk sel a = Some a' →
  pf_active <$> heap a' !! pf = pf_active <$> heap a !! pf.
Proof.
  unfold deleteOk. destruct (forwarders a !! sel) as [fw|]; intros Hd;
    simplify_option_eq; [|done].
  destruct (decide (fw = pf)) as [->|Hne].
  - rewrite lookup_alter_eq. by destruct (heap a !! pf).
  - by rewrite lookup_alter_ne.
Qed.

Lemma modalDone_active button a a' pf :
  modalDone button a = Some a' →
  pf_active <$> heap a' !! pf = pf_active <$> heap a !! pf.
Proof.
  unfold modalDone. destruct (modal a); [|by intros [= <-]].
  case_decide; intros Hm; simplify_option_eq; [|done].
  match goal with Hd : deleteOk _ _ = Some _ |- _ =>
    apply (deleteOk_active _ _ _ pf) in Hd end.
  done.
Qed.

(** A step that does not touch the flag of [pf] cannot raise it. *)
Lemma active_kept (h h' : gmap loc PortForward) pf f f' :
  pf_active <$> h' !! pf = pf_active <$> h !! pf →
  h !! pf = Some f → h' !! pf = Some f' →
  pf_active f = false → pf_active f' = true → False.
Proof. intros Heq Hf Hf'. rewrite Hf, Hf' in Heq. simpl in Heq. congruence. Qed.

(** The only step that raises the flag of a session. *)
Lemma step_raises_active a a' l pf f f' :
  step l a = Some a' →
  heap a !! pf = Some f → heap a' !! pf = Some f' →
  pf_active f = false → pf_active f' = true →
  ∃ i, l = Go i Scheduled ∧
       goroutines a !! i = Some (runForward_queued pf) ∧
       goroutines a' !! i = Some (runForward_blocked pf).
Proof.
  intros Hs Hf Hf' Hoff Hon.
  destruct l as [loaded|i e|k]; simpl in Hs.
  - exfalso. destruct (updates a) as [|j q]; [done|].
    destruct j as [pf0|pf0| | |]; simpl in Hs.
    + simplify_option_eq. congruence.
    + destruct (heap a !! pf0) as [f0|] eqn:Hf0; [|done]. simpl in Hs.
      injection Hs as <-. simpl in Hf'.
      destruct (decide (pf0 = pf)) as [->|Hne].
      * rewrite lookup_alter_eq, Hf in Hf'. simpl in Hf'. by simplify_eq.
      * rewrite lookup_alter_ne in Hf' by done. congruence.
    + destruct (v_bench a) as [b|]; [|done]. simpl in Hs.
      injection Hs as <-. destruct (canceled b); simpl in Hf'; congruence.
    + simplify_option_eq. congruence.
    + apply reload_frame in Hs as (_ & _ & _ & _ & Hh). simpl in Hh. congruence.
  - destruct (goroutines a !! i) as [g|] eqn:Hg; [|done]. simpl in Hs.
    destruct (go_step a g e) as [[effs g']|] eqn:Hgo; [|done]. simpl in Hs.
    injection Hs as <-.
    destruct g as [pf0|pf0|pf0| | | |file], e as [|[err|]| | |name|err|];
      simpl in Hgo; try done; try case_decide; simplify_eq/=; try congruence.
    destruct (decide (pf0 = pf)) as [->|Hne].
    + exists i. split; [done|]. split; [done|].
      apply list_lookup_insert_eq. by eapply lookup_lt_Some.
    + rewrite lookup_alter_ne in Hf' by done. congruence.
  - exfalso. destruct k; simpl in Hs; simplify_eq/=; try congruence.
    + destruct startErr; simpl in Hf'; [congruence|].
      rewrite lookup_insert_ne in Hf' by eauto using fresh_loc_unused. congruence.
    + unfold benchCmd in Hf'. case_decide; [congruence|].
      destruct (v_bench a); simpl in Hf'; [congruence|].
      destruct (newBenchmark _ _) as [nb [err|]]; simpl in Hf'; congruence.
    + unfold benchStopCmd in Hf'. destruct (v_bench a); simpl in Hf'; congruence.
    + unfold deleteCmd in Hf'. repeat case_decide; simpl in Hf'; congruence.
    + eapply active_kept; [by eapply modalDone_active|done..].
    + unfold init_watch, watchK9sDir in Hf'.
      destruct newErr, addErr; simpl in Hf'; congruence.
Qed.

(** C2, as the code has it.  When [portForward] returns after a
    successful [Start], the session exists, inactive, and its goroutine has
    been launched, but the registry and the queue are as before.  The
    goroutine's first step queues the registration and nothing else; the
    registry gets the entry when the UI goroutine runs that job. *)
Theorem registration_is_queued (a : appView) (path co lport cport age : string) :
  let a1 := portForward path co lport cport age None a in
  let pf := fresh (dom (heap a)) in
  let f := mkPortForward path co [lport +:+ ":" +:+ cport] age false false in
  let i := length (goroutines a) in
  forwarders a1 = forwarders a ∧ updates a1 = updates a ∧
  heap a1 = <[pf := f]> (heap a) ∧ heap a !! pf = None ∧
  goroutines a1 = goroutines a ++ [runForward_start pf] ∧
  (∃ a2, step (Go i Scheduled) a1 = Some a2 ∧
         forwarders a2 = forwarders a ∧ heap a2 = heap a1 ∧
         updates a2 = updates a ++ [registerForward pf] ∧
         goroutines a2 = goroutines a ++ [runForward_queued pf]) ∧
  (∀ loaded a3 f3,
     heap a3 !! pf = Some f3 → FQN f3 = FQN f → pf_ports f3 = pf_ports f →
     ∃ a4, run_job loaded (registerForward pf) a3 = Some a4 ∧
           forwarders a4 = <[fwFQN path co := pf]> (forwarders a3) ∧
           heap a4 = heap a3).
Proof.
  intros a1 pf f i. subst a1. simpl.
  split; [done|]. split; [done|]. split; [done|].
  split. { apply not_elem_of_dom. apply is_fresh. }
  split; [done|]. split.
  - subst i. rewrite lookup_app_r by done.
    rewrite Nat.sub_diag. simpl. eexists. split; [done|]. simpl.
    split; [done|]. split; [done|]. split; [done|].
    rewrite insert_app_r_alt by done. by rewrite Nat.sub_diag.
  - intros loaded a3 f3 Hf3 Hfq Hports. rewrite Hf3. simpl.
    rewrite Hports. simpl. eexists. split; [done|]. simpl.
    rewrite Hfq. done.
Qed.

(** C9.  Where a goroutine writes shared state in place instead of
    queueing a job.  A goroutine step has an effect that is not
    [marshalled] in exactly two situations, both in [runForward]:
    [pf.SetActive(true)] on line 209 and [v.app.flash().err(err)] on line
    211; all other goroutine steps only queue jobs or log. *)
Theorem goroutine_direct_writes (a : appView) (pf : loc) (err : string) :
  go_step a (runForward_queued pf) Scheduled
    = Some ([WriteActive pf true], Some (runForward_blocked pf)) ∧
  marshalled (WriteActive pf true) = false ∧
  go_step a (runForward_blocked pf) (Returned (Some err))
    = Some ([WriteFlash flashErr err], None) ∧
  marshalled (WriteFlash flashErr err) = false ∧
  go_step a (runForward_blocked pf) (Returned None)
    = Some ([Enqueue (unregisterForward pf)], None) ∧
  (∀ g e effs g',
     go_step a g e = Some (effs, g') → forallb marshalled effs = false →
     (∃ pf', g = runForward_queued pf' ∧ e = Scheduled) ∨
     (∃ pf' err', g = runForward_blocked pf' ∧ e = Returned (Some err'))).
Proof.
  repeat split.
  intros g e effs g' Hgo Hm.
  destruct g, e as [|[?|]| | | | |]; simpl in Hgo; try done;
    try case_decide; simplify_eq/=; eauto.
Qed.

(** C8, as the code has it.  The watcher computes the expected file name
    once, from the cluster selected when its goroutine starts, and keeps it
    for the whole loop.  On every file-system event it queues the reload
    job on the dispatcher exactly when that captured name is empty or
    equals the event's path, whatever cluster is selected by then, and it
    writes nothing in place.  The reload job, when it runs, computes the
    path anew from the cluster selected at that time: it logs that path,
    reads that file and no other, keeps the old configuration and flashes
    the error when the file cannot be loaded, and it returns whenever the
    registered sessions can be drawn. *)
Theorem watcher_uses_captured_name (a0 a : appView) (file name : string) :
  go_step a0 updateBenchConfig_start Scheduled
    = Some ([], Some (updateBenchConfig_loop (benchConfig (CurrentCluster a0)))) ∧
  (∃ effs,
    go_step a (updateBenchConfig_loop file) (FsEvent name)
      = Some (effs, Some (updateBenchConfig_loop file)) ∧
    (Enqueue reloadJob ∈ effs ↔ file = "" ∨ name = file) ∧
    forallb marshalled effs = true) ∧
  (∀ (loaded loaded' : string → config.Benchmarks + string) (a1 : appView),
    let path := benchConfig (CurrentCluster a1) in
    (∀ a2, run_job loaded reloadJob a1 = Some a2 →
       logs a2 = logs a1 ++ ["Reloading config " +:+ path] ∧
       CurrentCluster a2 = CurrentCluster a1 ∧
       match loaded path with
       | inl b => bench a2 = b ∧ flashes a2 = flashes a1
       | inr err => bench a2 = bench a1 ∧ flashes a2 = flashes a1 ++ [(flashErr, err)]
       end) ∧
    (loaded' path = loaded path →
       run_job loaded' reloadJob a1 = run_job loaded reloadJob a1) ∧
    (registry_ok a1 → is_Some (run_job loaded reloadJob a1))).
Proof.
  split; [done|]. split.
  { simpl. case_decide as Hm; eexists; (split; [done|]); split; try done.
    - split; [done|]. intros _. set_solver.
    - split; [|done]. intros Hin. by apply elem_of_nil in Hin. }
  intros loaded loaded' a1 path. subst path. simpl. unfold reload, Reload.
  split; [|split].
  - intros a2.
    destruct (loaded _) as [b|err]; unfold refresh; intros Hr;
      simplify_option_eq; done.
  - by intros ->.
  - intros Hok.
    destruct (loaded _) as [b|err]; unfold refresh, hydrate;
      match goal with
      | |- is_Some (hydrate_in ?s (map_to_list ?m) ≫= _) =>
          destruct (hydrate_in_is_Some s (map_to_list m)) as [data ->];
            [exact Hok|done|by eexists]
      end.
Qed.

End Forward.

(** ** Worked runs *)

(** C2, as stated, fails on the code: right after a successful start the
    goroutine has been launched and the registry has no entry for the new
    session. *)
Lemma start_then_list_misses_entry :
  step (E:=sampleExtern) startForward app0 = Some app_started ∧
  goroutines app_started = [runForward_start 0] ∧
  pf_active <$> heap app_started !! 0 = Some false ∧
  map_to_list (forwarders app_started) = [] ∧
  forwarders app_started !! fwFQN "ns/pod" "app" = None.
Proof. split; [reflexivity|]. vm_compute. done. Qed.

(** C3, as stated, fails on the code: the flag is up when the goroutine
    only enters the transport call, and it is still up after that call has
    returned an error, the only transport outcome of the run. *)
Lemma active_without_establishment :
  ∃ a2 a3,
    run (E:=sampleExtern) [startForward; Go 0 Scheduled; Go 0 Scheduled] app0 = Some a2 ∧
    goroutines a2 = [runForward_blocked 0] ∧
    pf_active <$> heap a2 !! 0 = Some true ∧
    step (E:=sampleExtern) (Go 0 (Returned (Some "lost connection"))) a2 = Some a3 ∧
    pf_active <$> heap a3 !! 0 = Some true.
Proof. do 2 eexists. vm_compute. done. Qed.

(** C4.  A forward whose transport call fails: the error is flashed once,
    the goroutine ends, nothing is queued, and the registry still holds
    the session, flagged active. *)
Theorem failed_forward_stays_registered :
  ∃ a,
    run (E:=sampleExtern)
      [startForward; Go 0 Scheduled; Dispatch noFile; Go 0 Scheduled;
       Go 0 (Returned (Some "lost connection"))] app0 = Some a ∧
    forwarders a !! fwFQN "ns/pod" "app" = Some 0 ∧
    pf_active <$> heap a !! 0 = Some true ∧
    goroutines a = [] ∧ updates a = [] ∧
    flashes a = [(flashInfo, "PortForward activated ns/pod:8080:80");
                 (flashErr, "lost connection")].
Proof. eexists. vm_compute. done. Qed.

(** C5, as stated, fails on the code: a benchmark is running on one
    forward view; a second forward view is built, and [benchCmd] on it is
    not refused: nothing is flashed, its own slot is filled and a second
    load generator runs beside the first. *)
Lemma two_views_two_generators :
  ∃ d1 d2,
    drun (E:=sampleExtern)
      [NewView sampleTable; ViewKey 0 BenchCmd; NewView sampleTable] desk0 = Some d1 ∧
    d_goroutines d1 = [(Some 0, runBenchmark_running)] ∧
    is_Some (slot_of 0 d1) ∧
    dstep (E:=sampleExtern) (ViewKey 1 BenchCmd) d1 = Some d2 ∧
    flashes (d_app d2) = [] ∧
    d_goroutines d2 = [(Some 0, runBenchmark_running); (Some 1, runBenchmark_running)] ∧
    is_Some (slot_of 0 d2) ∧ is_Some (slot_of 1 d2).
Proof.
  do 2 eexists. split; [vm_compute; reflexivity|].
  split; [reflexivity|]. split; [vm_compute; by eexists|].
  split; [vm_compute; reflexivity|].
  split; [reflexivity|]. split; [reflexivity|].
  split; vm_compute; by eexists.
Qed.

(** C6, as stated, fails on the code: a benchmark is running, the
    operator cancels it and asks for a new one at once; the guard still
    rejects the request and no generator is started. *)
Lemma run_right_after_cancel_rejected :
  (∃ b, v_bench app_running = Some b ∧ canceled b = false) ∧
  (∃ b, v_bench app_canceled = Some b ∧ canceled b = true) ∧
  getSelectedItem app_canceled ≠ "" ∧
  v_bench (benchCmd (E:=sampleExtern) app_canceled) = v_bench app_canceled ∧
  goroutines (benchCmd (E:=sampleExtern) app_canceled) = goroutines app_canceled ∧
  flashes (benchCmd (E:=sampleExtern) app_canceled)
    = flashes app_canceled ++ [(flashErr, "Only one benchmark allowed at a time")].
Proof.
  split; [eexists; vm_compute; done|].
  split; [eexists; vm_compute; done|].
  split; [by vm_compute|]. vm_compute. done.
Qed.

(** C8, as stated, fails on the code: the watcher started on cluster
    [c0]; after cluster [c1] got selected, an event on the file of [c1],
    the expected name recomputed at that time, queues nothing, while an
    event on the file of [c0] queues the reload. *)
Lemma watcher_keeps_first_cluster :
  ∃ a,
    run (E:=sampleExtern) [Key (WatchDir None None); Go 0 Scheduled; Key (UseCluster "c1")] app0
      = Some a ∧
    CurrentCluster a = "c1" ∧
    benchConfig (E:=sampleExtern) (CurrentCluster a) = "/home/op/.k9s/bench-c1.yml" ∧
    (∃ a', step (E:=sampleExtern) (Go 0 (FsEvent "/home/op/.k9s/bench-c1.yml")) a = Some a' ∧
           updates a' = []) ∧
    (∃ a', step (E:=sampleExtern) (Go 0 (FsEvent "/home/op/.k9s/bench-c0.yml")) a = Some a' ∧
           updates a' = [reloadJob]).
Proof.
  eexists. split; [vm_compute; reflexivity|].
  split; [reflexivity|]. split; [reflexivity|].
  split; eexists; (split; [vm_compute; reflexivity|reflexivity]).
Qed.

(** ** The theorems at work on the sample application *)

Lemma app_two_forwards_ok : registry_ok app_two_forwards.
Proof.
  intros fq pf. unfold app_two_forwards. simpl. intros Hfq.
  apply lookup_insert_Some in Hfq as [[_ <-]|[_ Hfq]].
  - eexists. split; [reflexivity|done].
  - apply lookup_insert_Some in Hfq as [[_ <-]|[_ Hfq]].
    + eexists. split; [reflexivity|done].
    + by rewrite lookup_empty in Hfq.
Qed.

(** One forward view, a benchmark started on it: the generator is the
    only one; when it finishes its callback is queued, and the callback
    runs and empties the slot. *)
Lemma single_flight_witness :
  (∀ base cfg, newBenchmark (Extern:=sampleExtern) base cfg ≠ (None, None)) ∧
  ∃ d1 d2 d3,
    drun (E:=sampleExtern) [NewView sampleTable; ViewKey 0 BenchCmd] desk0 = Some d1 ∧
    generators_of 0 d1 ≤ 1 ∧
    d_goroutines d1 = [(Some 0, runBenchmark_running)] ∧
    dstep (E:=sampleExtern) (GoStep 0 Finished) d1 = Some d2 ∧
    d_updates d2 = [(Some 0, benchDone)] ∧
    is_Some (slot_of 0 d2) ∧
    dstep (E:=sampleExtern) (DispatchJob noFile) d2 = Some d3 ∧
    slot_of 0 d3 = None.
Proof.
  assert (∀ base cfg, newBenchmark (Extern:=sampleExtern) base cfg ≠ (None, None)) as Hctor
    by (intros base cfg; discriminate).
  split; [exact Hctor|].
  destruct (drun (E:=sampleExtern) [NewView sampleTable; ViewKey 0 BenchCmd] desk0)
    as [d1|] eqn:Hr1; [|vm_compute in Hr1; discriminate Hr1].
  assert (reachable (E:=sampleExtern) d1) as Hreach1.
  { exists desk0, [NewView sampleTable; ViewKey 0 BenchCmd].
    split; [split; [reflexivity|split; reflexivity]|exact Hr1]. }
  assert (d_goroutines d1 = [(Some 0, runBenchmark_running)]) as Hg1.
  { vm_compute in Hr1. injection Hr1 as <-. reflexivity. }
  assert (d_updates d1 = []) as Hq1.
  { vm_compute in Hr1. injection Hr1 as <-. reflexivity. }
  destruct (single_flight (E:=sampleExtern) Hctor d1 0 Hreach1)
    as (Hone & _ & _ & Hfinish & _).
  assert (d_goroutines d1 !! 0 = Some (Some 0, runBenchmark_running)) as Hat
    by (rewrite Hg1; reflexivity).
  destruct (Hfinish 0 Hat) as (d2 & Hs2 & _ & Hq2 & _).
  rewrite Hq1 in Hq2. change ([] ++ [(Some 0, benchDone)]) with [(Some 0, benchDone)] in Hq2.
  assert (reachable (E:=sampleExtern) d2) as Hreach2.
  { exists desk0, ([NewView sampleTable; ViewKey 0 BenchCmd] ++ [GoStep 0 Finished]).
    split; [split; [reflexivity|split; reflexivity]|].
    rewrite drun_snoc, Hr1. exact Hs2. }
  destruct (single_flight (E:=sampleExtern) Hctor d2 0 Hreach2)
    as (_ & Hocc & _ & _ & Hdone & _).
  assert (head (d_updates d2) = Some (Some 0, benchDone)) as Hhd
    by (rewrite Hq2; reflexivity).
  destruct (Hdone noFile Hhd) as (d3 & Hs3 & Hnone & _).
  exists d1, d2, d3. split; [reflexivity|]. split; [exact Hone|]. split; [exact Hg1|].
  split; [exact Hs2|]. split; [exact Hq2|].
  split; [|split; [exact Hs3|exact Hnone]].
  apply Hocc. unfold pendingDone_of. rewrite Hq2.
  change (count (owned_by 0 is_benchDone) [(Some 0, benchDone)]) with 1. lia.
Defined.

Lemma run_after_completion_witness :
  v_bench app_running
    = Some (mkBench (config.with_Name (fwFQN "ns/pod" "app") (defaultConfig (E:=sampleExtern)))
                    false) ∧
  ∃ a1,
    run_job (E:=sampleExtern) noFile benchDone app_canceled = Some a1 ∧
    v_bench a1 = None ∧
    status a1 = Some (flashInfo, "Benchmark canceled") ∧
    (∃ nb, v_bench (benchCmd (E:=sampleExtern) a1) = Some nb) ∧
    goroutines (benchCmd (E:=sampleExtern) a1) = goroutines a1 ++ [runBenchmark_running].
Proof.
  assert (v_bench app_running
            = Some (mkBench (config.with_Name (fwFQN "ns/pod" "app")
                               (defaultConfig (E:=sampleExtern))) false)) as Hb.
  { vm_compute. reflexivity. }
  split; [exact Hb|].
  destruct (run_after_completion (E:=sampleExtern) app_running _ true noFile Hb)
    as (a1 & Hrun & Hnone & Hst & Hsel & Hnext).
  exists a1. split; [exact Hrun|]. split; [exact Hnone|]. split; [exact Hst|].
  assert (getSelectedItem a1 ≠ "") as Hne.
  { rewrite Hsel. vm_compute. discriminate. }
  specialize (Hnext Hne). simpl in Hnext.
  destruct Hnext as (Hv & Hg & _).
  split; [eexists; exact Hv|exact Hg].
Defined.

Lemma stop_forward_witness :
  registry_ok app_two_forwards ∧
  forwarders app_two_forwards !! fwFQN "ns/pod" "app" = Some 0 ∧
  ∃ a',
    deleteOk (E:=sampleExtern) (fwFQN "ns/pod" "app") app_two_forwards = Some a' ∧
    forwarders a' !! fwFQN "ns/pod" "app" = None ∧
    pf_stopped <$> heap a' !! 0 = Some true.
Proof.
  split; [exact app_two_forwards_ok|]. split; [reflexivity|].
  destruct (stop_forward (E:=sampleExtern) app_two_forwards (fwFQN "ns/pod" "app"))
    as (_ & Hpresent).
  destruct (Hpresent 0 eq_refl) as (Hpost & Htotal).
  destruct (Htotal app_two_forwards_ok) as [a' Hdel].
  exists a'. split; [exact Hdel|].
  destruct (Hpost a' Hdel) as (_ & Hgone & Hstop & _).
  split; [exact Hgone|].
  etransitivity; [exact (f_equal (fmap pf_stopped) Hstop)|reflexivity].
Defined.

Lemma hydrate_keyed_by_path_witness :
  map_to_list (forwarders app_two_forwards) ≡ₚ map_to_list (forwarders app_two_forwards) ∧
  registry_ok app_two_forwards ∧
  ∃ data,
    hydrate_in (E:=sampleExtern) app_two_forwards
      (map_to_list (forwarders app_two_forwards)) = Some data ∧
    is_Some (resource.Rows data !! "ns/pod") ∧
    size (resource.Rows data) < size (forwarders app_two_forwards).
Proof.
  split; [reflexivity|]. split; [exact app_two_forwards_ok|].
  destruct (hydrate_keyed_by_path (E:=sampleExtern) app_two_forwards
              (map_to_list (forwarders app_two_forwards)) (reflexivity _))
    as (Htotal & Hrows).
  destruct (Htotal app_two_forwards_ok) as [data Hdata].
  destruct (Hrows data Hdata) as (_ & _ & Hshared).
  exists data. split; [exact Hdata|].
  destruct (Hshared (fwFQN "ns/pod" "app") (fwFQN "ns/pod" "sidecar") 0 1
              (mkPortForward "ns/pod" "app" ["8080:80"] "2m" true false)
              (mkPortForward "ns/pod" "sidecar" ["9090:90"] "1m" true false)
              eq_refl eq_refl eq_refl eq_refl eq_refl ltac:(discriminate))
    as (_ & Hrow & Hsize).
  split; [exact Hrow|exact Hsize].
Defined.

Lemma registration_is_queued_witness :
  forwarders app_started = forwarders app0 ∧
  ∃ a4,
    run_job (E:=sampleExtern) noFile (registerForward (fresh (dom (heap app0)))) app_started
      = Some a4 ∧
    forwarders a4 !! fwFQN "ns/pod" "app" = Some (fresh (dom (heap app0))).
Proof.
  pose (a1 := app_started).
  change (forwarders a1 = forwarders app0 ∧
          ∃ a4, run_job (E:=sampleExtern) noFile
                  (registerForward (fresh (dom (heap app0)))) a1 = Some a4 ∧
                forwarders a4 !! fwFQN "ns/pod" "app" = Some (fresh (dom (heap app0)))).
  destruct (registration_is_queued (E:=sampleExtern) app0 "ns/pod" "app" "8080" "80" "0s")
    as (Hreg & _ & Hheap & _ & _ & _ & Hjob).
  split; [exact Hreg|].
  assert (heap a1 !! fresh (dom (heap app0))
          = Some (mkPortForward "ns/pod" "app" ["8080" +:+ ":" +:+ "80"] "0s" false false))
    as Hnew.
  { subst a1. unfold app_started. rewrite Hheap. apply lookup_insert_eq. }
  destruct (Hjob noFile a1 _ Hnew eq_refl eq_refl) as (a4 & Hrun & Hf & _).
  exists a4. split; [exact Hrun|]. rewrite Hf. apply lookup_insert_eq.
Defined.

Lemma watcher_uses_captured_name_witness :
  (∃ effs,
    go_step (E:=sampleExtern) (set_CurrentCluster "c1" app0)
      (updateBenchConfig_loop (benchConfig (E:=sampleExtern) "c0"))
      (FsEvent (benchConfig (E:=sampleExtern) "c0"))
      = Some (effs, Some (updateBenchConfig_loop (benchConfig (E:=sampleExtern) "c0"))) ∧
    Enqueue reloadJob ∈ effs) ∧
  ∃ a2,
    run_job (E:=sampleExtern) onlyFile_c1 reloadJob (set_CurrentCluster "c1" app0) = Some a2 ∧
    logs a2 = ["Reloading config /home/op/.k9s/bench-c1.yml"] ∧
    bench a2 = config.mkBenchmarks (config.mkBenchmark 3 30) ∅ ∧
    flashes a2 = [].
Proof.
  destruct (watcher_uses_captured_name (E:=sampleExtern) app0 (set_CurrentCluster "c1" app0)
              (benchConfig (E:=sampleExtern) "c0") (benchConfig (E:=sampleExtern) "c0"))
    as (_ & (effs & Hstep & Hiff & _) & Hreload).
  split.
  { exists effs. split; [exact Hstep|]. apply Hiff. right. reflexivity. }
  destruct (Hreload onlyFile_c1 onlyFile_c1 (set_CurrentCluster "c1" app0))
    as (Hpost & _ & Htotal).
  assert (registry_ok (set_CurrentCluster "c1" app0)) as Hok.
  { intros fq pf Hfq. exfalso. simpl in Hfq. rewrite lookup_empty in Hfq. discriminate Hfq. }
  destruct (Htotal Hok) as [a2 Hrun].
  destruct (Hpost a2 Hrun) as (Hlog & _ & Hfile).
  exists a2. split; [exact Hrun|]. split; [exact Hlog|].
  change (onlyFile_c1 (benchConfig (E:=sampleExtern)
            (CurrentCluster (set_CurrentCluster "c1" app0))))
    with (inl (config.mkBenchmarks (config.mkBenchmark 3 30) ∅)
          : config.Benchmarks + string) in Hfile.
  exact Hfile.
Defined.

Lemma goroutine_direct_writes_witness :
  go_step (E:=sampleExtern) app0 (runForward_queued 0) Scheduled
    = Some ([WriteActive 0 true], Some (runForward_blocked 0)) ∧
  marshalled (WriteActive 0 true) = false.
Proof.
  destruct (goroutine_direct_writes (E:=sampleExtern) app0 0 "lost connection")
    as (Hstep & Hm & _).
  split; [exact Hstep|exact Hm].
Defined.

(** ** The command table of registrar.go *)

Module registrar_facts.
Import registrar.

(** Each registration helper only adds its own entries on top of the table
    it is given. *)
Lemma resourceViews_union (m : gmap string resCmd) :
  resourceViews None m = Some (builtins ∪ m).
Proof.
  unfold builtins. cbv [resourceViews primRes coreRes stateRes rbacRes apiExtRes
    batchRes appsRes extRes v1beta1Res custRes default from_option id].
  f_equal. rewrite <- (left_id_L ∅ (∪) m) at 1.
  repeat rewrite <- insert_union_l. reflexivity.
Qed.

Lemma builtins_size : size builtins = 31.
Proof. vm_compute. reflexivity. Qed.

Lemma builtins_no_hpa : builtins !! "hpa" = None.
Proof. vm_compute. reflexivity. Qed.

(** X18.  Without a connection [resourceViews] never panics.  It files the
    31 built-in commands under their aliases, replacing whatever the table
    held there, and leaves every other alias of the table as it was; the
    ten helpers write disjoint aliases. *)
Theorem resourceViews_builtins (m : gmap string resCmd) :
  ∃ m', resourceViews None m = Some m' ∧
    size builtins = 31 ∧
    dom m' = dom builtins ∪ dom m ∧
    (∀ k r, builtins !! k = Some r → m' !! k = Some r) ∧
    (∀ k, builtins !! k = None → m' !! k = m !! k).
Proof.
  exists (builtins ∪ m). split; [apply resourceViews_union|].
  split; [apply builtins_size|]. split; [apply dom_union_L|]. split.
  - intros k r Hk. by apply lookup_union_Some_l.
  - intros k Hk. by apply lookup_union_r.
Qed.

(** X19.  Every built-in command has a title and a view constructor and no
    plural, singular or version; the five commands of [custRes] (users,
    groups, port forwards, benchmarks and screen dumps) are the ones
    without a list constructor, and service accounts and the four RBAC
    commands are the ones with an enter handler. *)
Theorem builtins_wellformed :
  map_Forall (λ k r,
      is_Some (viewFn r) ∧ title r ≠ "" ∧
      plural (crd r) = "" ∧ singular (crd r) = "" ∧ version (crd r) = "" ∧
      (is_Some (listFn r) ↔ k ∉ ["usr"; "grp"; "pf"; "be"; "sd"]) ∧
      (is_Some (enterFn r) ↔ k ∈ ["sa"; "cr"; "crb"; "rb"; "ro"]))
    builtins.
Proof. apply (bool_decide_unpack _). vm_compute. reflexivity. Qed.

(** With a connection the built-in table is handed to [hpaRes]. *)
Lemma resourceViews_conn (c : Connection) (m : gmap string resCmd) :
  resourceViews (Some c) m = hpaRes c (builtins ∪ m).
Proof.
  pose proof (resourceViews_union m) as Hu. unfold resourceViews in *.
  f_equal. apply (inj Some). exact Hu.
Qed.

(** X20.  With a connection [resourceViews] panics exactly when the cluster
    reports autoscaling support, without error, in a revision other than
    v1, v2beta1 and v2beta2.  Otherwise the table is the one built without
    a connection, except for the alias [hpa]: it gets the autoscaler
    command when support is reported and keeps what the table held when the
    query fails or reports no support. *)
Theorem resourceViews_hpa (c : Connection) (m : gmap string resCmd)
    (rev : string) (ok : bool) (err : option string) :
  SupportsRes c = (rev, ok, err) →
  (resourceViews (Some c) m = None ↔
     err = None ∧ ok = true ∧ rev ∉ ["v1"; "v2beta1"; "v2beta2"]) ∧
  (∀ m', resourceViews (Some c) m = Some m' →
     (∀ k, k ≠ "hpa" → m' !! k = (builtins ∪ m) !! k) ∧
     (err = None → ok = true → ∃ l, m' !! "hpa" = Some (hpaCmd l)) ∧
     (err ≠ None ∨ ok = false → m' !! "hpa" = m !! "hpa")).
Proof.
  intros Hs. rewrite resourceViews_conn. unfold hpaRes. rewrite Hs.
  assert ((builtins ∪ m) !! "hpa" = m !! "hpa") as Hhpa
    by apply lookup_union_r, builtins_no_hpa.
  revert Hhpa. generalize (builtins ∪ m). intros bm Hhpa.
  destruct err as [e|].
  { split; [split; [done|by intros [? _]]|].
    intros m' [= <-]. repeat split; done. }
  destruct ok; cbn [negb].
  2:{ split; [split; [done|by intros (_ & ? & _)]|].
      intros m' [= <-]. repeat split; try done. }
  repeat case_decide; subst.
  - split; [split; [done|intros (_ & _ & Hn); exfalso; apply Hn; by left]|].
    intros m' [= <-]. repeat split.
    + intros k Hk. by rewrite lookup_insert_ne.
    + intros _ _. eexists. apply lookup_insert_eq.
    + by intros [?|?].
  - split; [split; [done|intros (_ & _ & Hn); exfalso; apply Hn; right; by left]|].
    intros m' [= <-]. repeat split.
    + intros k Hk. by rewrite lookup_insert_ne.
    + intros _ _. eexists. apply lookup_insert_eq.
    + by intros [?|?].
  - split; [split; [done|intros (_ & _ & Hn); exfalso; apply Hn; right; right; by left]|].
    intros m' [= <-]. repeat split.
    + intros k Hk. by rewrite lookup_insert_ne.
    + intros _ _. eexists. apply lookup_insert_eq.
    + by intros [?|?].
  - split; [|done]. split; [|done]. intros _. repeat split.
    intros Hin. repeat (apply elem_of_cons in Hin as [?|Hin]; [done|]).
    by apply elem_of_nil in Hin.
Qed.

(** Filing one command under a list of aliases: it panics on the first
    alias that is not a string, and otherwise overwrites exactly the
    aliases listed. *)
Lemma aliases_panic (res : resCmd) (aa : list elem) :
  foldl (λ (acc : option (gmap string resCmd)) (a : elem),
           m ← acc;
           match a with
           | EString s => Some (<[s := res]> m)
           | EOther => None
           end) None aa = None.
Proof. induction aa as [|a aa IH]; simpl; done. Qed.

Lemma aliases_strings (res : resCmd) (al : list string) (m : gmap string resCmd) :
  ∃ m',
    foldl (λ (acc : option (gmap string resCmd)) (a : elem),
             m ← acc;
             match a with
             | EString s => Some (<[s := res]> m)
             | EOther => None
             end) (Some m) (EString <$> al) = Some m' ∧
    ∀ k, m' !! k = if decide (k ∈ al) then Some res else m !! k.
Proof.
  revert m. induction al as [|a al IH]; intros m; simpl.
  - by exists m.
  - destruct (IH (<[a := res]> m)) as (m' & Hm' & Hlook).
    exists m'. split; [done|]. intros k. rewrite Hlook.
    destruct (decide (k = a)) as [->|Hne].
    + rewrite lookup_insert_eq. repeat case_decide; try done; exfalso; set_solver.
    + rewrite lookup_insert_ne by done.
      repeat case_decide; try done; exfalso; set_solver.
Qed.

(** X21.  One custom resource definition with string group, kind, version,
    plural and singular and with string aliases.  The command is stored by
    value each time: the copy filed under the plural name was taken before
    the singular name was set and never learns it, while the copies filed
    under the singular name and under the aliases carry both names.  No
    other alias of the table changes, and none of the entries has a view
    or list constructor. *)
Theorem registerCRD_entries (ff : gmap string any) (m : gmap string resCmd)
    (group kind vers p s : string) (al : list string) :
  ff !! "group" = Some (AString group) →
  ff !! "kind" = Some (AString kind) →
  ff !! "version" = Some (AString vers) →
  ff !! "plural" = Some (AString p) →
  ff !! "singular" = Some (AString s) →
  ff !! "aliases" = Some (ASlice (EString <$> al)) →
  p ≠ s → p ∉ al →
  ∃ m', registerCRD ff m = Some m' ∧
    m' !! p = Some (mkResCmd (mkCrdCmd group vers p "") kind None None None None) ∧
    m' !! s = Some (mkResCmd (mkCrdCmd group vers p s) kind None None None None) ∧
    (∀ a, a ∈ al →
       m' !! a = Some (mkResCmd (mkCrdCmd group vers p s) kind None None None None)) ∧
    (∀ k, k ≠ p → k ≠ s → k ∉ al → m' !! k = m !! k).
Proof.
  intros Hg Hk Hv Hp Hs Ha Hps Hpal.
  unfold registerCRD. rewrite Hg, Hk, Hv, Hp, Hs, Ha. simpl.
  destruct (aliases_strings
              (with_singular s (with_plural p
                 (mkResCmd (mkCrdCmd group vers "" "") kind None None None None)))
              al
              (<[s := with_singular s (with_plural p
                        (mkResCmd (mkCrdCmd group vers "" "") kind None None None None))]>
                 (<[p := with_plural p
                           (mkResCmd (mkCrdCmd group vers "" "") kind None None None None)]> m)))
    as (m' & Hm' & Hlook).
  exists m'. split; [exact Hm'|]. repeat split.
  - rewrite Hlook. case_decide; [done|].
    rewrite lookup_insert_ne by done. by rewrite lookup_insert_eq.
  - rewrite Hlook. case_decide; [done|]. by rewrite lookup_insert_eq.
  - intros a Hin. rewrite Hlook. by case_decide.
  - intros k Hkp Hks Hkal. rewrite Hlook. case_decide; [done|].
    by rewrite !lookup_insert_ne.
Qed.

(** What [registerCRD] leaves under the plural name, whatever the other
    fields hold. *)
Lemma registerCRD_plural (ff : gmap string any) (m m' : gmap string resCmd)
    (kind p : string) :
  ff !! "kind" = Some (AString kind) →
  ff !! "plural" = Some (AString p) →
  registerCRD ff m = Some m' →
  ∃ r, m' !! p = Some r ∧ title r = kind ∧ viewFn r = None ∧ listFn r = None.
Proof.
  intros Hk Hp. unfold registerCRD. rewrite Hk, Hp.
  destruct (mustString (ff !! "group")) as [group|]; [|done].
  destruct (mustString (ff !! "version")) as [vers|]; [|done]. simpl.
  set (res0 := mkResCmd (mkCrdCmd group vers "" "") kind None None None None).
  assert (∀ (res : resCmd) (aa : list elem) (m1 m2 : gmap string resCmd),
            title res = kind → viewFn res = None → listFn res = None →
            (∃ r, m1 !! p = Some r ∧ title r = kind ∧ viewFn r = None ∧ listFn r = None) →
            foldl (λ (acc : option (gmap string resCmd)) (a : elem),
                     m ← acc;
                     match a with
                     | EString s => Some (<[s := res]> m)
                     | EOther => None
                     end) (Some m1) aa = Some m2 →
            ∃ r, m2 !! p = Some r ∧ title r = kind ∧ viewFn r = None ∧ listFn r = None)
    as Hfold.
  { intros res aa. induction aa as [|a aa IH]; intros m1 m2 Ht Hvw Hl Hm1; simpl.
    - by intros [= <-].
    - destruct a as [s|]; [|by rewrite aliases_panic].
      apply IH; try done.
      destruct (decide (s = p)) as [->|Hne].
      + exists res. by rewrite lookup_insert_eq.
      + by rewrite lookup_insert_ne. }
  assert (∀ (res : resCmd) (m1 : gmap string resCmd),
            title res = kind → viewFn res = None → listFn res = None →
            (∃ r, m1 !! p = Some r ∧ title r = kind ∧ viewFn r = None ∧ listFn r = None) →
            match ff !! "aliases" with
            | Some (ASlice aa) =>
                foldl (λ (acc : option (gmap string resCmd)) (a : elem),
                         m ← acc;
                         match a with
                         | EString s => Some (<[s := res]> m)
                         | EOther => None
                         end) (Some m1) aa
            | _ => Some m1
            end = Some m' →
            ∃ r, m' !! p = Some r ∧ title r = kind ∧ viewFn r = None ∧ listFn r = None)
    as Hal.
  { intros res m1 Ht Hvw Hl Hm1.
    destruct (ff !! "aliases") as [[?|aa|]|]; try (by intros [= <-]).
    by apply Hfold. }
  assert (∃ r, <[p := with_plural p res0]> m !! p = Some r ∧
               title r = kind ∧ viewFn r = None ∧ listFn r = None) as Hstart.
  { eexists. by rewrite lookup_insert_eq. }
  destruct (ff !! "singular") as [[s| |]|]; try (by apply Hal).
  apply Hal; try done.
  destruct (decide (s = p)) as [->|Hne].
  - eexists. by rewrite lookup_insert_eq.
  - by rewrite lookup_insert_ne.
Qed.

(** X22.  [aliasCmds] without a connection is the built-in table alone.  With
    one, the custom resource definitions are filed after the built-ins, so
    the plural name of the last definition ends up on that definition's
    command, which has no view or list constructor, even where a built-in
    command had the alias. *)
Theorem aliasCmds_crd_last (c : Connection) (m m' : gmap string resCmd)
    (pre : list (gmap string any)) (ff : gmap string any) (kind p : string) :
  crds c = pre ++ [ff] →
  ff !! "kind" = Some (AString kind) →
  ff !! "plural" = Some (AString p) →
  aliasCmds (Some c) m = Some m' →
  aliasCmds None m = Some (builtins ∪ m) ∧
  ∃ r, m' !! p = Some r ∧ title r = kind ∧ viewFn r = None ∧ listFn r = None.
Proof.
  intros Hc Hk Hp Ha. split.
  { unfold aliasCmds. by rewrite resourceViews_union. }
  unfold aliasCmds in Ha.
  destruct (resourceViews (Some c) m) as [m1|]; [|done]. simpl in Ha.
  unfold allCRDs in Ha. rewrite Hc, foldl_app in Ha. simpl in Ha.
  destruct (foldl _ (Some m1) pre) as [m2|]; [|done]. simpl in Ha.
  by eapply registerCRD_plural.
Qed.

End registrar_facts.

(** ** Shell arguments (pod.go) *)

Section Shell.
Context {E : Extern}.

(** X17.  [computeShellArgs] always yields the fixed head
    [exec -it --context <context> -n <ns> <pod>] and the fixed tail
    [-- sh -c <probe>]; in between come the kubeconfig flag, only for a
    non-nil, non-empty setting, and then the container flag, only for a
    non-empty container.  The result has 11, 13 or 15 entries, so it never
    outgrows the capacity of 15 the slice is made with. *)
Theorem computeShellArgs_shape (path co context : string) (kcfg : option string) :
  let args := computeShellArgs path co context kcfg in
  let kpart := match kcfg with
               | Some k => if decide (k ≠ "") then ["--kubeconfig"; k] else []
               | None => []
               end in
  let cpart := if decide (co ≠ "") then ["-c"; co] else [] in
  args = ["exec"; "-it"; "--context"; context; "-n";
          (namespaced path).1; (namespaced path).2]
         ++ kpart ++ cpart ++ ["--"; "sh"; "-c"; shellCheck] ∧
  length args = 11 + length kpart + length cpart ∧
  length args ≤ 15 ∧
  drop (length args - 4) args = ["--"; "sh"; "-c"; shellCheck] ∧
  (length args = 15 ↔ co ≠ "" ∧ ∃ k, kcfg = Some k ∧ k ≠ "").
Proof.
  unfold computeShellArgs. destruct (namespaced path) as [ns po]. simpl.
  destruct kcfg as [k|]; repeat case_decide; simpl;
    (split; [reflexivity|]); (split; [reflexivity|]); (split; [lia|]);
    (split; [reflexivity|]); split;
    try (intros ?; lia); try discriminate;
    try (intros [? (? & ? & ?)]; simplify_eq; done);
    intros _; split; eauto.
Qed.

End Shell.

(** ** Asking for a forward (types.go) *)

Section AskForward.
Context {E : Extern} {C : ExternContainer}.

Lemma strings_Split_nonempty (s : string) (sep : Ascii.ascii) :
  strings_Split s sep ≠ [].
Proof.
  destruct s as [|c r]; simpl; [done|].
  destruct (Ascii.eqb c sep); [done|].
  by destruct (strings_Split r sep).
Qed.

Lemma length_append (s t : string) :
  String.length (s +:+ t) = String.length s + String.length t.
Proof. induction s as [|c s IH]; simpl; [done|]. by rewrite IH. Qed.

Lemma not_running_is_not_no_ports (sel : string) :
  "Container " +:+ sel +:+ " is not running?" ≠ "Container exposes no ports".
Proof.
  intros Heq. pose proof (f_equal String.length Heq) as Hlen.
  rewrite !length_append in Hlen. simpl in Hlen.
  destruct sel as [|c sel]; [simpl in Heq; discriminate|].
  simpl in Hlen. lia.
Qed.

(** X5.  The guard of [portFwdCmd] is the registry.  With a row selected: when
    the registry has an entry for the selected container the handler only
    flashes the "already exist" error and opens no dialog; when it has
    none, the handler touches neither registry nor sessions, and a dialog
    is opened only for a container in state Running.  Once the
    registration job of a session on that container has run, the handler
    refuses. *)
Theorem portFwdCmd_guard (cv : containerView) (a : appView) :
  rowSelected cv = true →
  (is_Some (forwarders a !! fwFQN (cv_path cv) (selectedItem cv)) →
     portFwdCmd cv a
     = (flash flashErr ("A PortForward already exist on container " +:+ cv_path cv) a,
        None, true)) ∧
  (forwarders a !! fwFQN (cv_path cv) (selectedItem cv) = None →
     forwarders (portFwdCmd cv a).1.1 = forwarders a ∧
     heap (portFwdCmd cv a).1.1 = heap a ∧
     goroutines (portFwdCmd cv a).1.1 = goroutines a ∧
     (portFwdCmd cv a).2 = true ∧
     (is_Some (portFwdCmd cv a).1.2 ↔
        trimCell (masterPage cv) (selectedRow cv) 3 = "Running")) ∧
  (∀ pf f loaded a',
     heap a !! pf = Some f →
     pf_path f = cv_path cv → pf_container f = selectedItem cv →
     run_job loaded (registerForward pf) a = Some a' →
     portFwdCmd cv a'
     = (flash flashErr ("A PortForward already exist on container " +:+ cv_path cv) a',
        None, true)).
Proof.
  intros Hsel. split; [|split].
  - intros Hreg. unfold portFwdCmd. rewrite Hsel. simpl. by case_decide.
  - intros Hnone. unfold portFwdCmd. rewrite Hsel. simpl.
    case_decide as Hreg; [rewrite Hnone in Hreg; by destruct Hreg|].
    case_decide as Hst; simpl.
    { repeat split; try done; by intros []%is_Some_None. }
    case_decide as Hlen.
    { exfalso. by apply (strings_Split_nonempty
                          (trimCell (masterPage cv) (selectedRow cv) 10) ","%char),
                        nil_length_inv. }
    case_decide; simpl; repeat split; try done; by eexists.
  - intros pf f loaded a' Hf Hpath Hco Hrun. simpl in Hrun.
    rewrite Hf in Hrun. simpl in Hrun.
    destruct (pf_ports f !! 0) as [p0|]; [|done]. simpl in Hrun.
    injection Hrun as <-.
    unfold portFwdCmd. rewrite Hsel. simpl.
    case_decide as Hreg; [done|]. exfalso. apply Hreg.
    unfold FQN. rewrite Hpath, Hco, lookup_insert_eq. by eexists.
Qed.

(** X6.  [portFwdCmd] adds at most one message to the flash line, and it is
    never "Container exposes no ports": splitting the PORTS cell always
    yields at least one entry, so that branch is not reachable. *)
Theorem portFwdCmd_never_no_ports (cv : containerView) (a : appView) :
  ∃ extra, flashes (portFwdCmd cv a).1.1 = flashes a ++ extra ∧
    length extra ≤ 1 ∧
    (flashErr, "Container exposes no ports") ∉ extra.
Proof.
  unfold portFwdCmd. destruct (rowSelected cv); simpl.
  2:{ exists []. rewrite app_nil_r. split; [done|]. split; [simpl; lia|]. apply not_elem_of_nil. }
  case_decide; simpl.
  { eexists [_]. split; [done|]. split; [simpl; lia|].
    intros Hin. apply list_elem_of_singleton in Hin. simplify_eq. }
  case_decide; simpl.
  { eexists [_]. split; [done|]. split; [simpl; lia|].
    intros Hin. apply list_elem_of_singleton in Hin.
    pose proof (f_equal snd Hin) as Hmsg. cbn [snd] in Hmsg.
    symmetry in Hmsg. by apply not_running_is_not_no_ports in Hmsg. }
  case_decide as Hlen.
  { exfalso. by apply (strings_Split_nonempty
                        (trimCell (masterPage cv) (selectedRow cv) 10) ","%char),
                      nil_length_inv. }
  case_decide; simpl.
  - eexists [_]. split; [done|]. split; [simpl; lia|].
    intros Hin. apply list_elem_of_singleton in Hin. simplify_eq.
  - exists []. rewrite app_nil_r. split; [done|]. split; [simpl; lia|]. apply not_elem_of_nil.
Qed.

End AskForward.

(** ** Sessions and registry along a run *)

Section Sessions.
Context {E : Extern}.

Lemma same_session_refl f : same_session f f.
Proof. by repeat split. Qed.

Lemma same_session_trans f g h :
  same_session f g → same_session g h → same_session f h.
Proof.
  intros (? & ? & ? & ? & ?) (? & ? & ? & ? & ?).
  repeat split; try congruence; eauto.
Qed.

Lemma same_session_alter (h : gmap loc PortForward) g pf0 pf f :
  (∀ f0, same_session f0 (g f0)) →
  h !! pf = Some f →
  ∃ f', alter g pf0 h !! pf = Some f' ∧ same_session f f'.
Proof.
  intros Hg Hf. destruct (decide (pf0 = pf)) as [->|Hne].
  - exists (g f). by rewrite lookup_alter_eq, Hf.
  - exists f. rewrite lookup_alter_ne by done. split; [done|apply same_session_refl].
Qed.

Lemma same_session_SetActive b f : same_session f (SetActive b f).
Proof. by repeat split. Qed.

Lemma same_session_Stop f : same_session f (Stop f).
Proof. by repeat split. Qed.

Lemma step_same_session l a a' pf f :
  step l a = Some a' → heap a !! pf = Some f →
  ∃ f', heap a' !! pf = Some f' ∧ same_session f f'.
Proof.
  intros Hs Hf.
  assert (∃ f', heap a !! pf = Some f' ∧ same_session f f') as Hkeep
    by (exists f; split; [done|apply same_session_refl]).
  destruct l as [loaded|i e|k]; simpl in Hs.
  - destruct (updates a) as [|j q]; [done|].
    destruct j as [pf0|pf0| | |]; simpl in Hs.
    + simplify_option_eq. done.
    + destruct (heap a !! pf0) as [f0|]; [|done]. simpl in Hs.
      injection Hs as <-. simpl.
      by apply same_session_alter; [apply same_session_SetActive|].
    + destruct (v_bench a) as [b|]; [|done]. simpl in Hs.
      injection Hs as <-. by destruct (canceled b).
    + by injection Hs as <-.
    + apply reload_frame in Hs as (_ & _ & _ & _ & ->). done.
  - destruct (goroutines a !! i) as [g|]; [|done]. simpl in Hs.
    destruct (go_step a g e) as [[effs g']|] eqn:Hgo; [|done]. simpl in Hs.
    injection Hs as <-.
    destruct g, e as [|[?|]| | | | |]; simpl in Hgo; try done;
      try case_decide; simplify_eq/=; try done.
    by apply same_session_alter; [apply same_session_SetActive|].
  - destruct k; simpl in Hs; simplify_eq/=; try done.
    + destruct startErr; simpl; [done|].
      exists f. rewrite lookup_insert_ne by eauto using fresh_loc_unused.
      split; [done|apply same_session_refl].
    + unfold benchCmd. case_decide; [done|].
      destruct (v_bench a); simpl; [done|].
      by destruct (newBenchmark _ _) as [nb [err|]].
    + unfold benchStopCmd. by destruct (v_bench a).
    + unfold deleteCmd. by repeat case_decide.
    + unfold modalDone in Hs. destruct (modal a) as [sel|]; [|by simplify_eq].
      case_decide; simplify_option_eq; [|done].
      match goal with Hd : deleteOk _ _ = Some _ |- _ => unfold deleteOk in Hd end.
      destruct (forwarders a !! sel); simplify_option_eq; [|done].
      by apply same_session_alter; [apply same_session_Stop|].
    + unfold init_watch, watchK9sDir. by destruct newErr, addErr.
Qed.

(** X1.  Sessions are never dropped and never change their identity: whatever
    the application does, a session that exists keeps existing with the
    same path, container, ports and age, and once stopped it stays
    stopped. *)
Theorem run_same_session (ls : list label) (a a' : appView) (pf : loc) (f : PortForward) :
  run ls a = Some a' → heap a !! pf = Some f →
  ∃ f', heap a' !! pf = Some f' ∧ same_session f f'.
Proof.
  revert a f. induction ls as [|l ls IH]; simpl; intros a f Hr Hf.
  - injection Hr as <-. exists f. split; [done|apply same_session_refl].
  - destruct (step l a) as [a1|] eqn:Hs; [|done]. simpl in Hr.
    destruct (step_same_session _ _ _ _ _ Hs Hf) as (f1 & Hf1 & H1).
    destruct (IH _ _ Hr Hf1) as (f' & Hf' & H').
    exists f'. split; [done|]. by eapply same_session_trans.
Qed.

Lemma keyed_alter (h : gmap loc PortForward) (m : gmap string loc) g pf0 :
  (∀ f0, same_session f0 (g f0)) → keyed h m → keyed (alter g pf0 h) m.
Proof.
  intros Hg Hk fq pf Hfq. destruct (Hk fq pf Hfq) as (f & Hf & Hkey & Hports).
  destruct (same_session_alter h g pf0 pf f Hg Hf) as (f' & Hf' & Hp & Hc & Hpo & _).
  exists f'. split; [done|]. unfold FQN in *. rewrite Hp, Hc, Hpo. done.
Qed.

Lemma keyed_delete (h : gmap loc PortForward) (m : gmap string loc) k :
  keyed h m → keyed h (delete k m).
Proof. intros Hk fq pf [_ Hfq]%lookup_delete_Some. eauto. Qed.

Lemma step_registry_keyed l a a' :
  step l a = Some a' → registry_keyed a → registry_keyed a'.
Proof.
  unfold registry_keyed. intros Hs Hk.
  destruct l as [loaded|i e|k]; simpl in Hs.
  - destruct (updates a) as [|j q]; [done|].
    destruct j as [pf0|pf0| | |]; simpl in Hs.
    + destruct (heap a !! pf0) as [f0|] eqn:Hf0; [|done]. simpl in Hs.
      destruct (pf_ports f0 !! 0) as [p0|] eqn:Hp0; [|done]. simpl in Hs.
      injection Hs as <-. simpl.
      intros fq pf [[<- <-]|[_ Hfq]]%lookup_insert_Some; [|by apply Hk].
      exists f0. split; [done|]. split; [done|]. by intros Hnil; rewrite Hnil in Hp0.
    + destruct (heap a !! pf0) as [f0|]; [|done]. simpl in Hs.
      injection Hs as <-. simpl.
      apply keyed_alter; [apply same_session_SetActive|]. by apply keyed_delete.
    + destruct (v_bench a) as [b|]; [|done]. simpl in Hs.
      injection Hs as <-. by destruct (canceled b).
    + by injection Hs as <-.
    + apply reload_frame in Hs as (_ & _ & _ & -> & ->). done.
  - destruct (goroutines a !! i) as [g|]; [|done]. simpl in Hs.
    destruct (go_step a g e) as [[effs g']|] eqn:Hgo; [|done]. simpl in Hs.
    injection Hs as <-.
    destruct g, e as [|[?|]| | | | |]; simpl in Hgo; try done;
      try case_decide; simplify_eq/=; try done.
    by apply keyed_alter; [apply same_session_SetActive|].
  - destruct k; simpl in Hs; simplify_eq/=; try done.
    + destruct startErr; simpl; [done|].
      intros fq pf Hfq. destruct (Hk fq pf Hfq) as (f & Hf & Hrest).
      exists f. rewrite lookup_insert_ne by eauto using fresh_loc_unused. done.
    + unfold benchCmd. case_decide; [done|].
      destruct (v_bench a); simpl; [done|].
      by destruct (newBenchmark _ _) as [nb [err|]].
    + unfold benchStopCmd. by destruct (v_bench a).
    + unfold deleteCmd. by repeat case_decide.
    + unfold modalDone in Hs. destruct (modal a) as [sel|]; [|by simplify_eq].
      case_decide; simplify_option_eq; [|done].
      match goal with Hd : deleteOk _ _ = Some _ |- _ => unfold deleteOk in Hd end.
      destruct (forwarders a !! sel); simplify_option_eq; [|done].
      apply keyed_delete. by apply keyed_alter; [apply same_session_Stop|].
    + unfold init_watch, watchK9sDir. by destruct newErr, addErr.
Qed.

(** X2.  Whatever the application does, an entry of the registry stays filed
    under the name of the session it points to, a session that exists and
    has a port; so from a registry of that kind, the empty one included,
    the forwards table can always be drawn, in any iteration order. *)
Theorem run_registry_keyed (ls : list label) (a a' : appView) :
  run ls a = Some a' → registry_keyed a →
  registry_keyed a' ∧
  ∀ order, order ≡ₚ map_to_list (forwarders a') → is_Some (hydrate_in a' order).
Proof.
  intros Hr Hk.
  assert (registry_keyed a') as Hk'.
  { revert a Hr Hk. induction ls as [|l ls IH]; simpl; intros a Hr Hk.
    - by injection Hr as <-.
    - destruct (step l a) as [a1|] eqn:Hs; [|done]. simpl in Hr.
      eauto using step_registry_keyed. }
  split; [done|]. intros order Hperm.
  apply hydrate_in_is_Some; [|done].
  intros fq pf Hfq. destruct (Hk' fq pf Hfq) as (f & Hf & _ & Hports). eauto.
Qed.

(** X3.  The unregistration job of a session deletes by name.  When another
    session with the same name has been registered in the meantime, the
    job of the first one takes that entry out of the registry, leaving the
    other session itself as it is. *)
Theorem unregister_by_name (a : appView) (pf pf' : loc) (f f' : PortForward)
    (loaded : string → config.Benchmarks + string) :
  heap a !! pf = Some f → heap a !! pf' = Some f' → pf ≠ pf' →
  FQN f = FQN f' → forwarders a !! FQN f' = Some pf' →
  ∃ a', run_job loaded (unregisterForward pf) a = Some a' ∧
    forwarders a' !! FQN f' = None ∧
    heap a' !! pf' = Some f' ∧
    heap a' !! pf = Some (SetActive false f) ∧
    goroutines a' = goroutines a.
Proof.
  intros Hf Hf' Hne Hname Hreg. simpl. rewrite Hf. simpl.
  eexists. split; [done|]. simpl.
  split; [rewrite Hname; apply lookup_delete_eq|].
  split; [by rewrite lookup_alter_ne|].
  split; [by rewrite lookup_alter_eq, Hf|done].
Qed.

(** X15.  Reload jobs come from the watcher only: a step that leaves more reload
    jobs in the queue than it found is a watcher goroutine taking a
    file-system event whose path is the name it captured (or whose
    captured name is empty). *)
Theorem reload_only_on_event (a a' : appView) (l : label) :
  step l a = Some a' → pendingReloads a < pendingReloads a' →
  ∃ i file name,
    l = Go i (FsEvent name) ∧
    goroutines a !! i = Some (updateBenchConfig_loop file) ∧
    (file = "" ∨ name = file) ∧
    pendingReloads a' = S (pendingReloads a).
Proof.
  unfold pendingReloads. intros Hs Hlt.
  destruct l as [loaded|i e|k]; simpl in Hs.
  - exfalso. destruct (updates a) as [|j q] eqn:Hq; [done|].
    assert (count is_reloadJob q ≤ count is_reloadJob (j :: q)) as Hle by (simpl; lia).
    destruct j as [pf0|pf0| | |]; simpl in Hs.
    + simplify_option_eq. simpl in *. lia.
    + simplify_option_eq. simpl in *. lia.
    + destruct (v_bench a) as [b|]; [|done]. simpl in Hs.
      injection Hs as <-. destruct (canceled b); simpl in *; lia.
    + injection Hs as <-. simpl in *. lia.
    + apply reload_frame in Hs as (_ & _ & Hu & _). simpl in Hu.
      rewrite Hu in Hlt. lia.
  - destruct (goroutines a !! i) as [g|] eqn:Hg; [|done]. simpl in Hs.
    destruct (go_step a g e) as [[effs g']|] eqn:Hgo; [|done]. simpl in Hs.
    injection Hs as <-.
    destruct g, e as [|[?|]| | | | |]; simpl in Hgo; try done;
      try case_decide; simplify_eq/=;
      rewrite ?count_app in Hlt; simpl in Hlt; try lia.
    eexists _, _, _. split; [done|]. split; [done|]. split; [done|].
    rewrite count_app. simpl. lia.
  - exfalso. destruct k; simpl in Hs; simplify_eq/=; try lia.
    + destruct startErr; simpl in Hlt; lia.
    + unfold benchCmd in Hlt. case_decide; [lia|].
      destruct (v_bench a); simpl in Hlt; [lia|].
      destruct (newBenchmark _ _) as [nb [err|]]; simpl in Hlt; lia.
    + unfold benchStopCmd in Hlt. destruct (v_bench a); simpl in Hlt; lia.
    + unfold deleteCmd in Hlt. repeat case_decide; simpl in Hlt; lia.
    + apply modalDone_slot in Hs as (_ & _ & Hu). rewrite Hu in Hlt. lia.
    + unfold init_watch, watchK9sDir in Hlt.
      destruct newErr, addErr; simpl in Hlt; lia.
Qed.

End Sessions.

(** ** A session is activated once *)

Ltac count_goroutines pf Hg :=
  unfold toActivate; simpl;
  try match goal with
      | |- context [count _ (<[_ := ?y]> _)] =>
          pose proof (count_insert (before_SetActive pf) _ _ _ y Hg) as Hc; simpl in Hc
      end;
  try match goal with
      | |- context [count _ (delete _ _)] =>
          pose proof (count_delete (before_SetActive pf) _ _ _ Hg) as Hc; simpl in Hc
      end;
  rewrite ?count_app; simpl; try lia.

Section Once.
Context {E : Extern}.

Lemma raised_same pf a a' :
  pf_active <$> heap a' !! pf = pf_active <$> heap a !! pf → raised pf a a' = false.
Proof.
  intros Heq. unfold raised. rewrite Heq.
  destruct (pf_active <$> heap a !! pf) as [[]|]; done.
Qed.

Lemma calm pf a a' :
  (heap a' !! pf = None ↔ heap a !! pf = None) →
  (pf_active <$> heap a !! pf = Some false → pf_active <$> heap a' !! pf = Some false) →
  toActivate pf a' = toActivate pf a →
  awaiting_ok pf a →
  awaiting_ok pf a' ∧
  (if raised pf a a' then 1 else 0) + toActivate pf a'
  = toActivate pf a + (if started_in pf a a' then 1 else 0).
Proof.
  intros Hex Hoff' Hcnt (Hle & Hoff & Hnew). split.
  - unfold awaiting_ok. rewrite Hcnt. split; [done|]. split; [by auto|].
    intros Hn. apply Hnew. by apply Hex.
  - assert (raised pf a a' = false) as ->.
    { unfold raised. case_bool_decide as Hf; [|done]. rewrite (Hoff' Hf). done. }
    assert (started_in pf a a' = false) as ->.
    { unfold started_in. case_bool_decide as Hn; [|done].
      apply Hex in Hn. by rewrite Hn. }
    lia.
Qed.

Lemma alter_calm (h : gmap loc PortForward) g p pf :
  (∀ f, pf_active f = false → pf_active (g f) = false) →
  (alter g p h !! pf = None ↔ h !! pf = None) ∧
  (pf_active <$> h !! pf = Some false → pf_active <$> alter g p h !! pf = Some false).
Proof.
  intros Hg. destruct (decide (p = pf)) as [->|Hne].
  - rewrite lookup_alter_eq. destruct (h !! pf) as [f|]; simpl; [|done].
    split; [done|]. intros [= Hf]. by rewrite Hg.
  - by rewrite lookup_alter_ne.
Qed.

Lemma step_activation l a a' pf :
  step l a = Some a' → awaiting_ok pf a →
  awaiting_ok pf a' ∧
  (if raised pf a a' then 1 else 0) + toActivate pf a'
  = toActivate pf a + (if started_in pf a a' then 1 else 0).
Proof.
  intros Hs Hok.
  destruct l as [loaded|i e|k]; simpl in Hs.
  - destruct (updates a) as [|j q]; [done|].
    destruct j as [pf0|pf0| | |]; simpl in Hs.
    + simplify_option_eq. by apply calm.
    + destruct (heap a !! pf0) as [f0|]; [|done]. simpl in Hs. injection Hs as <-.
      destruct (alter_calm (heap a) (SetActive false) pf0 pf) as [? ?]; [done|].
      by apply calm.
    + destruct (v_bench a) as [b|]; [|done]. simpl in Hs. injection Hs as <-.
      apply calm; try done; destruct (canceled b); simpl; try done;
        unfold toActivate; simpl; rewrite count_app; simpl; lia.
    + injection Hs as <-. by apply calm.
    + apply reload_frame in Hs as (_ & Hg & _ & _ & Hh).
      simpl in Hg, Hh. apply calm; try done; try by rewrite Hh.
      unfold toActivate. by rewrite Hg.
  - destruct (goroutines a !! i) as [g|] eqn:Hg; [|done]. simpl in Hs.
    destruct (go_step a g e) as [[effs g']|] eqn:Hgo; [|done]. simpl in Hs.
    injection Hs as <-.
    destruct g as [pf0|pf0|pf0| | | |file], e as [|[err|]| | |name|err|];
      simpl in Hgo; try done; try case_decide; simplify_eq/=;
      try (apply calm; [done|done|count_goroutines pf Hg|done]).
    destruct (decide (pf0 = pf)) as [->|Hne].
    + destruct Hok as (Hle & Hoff & Hnew).
      pose proof (count_insert (before_SetActive pf) _ _ _ (runForward_blocked pf) Hg) as Hc.
      simpl in Hc. rewrite bool_decide_eq_true_2 in Hc by done.
      assert (toActivate pf a = 1) as H1 by (unfold toActivate in *; lia).
      specialize (Hoff H1).
      destruct (heap a !! pf) as [f|] eqn:Hf; [|done]. injection Hoff as Hoff.
      assert (raised pf a
                (set_goroutines (λ gs, <[i:=runForward_blocked pf]> gs)
                   (set_heap (alter (SetActive true) pf) a)) = true) as ->.
      { unfold raised. simpl. rewrite lookup_alter_eq, Hf. simpl. by rewrite Hoff. }
      assert (started_in pf a
                (set_goroutines (λ gs, <[i:=runForward_blocked pf]> gs)
                   (set_heap (alter (SetActive true) pf) a)) = false) as ->.
      { unfold started_in. by rewrite Hf. }
      unfold awaiting_ok, toActivate in *. simpl.
      split; [|lia]. split; [lia|]. split; [lia|]. intros _. lia.
    + apply calm; [| |count_goroutines pf Hg; rewrite bool_decide_eq_false_2 in Hc by done; lia|done];
        simpl; by rewrite lookup_alter_ne.
  - destruct k; simpl in Hs; simplify_eq/=.
    + destruct startErr as [err|]; simpl; [by apply calm|].
      destruct (decide (fresh (dom (heap a)) = pf)) as [Heq|Hne].
      * destruct Hok as (Hle & Hoff & Hnew).
        assert (heap a !! pf = None) as Hnone.
        { rewrite <- Heq. apply not_elem_of_dom. apply is_fresh. }
        specialize (Hnew Hnone).
        match goal with |- context [raised pf a ?s] =>
          assert (raised pf a s = false) as ->
            by (unfold raised; by rewrite Hnone);
          assert (started_in pf a s = true) as ->
            by (unfold started_in; simpl; rewrite Hnone, Heq, lookup_insert_eq; done)
        end.
        unfold awaiting_ok, toActivate in *. simpl. rewrite count_app. simpl.
        rewrite bool_decide_eq_true_2 by done.
        split; [|lia]. split; [lia|]. rewrite Heq, lookup_insert_eq.
        split; [done|]. done.
      * apply calm; [| | |done]; simpl; rewrite ?lookup_insert_ne by done; try done.
        unfold toActivate. simpl. rewrite count_app. simpl.
        rewrite bool_decide_eq_false_2 by done. lia.
    + unfold benchCmd. case_decide; [by apply calm|].
      destruct (v_bench a); simpl; [by apply calm|].
      destruct (newBenchmark _ _) as [nb [err|]]; apply calm; try done.
      unfold toActivate. simpl. rewrite count_app. simpl. lia.
    + unfold benchStopCmd. destruct (v_bench a); by apply calm.
    + unfold deleteCmd. repeat case_decide; by apply calm.
    + unfold modalDone in Hs. destruct (modal a) as [sel|]; [|simplify_eq; by apply calm].
      case_decide; simplify_option_eq; [|by apply calm].
      match goal with Hd : deleteOk _ _ = Some _ |- _ => unfold deleteOk in Hd end.
      destruct (forwarders a !! sel) as [fw|]; simplify_option_eq; [|by apply calm].
      destruct (alter_calm (heap a) Stop fw pf) as [? ?]; [done|].
      by apply calm.
    + unfold init_watch, watchK9sDir.
      destruct newErr, addErr; simpl; apply calm; try done;
        unfold toActivate; simpl; rewrite count_app; simpl; lia.
    + by apply calm.
    + by apply calm.
Qed.

Lemma step_heap_kept l a a' pf :
  step l a = Some a' → is_Some (heap a !! pf) → is_Some (heap a' !! pf).
Proof.
  intros Hs [f Hf]. destruct (step_same_session _ _ _ _ _ Hs Hf) as (f' & Hf' & _).
  by eexists.
Qed.

Lemma run_heap_kept ls a a' pf :
  run ls a = Some a' → is_Some (heap a !! pf) → is_Some (heap a' !! pf).
Proof.
  revert a. induction ls as [|l ls IH]; simpl; intros a Hr Hf.
  - by injection Hr as <-.
  - destruct (step l a) as [a1|] eqn:Hs; [|done]. simpl in Hr.
    eauto using step_heap_kept.
Qed.

Lemma started_in_split pf a a1 a' :
  (is_Some (heap a !! pf) → is_Some (heap a1 !! pf)) →
  (is_Some (heap a1 !! pf) → is_Some (heap a' !! pf)) →
  (if started_in pf a a' then 1 else 0)
  = (if started_in pf a a1 then 1 else 0) + (if started_in pf a1 a' then 1 else 0).
Proof.
  unfold started_in. intros H1 H2.
  destruct (heap a !! pf) as [f|].
  - destruct H1 as [f1 ->]; [by eexists|]. done.
  - destruct (heap a1 !! pf) as [f1|].
    + destruct H2 as [f2 ->]; [by eexists|]. done.
    + simpl. by destruct (heap a' !! pf).
Qed.

Lemma run_activation ls a a' pf :
  run ls a = Some a' → awaiting_ok pf a →
  activations pf ls a + toActivate pf a'
  = toActivate pf a + (if started_in pf a a' then 1 else 0).
Proof.
  revert a. induction ls as [|l ls IH]; simpl; intros a Hr Hok.
  - injection Hr as <-.
    assert (started_in pf a a = false) as ->; [|lia].
    unfold started_in. by destruct (heap a !! pf).
  - destruct (step l a) as [a1|] eqn:Hs; [|done]. simpl in Hr.
    destruct (step_activation _ _ _ pf Hs Hok) as (Hok1 & H1).
    specialize (IH _ Hr Hok1).
    rewrite (started_in_split pf a a1 a')
      by eauto using step_heap_kept, run_heap_kept.
    lia.
Qed.

(** C3, as the code has it.  The flag of a session goes up exactly once in
    its life, and it does so in one place: the [pf.SetActive(true)] of
    [runForward], the step that follows the queueing of the registration
    and leads into the blocking transport call.  Along a run that starts
    where no goroutine of the session is still short of that line, the
    number of times the flag went up plus the number of its goroutines
    still short of the line is one for a session started in the run and
    zero otherwise.  The raising step can always be taken, whatever the
    transport will do: it raises the flag and changes neither queue nor
    registry. *)
Theorem activation_point (a0 a : appView) (ls : list label) (pf : loc) :
  toActivate pf a0 = 0 → run ls a0 = Some a →
  activations pf ls a0 + toActivate pf a = (if started_in pf a0 a then 1 else 0) ∧
  activations pf ls a0 ≤ 1 ∧
  (∀ s s' l f f',
     step l s = Some s' →
     heap s !! pf = Some f → heap s' !! pf = Some f' →
     pf_active f = false → pf_active f' = true →
     ∃ i, l = Go i Scheduled ∧
          goroutines s !! i = Some (runForward_queued pf) ∧
          goroutines s' !! i = Some (runForward_blocked pf)) ∧
  (∀ s i,
     goroutines s !! i = Some (runForward_queued pf) →
     ∃ s', step (Go i Scheduled) s = Some s' ∧
       heap s' = alter (SetActive true) pf (heap s) ∧
       goroutines s' !! i = Some (runForward_blocked pf) ∧
       updates s' = updates s ∧ forwarders s' = forwarders s).
Proof.
  intros H0 Hr.
  assert (awaiting_ok pf a0) as Hok.
  { unfold awaiting_ok. rewrite H0. split; [lia|]. split; [lia|done]. }
  pose proof (run_activation _ _ _ pf Hr Hok) as Hcount. rewrite H0 in Hcount.
  split; [exact Hcount|]. split; [destruct (started_in pf a0 a); lia|]. split.
  - intros s s' l f f' Hs. by apply step_raises_active.
  - intros s i Hg. simpl. rewrite Hg. simpl. eexists. split; [done|]. simpl.
    split; [done|]. split; [|done].
    apply list_lookup_insert_eq. by eapply lookup_lt_Some.
Qed.

End Once.

(** A forward is started, its goroutine queues the registration, raises
    the flag and enters the transport call, which fails: the flag went up
    once, before anything was known about the transport. *)
Lemma activation_point_witness :
  toActivate 0 app0 = 0 ∧
  ∃ a,
    run (E:=sampleExtern)
      [startForward; Go 0 Scheduled; Go 0 Scheduled;
       Go 0 (Returned (Some "lost connection"))] app0 = Some a ∧
    activations (E:=sampleExtern) 0
      [startForward; Go 0 Scheduled; Go 0 Scheduled;
       Go 0 (Returned (Some "lost connection"))] app0 = 1 ∧
    goroutines a = [].
Proof.
  split; [reflexivity|].
  destruct (run (E:=sampleExtern)
              [startForward; Go 0 Scheduled; Go 0 Scheduled;
               Go 0 (Returned (Some "lost connection"))] app0) as [a|] eqn:Hr;
    [|vm_compute in Hr; discriminate Hr].
  destruct (activation_point (E:=sampleExtern) app0 a _ 0 eq_refl Hr) as (Hcount & _).
  assert (goroutines a = []) as Hg.
  { vm_compute in Hr. injection Hr as <-. reflexivity. }
  exists a. split; [reflexivity|]. split; [|exact Hg].
  assert (started_in 0 app0 a = true) as Hborn.
  { vm_compute in Hr. injection Hr as <-. vm_compute. reflexivity. }
  rewrite Hborn in Hcount. unfold toActivate in Hcount. rewrite Hg in Hcount.
  change (count (before_SetActive 0) []) with 0 in Hcount.
  rewrite Nat.add_0_r in Hcount. exact Hcount.
Defined.

(** ** More on the forwards table *)

Section Table.
Context {E : Extern}.

Lemma hydrate_row_fields a f ev :
  hydrate_row a f = Some ev →
  length (resource.Fields ev) = 8 ∧
  resource.Fields ev !! 2 = Some (pf_container f) ∧
  resource.Fields ev !! 3 = Some (strings_Join (pf_ports f) ",") ∧
  resource.Fields ev !! 7 = Some (pf_age f).
Proof.
  unfold hydrate_row.
  destruct (loadConfig _ _ _ _) as [[c n] cfg].
  destruct (pf_ports f) as [|p0 ps]; [done|]. simpl.
  destruct (namespaced _). by intros [= <-].
Qed.

(** X7.  Every table [hydrate] produces has the eight-column header, the
    numeric columns C and N and the all-namespaces scope of [initHeader],
    and each of its rows has exactly as many fields as the header has
    columns. *)
Theorem hydrate_rows_fit_header (a : appView) (order : list (string * loc))
    (data : resource.TableData) :
  hydrate_in a order = Some data →
  resource.Header data
    = ["NAMESPACE"; "NAME"; "CONTAINER"; "PORTS"; "URL"; "C"; "N"; "AGE"] ∧
  dom (resource.NumCols data) = {["C"; "N"]} ∧
  resource.Namespace data = AllNamespaces ∧
  ∀ k ev, resource.Rows data !! k = Some ev →
    length (resource.Fields ev) = length (resource.Header data) ∧
    length (resource.Deltas ev) = length (resource.Header data).
Proof.
  unfold hydrate_in. intros Hd.
  apply hydrate_loop_rows in Hd as (Hh & Hn & Hns & _ & Hrows). simpl in *.
  rewrite Hh, Hn, Hns. split; [done|]. split.
  { rewrite !dom_insert_L, dom_empty_L. set_solver. }
  split; [done|]. intros k ev Hk.
  destruct (Hrows k ev Hk) as [Hin|(fq & pf & f & _ & _ & _ & Hrow)].
  { by rewrite lookup_empty in Hin. }
  destruct (hydrate_row_shape _ _ _ Hrow) as [_ Hdel].
  destruct (hydrate_row_fields _ _ _ Hrow) as [Hlen _].
  rewrite Hdel, Hlen. done.
Qed.

Lemma hydrate_loop_app a l1 l2 data :
  hydrate_loop a (l1 ++ l2) data = hydrate_loop a l1 data ≫= hydrate_loop a l2.
Proof.
  revert data. induction l1 as [|[fq pf] l1 IH]; intros data; simpl; [done|].
  destruct (heap a !! pf) as [f|]; [|done]. simpl.
  destruct (hydrate_row a f) as [ev|]; [|done]. simpl. apply IH.
Qed.

(** X8.  The row kept for a path is that of the session visited last: when
    the walk over the registry ends with a session, the row under its path
    is the one built from it, and shows its container. *)
Theorem hydrate_last_wins (a : appView) (pre : list (string * loc)) (fq : string)
    (pf : loc) (data : resource.TableData) :
  hydrate_in a (pre ++ [(fq, pf)]) = Some data →
  ∃ f ev, heap a !! pf = Some f ∧
    resource.Rows data !! pf_path f = Some ev ∧
    hydrate_row a f = Some ev ∧
    resource.Fields ev !! 2 = Some (pf_container f).
Proof.
  unfold hydrate_in. rewrite hydrate_loop_app.
  destruct (hydrate_loop a pre _) as [d1|]; [|done]. simpl.
  destruct (heap a !! pf) as [f|]; [|done]. simpl.
  destruct (hydrate_row a f) as [ev|] eqn:Hrow; [|done]. simpl.
  intros [= <-]. exists f, ev. split; [done|]. simpl.
  split; [apply lookup_insert_eq|]. split; [done|].
  by destruct (hydrate_row_fields _ _ _ Hrow) as (_ & ? & _).
Qed.

Lemma hydrate_loop_None_stays a order data :
  hydrate_loop a order data = None → ∀ data', hydrate_loop a order data' = None.
Proof.
  revert data. induction order as [|[fq pf] order IH]; simpl; intros data; [done|].
  destruct (heap a !! pf) as [f|]; [|done]. simpl.
  destruct (hydrate_row a f) as [ev|]; [|done]. simpl. eauto.
Qed.

Lemma hydrate_loop_fails a order data :
  hydrate_loop a order data = None ↔
  ∃ fq pf, (fq, pf) ∈ order ∧
    (heap a !! pf = None ∨ ∃ f, heap a !! pf = Some f ∧ hydrate_row a f = None).
Proof.
  revert data. induction order as [|[fq pf] order IH]; intros data; simpl.
  - split; [done|]. intros (? & ? & Hin & _). by apply elem_of_nil in Hin.
  - destruct (heap a !! pf) as [f|] eqn:Hf; simpl.
    2:{ split; [|done]. intros _. exists fq, pf. split; [by left|]. by left. }
    destruct (hydrate_row a f) as [ev|] eqn:Hrow; simpl.
    2:{ split; [|done]. intros _. exists fq, pf. split; [by left|]. right. eauto. }
    rewrite IH. split.
    + intros (fq' & pf' & Hin & Hbad). exists fq', pf'. split; [by right|done].
    + intros (fq' & pf' & Hin & Hbad).
      apply elem_of_cons in Hin as [Heq|Hin]; [|eauto].
      injection Heq as -> ->. destruct Hbad as [?|(f' & ? & ?)]; simplify_eq.
Qed.

Lemma hydrate_in_rows a order data :
  order ≡ₚ map_to_list (forwarders a) →
  hydrate_in a order = Some data →
  dom (resource.Rows data) = registered_paths a ∧
  ∀ k ev, resource.Rows data !! k = Some ev →
    ∃ fq pf f, forwarders a !! fq = Some pf ∧ heap a !! pf = Some f ∧
               pf_path f = k ∧ hydrate_row a f = Some ev.
Proof.
  intros Hperm Hd. unfold hydrate_in in Hd.
  apply hydrate_loop_rows in Hd as (_ & _ & _ & Hdom & Hrows). simpl in *.
  split.
  - rewrite Hdom, dom_empty_L, (left_id_L ∅ (∪)).
    unfold registered_paths, paths_of. by rewrite Hperm.
  - intros k ev Hk.
    destruct (Hrows k ev Hk) as [Hin|(fq & pf & f & Hin & Hf & Hpath & Hrow)].
    { by rewrite lookup_empty in Hin. }
    rewrite Hperm in Hin. apply elem_of_map_to_list in Hin. eauto 10.
Qed.

Lemma NoDup_omap_inj {A B} (g : A → option B) (l : list A) :
  NoDup l →
  (∀ x y b, x ∈ l → y ∈ l → g x = Some b → g y = Some b → x = y) →
  NoDup (omap g l).
Proof.
  induction 1 as [|x l Hx Hl IH]; intros Hinj; simpl; [constructor|].
  assert (NoDup (omap g l)) as Hrest.
  { apply IH. intros y z b Hy Hz. apply Hinj; by right. }
  destruct (g x) as [b|] eqn:Hgx; [|done].
  constructor; [|done]. intros Hin.
  apply list_elem_of_omap in Hin as (y & Hy & Hgy).
  assert (x = y) by (eapply Hinj; [by left|by right|done..]).
  by subst.
Qed.

(** X9.  When the registered sessions have pairwise different paths, the
    table does not depend on the order the registry is walked in, and it
    has one row per session. *)
Theorem hydrate_order_irrelevant (a : appView) (order1 order2 : list (string * loc)) :
  distinct_paths a →
  order1 ≡ₚ map_to_list (forwarders a) → order2 ≡ₚ map_to_list (forwarders a) →
  hydrate_in a order1 = hydrate_in a order2 ∧
  ∀ data, hydrate_in a order1 = Some data →
    size (resource.Rows data) = size (forwarders a).
Proof.
  intros Hdist Hp1 Hp2.
  assert (∀ order data, order ≡ₚ map_to_list (forwarders a) →
            hydrate_in a order = Some data →
            ∀ k ev, resource.Rows data !! k = Some ev ↔
              ∃ fq pf f, forwarders a !! fq = Some pf ∧ heap a !! pf = Some f ∧
                         pf_path f = k ∧ hydrate_row a f = Some ev) as Hchar.
  { intros order data Hp Hd k ev.
    destruct (hydrate_in_rows a order data Hp Hd) as (Hdom & Hrows). split.
    - intros Hk. by apply Hrows.
    - intros (fq & pf & f & Hfq & Hf & Hpath & Hrow).
      assert (k ∈ dom (resource.Rows data)) as Hin.
      { rewrite Hdom. apply elem_of_paths_of. eauto 10. }
      apply elem_of_dom in Hin as [ev' Hev'].
      destruct (Hrows k ev' Hev') as (fq' & pf' & f' & Hfq' & Hf' & Hpath' & Hrow').
      assert (fq' = fq) by (eapply Hdist; eauto; congruence).
      simplify_eq. done. }
  split.
  - destruct (hydrate_in a order1) as [d1|] eqn:H1,
             (hydrate_in a order2) as [d2|] eqn:H2; try done.
    + f_equal.
      pose proof (Hchar _ _ Hp1 H1) as Hc1. pose proof (Hchar _ _ Hp2 H2) as Hc2.
      unfold hydrate_in in H1, H2.
      apply hydrate_loop_rows in H1 as (Hh1 & Hn1 & Hs1 & _).
      apply hydrate_loop_rows in H2 as (Hh2 & Hn2 & Hs2 & _).
      destruct d1 as [h1 n1 r1 s1], d2 as [h2 n2 r2 s2]. simpl in *.
      assert (r1 = r2) as ->.
      { apply map_eq. intros k. apply option_eq. intros ev.
        by rewrite Hc1, Hc2. }
      congruence.
    + exfalso. unfold hydrate_in in H1, H2.
      apply hydrate_loop_fails in H2 as (fq & pf & Hin & Hbad).
      rewrite Hp2, <- Hp1 in Hin.
      assert (hydrate_loop a order1 (initHeader (size (forwarders a))) = None) as Hn
        by (apply hydrate_loop_fails; eauto).
      congruence.
    + exfalso. unfold hydrate_in in H1, H2.
      apply hydrate_loop_fails in H1 as (fq & pf & Hin & Hbad).
      rewrite Hp1, <- Hp2 in Hin.
      assert (hydrate_loop a order2 (initHeader (size (forwarders a))) = None) as Hn
        by (apply hydrate_loop_fails; eauto).
      congruence.
  - intros data Hd.
    destruct (hydrate_in_rows a order1 data Hp1 Hd) as (Hdom & _).
    rewrite <- size_dom, Hdom. unfold registered_paths, paths_of.
    assert (∀ fq pf, (fq, pf) ∈ map_to_list (forwarders a) →
              is_Some (entry_path (heap a) (fq, pf))) as Htot.
    { intros fq pf Hin. rewrite <- Hp1 in Hin.
      unfold hydrate_in in Hd.
      destruct (entry_path (heap a) (fq, pf)) as [p|] eqn:Hep; [by eexists|].
      exfalso.
      assert (hydrate_loop a order1 (initHeader (size (forwarders a))) = None) as Hn.
      { apply hydrate_loop_fails. exists fq, pf. split; [done|]. left.
        unfold entry_path in Hep. simpl in Hep.
        by destruct (heap a !! pf). }
      congruence. }
    rewrite size_list_to_set.
    + rewrite <- length_map_to_list.
      generalize (map_to_list (forwarders a)) Htot. clear.
      intros l. induction l as [|[fq pf] l IH]; intros Htot; [done|].
      unfold omap in *. simpl.
      destruct (Htot fq pf ltac:(by left)) as [p ->]. simpl.
      f_equal. apply IH. intros fq' pf' Hin. apply Htot. by right.
    + apply NoDup_omap_inj; [apply NoDup_map_to_list|].
      intros [fq1 pf1] [fq2 pf2] p Hin1 Hin2 He1 He2.
      apply elem_of_map_to_list in Hin1, Hin2.
      unfold entry_path in He1, He2. simpl in He1, He2.
      destruct (heap a !! pf1) as [f1|] eqn:Hf1; [|done].
      destruct (heap a !! pf2) as [f2|] eqn:Hf2; [|done].
      simplify_eq/=.
      assert (fq1 = fq2) by (eapply Hdist; eauto).
      by simplify_eq.
Qed.

Lemma strings_Split_head (l c : string) (sep : Ascii.ascii) :
  strings_Split l sep = [l] →
  hd "" (strings_Split (l +:+ String sep c) sep) = l.
Proof.
  induction l as [|x r IH]; simpl.
  - intros _. by rewrite Ascii.eqb_refl.
  - destruct (Ascii.eqb x sep); [done|].
    destruct (strings_Split r sep) as [|h t] eqn:Hr; [by destruct (strings_Split_nonempty r sep)|].
    intros [= -> ->]. specialize (IH eq_refl).
    destruct (strings_Split (r +:+ String sep c) sep) as [|h' t'] eqn:Hr'; simpl in *.
    + by destruct (strings_Split_nonempty (r +:+ String sep c) sep).
    + by rewrite IH.
Qed.

(** X10.  The row of a session as [portForward] creates it, for a local port
    without a colon: the PORTS column shows [local:pod] and the URL column
    is built from the local port, with the override stored for the
    container, if any. *)
Theorem hydrate_row_started (a : appView) (path co lport cport age : string) :
  strings_Split lport ":"%char = [lport] →
  ∃ ev,
    hydrate_row a (started path co [lport +:+ ":" +:+ cport] age) = Some ev ∧
    resource.Fields ev !! 2 = Some co ∧
    resource.Fields ev !! 3 = Some (lport +:+ ":" +:+ cport) ∧
    resource.Fields ev !! 4
      = Some (urlFor (default config.zero
                        (config.Containers (bench a) !! containerID path co))
                     co lport) ∧
    resource.Fields ev !! 7 = Some age.
Proof.
  intros Hl. unfold hydrate_row, started. simpl.
  pose proof (strings_Split_head lport cport ":"%char Hl) as Hhd.
  unfold loadConfig.
  destruct (config.Containers (bench a) !! containerID path co) as [cfg|]; simpl;
    destruct (namespaced path); eexists; (split; [done|]); simpl;
    change (String ":" cport) with (":" +:+ cport) in Hhd; rewrite Hhd; done.
Qed.

End Table.

(** ** Handlers of the forwards view *)

Section Handlers.
Context {E : Extern}.

(** X11.  The selected item is empty exactly on the header row, and there
    [benchCmd] does nothing at all and [deleteCmd], with an empty command
    buffer, does nothing either. *)
Theorem header_row_inert (a : appView) :
  (getSelectedItem a = "" ↔ selection (tv a) = 0) ∧
  (selection (tv a) = 0 →
     benchCmd a = a ∧ (cmdBuff (tv a) = "" → deleteCmd a = a)).
Proof.
  split.
  - unfold getSelectedItem. case_decide as Hr; [done|].
    split; [|done]. intros Hbad. by apply fwFQN_nonempty in Hbad.
  - intros Hr. unfold benchCmd, deleteCmd, getSelectedItem. rewrite Hr. simpl.
    split; [done|]. intros ->. done.
Qed.

(** X12.  [deleteCmd] never deletes by itself: it leaves registry and sessions
    alone, with a non-empty command buffer it only clears the buffer, and
    otherwise, on a data row, it opens the prompt for the selected item.
    Answering a prompt with any button but OK closes it and changes
    nothing else. *)
Theorem delete_needs_confirmation (a : appView) :
  forwarders (deleteCmd a) = forwarders a ∧ heap (deleteCmd a) = heap a ∧
  (cmdBuff (tv a) ≠ "" →
     modal (deleteCmd a) = modal a ∧ cmdBuff (tv (deleteCmd a)) = "") ∧
  (cmdBuff (tv a) = "" → selection (tv a) ≠ 0 →
     modal (deleteCmd a) = Some (getSelectedItem a)) ∧
  (∀ button, button ≠ "OK" →
     ∃ a', modalDone button a = Some a' ∧ modal a' = None ∧
       forwarders a' = forwarders a ∧ heap a' = heap a ∧
       flashes a' = flashes a ∧ logs a' = logs a ∧ tv a' = tv a).
Proof.
  unfold deleteCmd. repeat split.
  - by repeat case_decide.
  - by repeat case_decide.
  - by case_decide.
  - by case_decide.
  - intros Hbuf Hr. case_decide as Hb; [done|].
    case_decide as Hsel; [|done].
    exfalso. revert Hsel. unfold getSelectedItem. case_decide; [done|].
    apply fwFQN_nonempty.
  - intros button Hb. unfold modalDone.
    destruct (modal a) as [sel|] eqn:Hm.
    + case_decide; [done|]. simpl. eexists. split; [done|]. done.
    + eexists. split; [done|]. done.
Qed.

(** X13.  [benchStopCmd] always leaves the status line reset, so the
    "Benchmark Camceled!" status it sets is gone when it returns.  It marks
    the session in the slot, if any, as canceled without emptying the
    slot, a second call changes nothing more about the slot, and neither
    goroutines, queue, flash line nor registry are touched. *)
Theorem benchStopCmd_effect (a : appView) :
  status (benchStopCmd a) = None ∧
  v_bench (benchStopCmd a) = cancel <$> v_bench a ∧
  v_bench (benchStopCmd (benchStopCmd a)) = v_bench (benchStopCmd a) ∧
  goroutines (benchStopCmd a) = goroutines a ∧
  updates (benchStopCmd a) = updates a ∧
  flashes (benchStopCmd a) = flashes a ∧
  forwarders (benchStopCmd a) = forwarders a.
Proof.
  unfold benchStopCmd. destruct (v_bench a) as [b|] eqn:Hb; simpl; rewrite ?Hb; done.
Qed.

(** The counters [loadConfig] returns are never zero when the defaults are
    not: a zero in the override falls back to the default.  For an unknown
    container it returns the defaults with the zero configuration, and for
    a known one the override itself, HTTP settings untouched. *)
Theorem loadConfig_counters (dc dn : Z) (id : string)
    (cc : gmap string config.BenchConfig) :
  (dc ≠ 0%Z → (loadConfig dc dn id cc).1.1 ≠ 0%Z) ∧
  (dn ≠ 0%Z → (loadConfig dc dn id cc).1.2 ≠ 0%Z) ∧
  (loadConfig dc dn id cc).2 = default config.zero (cc !! id) ∧
  (cc !! id = None → (loadConfig dc dn id cc).1 = (dc, dn)) ∧
  (∀ o, cc !! id = Some o →
     (loadConfig dc dn id cc).1.1 = (if decide (config.C o = 0%Z) then dc else config.C o) ∧
     (loadConfig dc dn id cc).1.2 = (if decide (config.N o = 0%Z) then dn else config.N o)).
Proof.
  unfold loadConfig. destruct (cc !! id) as [o|]; simpl.
  - repeat split; try done; try (intros ?; repeat case_decide; congruence);
      simplify_eq; repeat case_decide; done.
  - repeat split; done.
Qed.

End Handlers.

(** ** The further theorems at work on the samples *)

Lemma resourceViews_hpa_witness :
  registrar.SupportsRes oddCluster = ("v3", true, None) ∧
  registrar.resourceViews (Some oddCluster) ∅ = None.
Proof.
  split; [reflexivity|].
  destruct (registrar_facts.resourceViews_hpa oddCluster ∅ "v3" true None eq_refl)
    as [Hpanic _].
  apply Hpanic. split; [reflexivity|]. split; [reflexivity|].
  intros Hin.
  repeat (apply elem_of_cons in Hin as [Heq|Hin]; [discriminate Heq|]).
  by apply elem_of_nil in Hin.
Defined.

Lemma registerCRD_entries_witness :
  ∃ m', registrar.registerCRD ponyCRD registrar.builtins = Some m' ∧
    (registrar.singular ∘ registrar.crd) <$> m' !! "po" = Some "" ∧
    (registrar.singular ∘ registrar.crd) <$> m' !! "pony" = Some "pony" ∧
    (registrar.plural ∘ registrar.crd) <$> m' !! "pony" = Some "po" ∧
    m' !! "svc" = registrar.builtins !! "svc".
Proof.
  destruct (registrar_facts.registerCRD_entries ponyCRD registrar.builtins
              "example.io" "Pony" "v1" "po" "pony" ["pn"]
              eq_refl eq_refl eq_refl eq_refl eq_refl eq_refl)
    as (m' & Hm' & Hp & Hs & _ & Hother).
  - discriminate.
  - intros Hin. apply list_elem_of_singleton in Hin. discriminate Hin.
  - exists m'. split; [exact Hm'|].
    split; [rewrite Hp; reflexivity|].
    split; [rewrite Hs; reflexivity|].
    split; [rewrite Hs; reflexivity|].
    apply Hother; [discriminate|discriminate|].
    intros Hin. apply list_elem_of_singleton in Hin. discriminate Hin.
Defined.

Lemma aliasCmds_crd_last_witness :
  registrar.viewFn <$> registrar.builtins !! "po" = Some (Some registrar.newPodView) ∧
  ∃ m' r,
    registrar.aliasCmds (Some ponyCluster) ∅ = Some m' ∧
    m' !! "po" = Some r ∧ registrar.title r = "Pony" ∧ registrar.viewFn r = None.
Proof.
  split; [vm_compute; reflexivity|].
  destruct (registrar.aliasCmds (Some ponyCluster) ∅) as [m'|] eqn:Ha;
    [|vm_compute in Ha; discriminate Ha].
  destruct (registrar_facts.aliasCmds_crd_last ponyCluster ∅ m' [] ponyCRD "Pony" "po"
              eq_refl eq_refl eq_refl Ha) as (_ & r & Hr & Ht & Hv & _).
  exists m', r. split; [reflexivity|]. split; [exact Hr|]. split; [exact Ht|exact Hv].
Defined.

Lemma portFwdCmd_guard_witness :
  rowSelected (ExternContainer:=sampleContainer) sampleContainerView = true ∧
  is_Some (portFwdCmd (C:=sampleContainer) sampleContainerView app0).1.2 ∧
  ∃ a', run_job (E:=sampleExtern) noFile (registerForward 0) app_started = Some a' ∧
    (portFwdCmd (C:=sampleContainer) sampleContainerView a').1.2 = None.
Proof.
  assert (rowSelected (ExternContainer:=sampleContainer) sampleContainerView = true) as Hsel
    by reflexivity.
  split; [exact Hsel|].
  destruct (portFwdCmd_guard (E:=sampleExtern) (C:=sampleContainer)
              sampleContainerView app0 Hsel) as (_ & Hfree & _).
  destruct (Hfree eq_refl) as (_ & _ & _ & _ & Hdialog).
  split; [apply Hdialog; reflexivity|].
  destruct (run_job (E:=sampleExtern) noFile (registerForward 0) app_started) as [a'|] eqn:Hjob;
    [|vm_compute in Hjob; discriminate Hjob].
  exists a'. split; [reflexivity|].
  destruct (portFwdCmd_guard (E:=sampleExtern) (C:=sampleContainer)
              sampleContainerView app_started Hsel) as (_ & _ & Hreg).
  rewrite (Hreg 0 (started "ns/pod" "app" ["8080:80"] "0s") noFile a'
             eq_refl eq_refl eq_refl Hjob).
  reflexivity.
Defined.

Lemma run_same_session_witness :
  ∃ a' f',
    run (E:=sampleExtern)
      [Go 0 Scheduled; Dispatch noFile; Go 0 Scheduled; Key DeleteCmd; Key (ModalDone "OK")]
      app_started = Some a' ∧
    heap a' !! 0 = Some f' ∧
    same_session (started "ns/pod" "app" ["8080:80"] "0s") f' ∧
    forwarders a' !! fwFQN "ns/pod" "app" = None.
Proof.
  destruct (run (E:=sampleExtern)
              [Go 0 Scheduled; Dispatch noFile; Go 0 Scheduled; Key DeleteCmd;
               Key (ModalDone "OK")] app_started) as [a'|] eqn:Hr;
    [|vm_compute in Hr; discriminate Hr].
  destruct (run_same_session (E:=sampleExtern) _ app_started a' 0
              (started "ns/pod" "app" ["8080:80"] "0s") Hr eq_refl) as (f' & Hf' & Hsame).
  exists a', f'. split; [reflexivity|]. split; [exact Hf'|]. split; [exact Hsame|].
  vm_compute in Hr. injection Hr as <-. reflexivity.
Defined.

Lemma run_registry_keyed_witness :
  registry_keyed app0 ∧
  ∃ a', run (E:=sampleExtern) restart_run app0 = Some a' ∧
    registry_keyed a' ∧ is_Some (hydrate_in (E:=sampleExtern) a' (map_to_list (forwarders a'))).
Proof.
  assert (registry_keyed app0) as Hk0.
  { intros fq pf Hfq. exfalso. simpl in Hfq. rewrite lookup_empty in Hfq. discriminate Hfq. }
  split; [exact Hk0|].
  destruct (run (E:=sampleExtern) restart_run app0) as [a'|] eqn:Hr;
    [|vm_compute in Hr; discriminate Hr].
  destruct (run_registry_keyed (E:=sampleExtern) restart_run app0 a' Hr Hk0) as (Hk & Hdraw).
  exists a'. split; [reflexivity|]. split; [exact Hk|].
  apply Hdraw. reflexivity.
Defined.

Lemma unregister_by_name_witness :
  forwarders app_restarted !! fwFQN "ns/pod" "app" = Some 1 ∧
  goroutines app_restarted = [runForward_blocked 1] ∧
  ∃ a', run_job (E:=sampleExtern) noFile (unregisterForward 0) app_restarted = Some a' ∧
    forwarders a' !! fwFQN "ns/pod" "app" = None ∧
    pf_active <$> heap a' !! 1 = Some true ∧
    goroutines a' = [runForward_blocked 1].
Proof.
  assert (forwarders app_restarted !! fwFQN "ns/pod" "app" = Some 1) as Hreg
    by (vm_compute; reflexivity).
  assert (goroutines app_restarted = [runForward_blocked 1]) as Hgo
    by (vm_compute; reflexivity).
  split; [exact Hreg|]. split; [exact Hgo|].
  assert (heap app_restarted !! 0
          = Some (mkPortForward "ns/pod" "app" ["8080:80"] "0s" true true)) as H0
    by (vm_compute; reflexivity).
  assert (heap app_restarted !! 1
          = Some (mkPortForward "ns/pod" "app" ["8080:80"] "0s" true false)) as H1
    by (vm_compute; reflexivity).
  destruct (unregister_by_name (E:=sampleExtern) app_restarted 0 1 _ _ noFile
              H0 H1 ltac:(discriminate) eq_refl Hreg)
    as (a' & Hjob & Hgone & Hkept & _ & Hsame).
  exists a'. split; [exact Hjob|]. split; [exact Hgone|].
  split; [exact (f_equal (fmap pf_active) Hkept)|]. rewrite Hsame. exact Hgo.
Defined.

Lemma reload_only_on_event_witness :
  ∃ a a',
    run (E:=sampleExtern) [Key (WatchDir None None); Go 0 Scheduled] app0 = Some a ∧
    step (E:=sampleExtern) (Go 0 (FsEvent "/home/op/.k9s/bench-c0.yml")) a = Some a' ∧
    pendingReloads a < pendingReloads a' ∧
    goroutines a !! 0 = Some (updateBenchConfig_loop "/home/op/.k9s/bench-c0.yml").
Proof.
  destruct (run (E:=sampleExtern) [Key (WatchDir None None); Go 0 Scheduled] app0)
    as [a|] eqn:Hr; [|vm_compute in Hr; discriminate Hr].
  destruct (step (E:=sampleExtern) (Go 0 (FsEvent "/home/op/.k9s/bench-c0.yml")) a)
    as [a'|] eqn:Hs;
    [|vm_compute in Hr; injection Hr as <-; vm_compute in Hs; discriminate Hs].
  assert (pendingReloads a < pendingReloads a') as Hlt.
  { vm_compute in Hr. injection Hr as <-. vm_compute in Hs. injection Hs as <-.
    vm_compute. constructor. }
  exists a, a'. split; [reflexivity|]. split; [exact Hs|]. split; [exact Hlt|].
  destruct (reload_only_on_event (E:=sampleExtern) a a' _ Hs Hlt)
    as (i & file & name & Hl & Hg & Hmatch & _).
  injection Hl as <- <-. rewrite Hg. f_equal. f_equal.
  destruct Hmatch as [Hempty|Hname]; [|symmetry; exact Hname].
  exfalso. rewrite Hempty in Hg.
  vm_compute in Hr. injection Hr as <-. vm_compute in Hg. discriminate Hg.
Defined.

Lemma hydrate_rows_fit_header_witness :
  ∃ data,
    hydrate_in (E:=sampleExtern) app_two_forwards
      (map_to_list (forwarders app_two_forwards)) = Some data ∧
    length (resource.Header data) = 8 ∧
    ∀ k ev, resource.Rows data !! k = Some ev → length (resource.Fields ev) = 8.
Proof.
  destruct (hydrate_in (E:=sampleExtern) app_two_forwards
              (map_to_list (forwarders app_two_forwards))) as [data|] eqn:Hd;
    [|vm_compute in Hd; discriminate Hd].
  destruct (hydrate_rows_fit_header (E:=sampleExtern) _ _ data Hd) as (Hh & _ & _ & Hrows).
  exists data. split; [reflexivity|]. split; [rewrite Hh; reflexivity|].
  intros k ev Hk. destruct (Hrows k ev Hk) as [Hlen _].
  rewrite Hlen, Hh. reflexivity.
Defined.

Lemma hydrate_last_wins_witness :
  ∃ d1 d2 ev1 ev2,
    hydrate_in (E:=sampleExtern) app_two_forwards
      ([(fwFQN "ns/pod" "app", 0)] ++ [(fwFQN "ns/pod" "sidecar", 1)]) = Some d1 ∧
    hydrate_in (E:=sampleExtern) app_two_forwards
      ([(fwFQN "ns/pod" "sidecar", 1)] ++ [(fwFQN "ns/pod" "app", 0)]) = Some d2 ∧
    resource.Rows d1 !! "ns/pod" = Some ev1 ∧
    resource.Fields ev1 !! 2 = Some "sidecar" ∧
    resource.Rows d2 !! "ns/pod" = Some ev2 ∧
    resource.Fields ev2 !! 2 = Some "app".
Proof.
  destruct (hydrate_in (E:=sampleExtern) app_two_forwards
              ([(fwFQN "ns/pod" "app", 0)] ++ [(fwFQN "ns/pod" "sidecar", 1)]))
    as [d1|] eqn:H1; [|vm_compute in H1; discriminate H1].
  destruct (hydrate_in (E:=sampleExtern) app_two_forwards
              ([(fwFQN "ns/pod" "sidecar", 1)] ++ [(fwFQN "ns/pod" "app", 0)]))
    as [d2|] eqn:H2; [|vm_compute in H2; discriminate H2].
  destruct (hydrate_last_wins (E:=sampleExtern) _ _ _ _ d1 H1)
    as (f1 & ev1 & Hf1 & Hrow1 & _ & Hco1).
  destruct (hydrate_last_wins (E:=sampleExtern) _ _ _ _ d2 H2)
    as (f2 & ev2 & Hf2 & Hrow2 & _ & Hco2).
  change (heap app_two_forwards !! 1)
    with (Some (mkPortForward "ns/pod" "sidecar" ["9090:90"] "1m" true false)) in Hf1.
  change (heap app_two_forwards !! 0)
    with (Some (mkPortForward "ns/pod" "app" ["8080:80"] "2m" true false)) in Hf2.
  injection Hf1 as <-. injection Hf2 as <-.
  exists d1, d2, ev1, ev2.
  split; [reflexivity|]. split; [reflexivity|].
  split; [exact Hrow1|]. split; [exact Hco1|]. split; [exact Hrow2|exact Hco2].
Defined.

Lemma app_two_pods_distinct : distinct_paths app_two_pods.
Proof.
  intros fq1 fq2 pf1 pf2 f1 f2. unfold app_two_pods. simpl.
  intros H1 H2 Hf1 Hf2 Hpath.
  apply lookup_insert_Some in H1 as [[<- <-]|[_ H1]];
    [|apply lookup_insert_Some in H1 as [[<- <-]|[_ H1]];
      [|by rewrite lookup_empty in H1]];
    (apply lookup_insert_Some in H2 as [[<- <-]|[_ H2]];
      [|apply lookup_insert_Some in H2 as [[<- <-]|[_ H2]];
        [|by rewrite lookup_empty in H2]]);
    try reflexivity;
    vm_compute in Hf1; vm_compute in Hf2; simplify_eq.
Qed.

Lemma hydrate_order_irrelevant_witness :
  distinct_paths app_two_pods ∧
  hydrate_in (E:=sampleExtern) app_two_pods (map_to_list (forwarders app_two_pods))
  = hydrate_in (E:=sampleExtern) app_two_pods (reverse (map_to_list (forwarders app_two_pods))) ∧
  ∃ data,
    hydrate_in (E:=sampleExtern) app_two_pods (map_to_list (forwarders app_two_pods))
      = Some data ∧
    size (resource.Rows data) = 2.
Proof.
  split; [exact app_two_pods_distinct|].
  destruct (hydrate_order_irrelevant (E:=sampleExtern) app_two_pods
              (map_to_list (forwarders app_two_pods))
              (reverse (map_to_list (forwarders app_two_pods)))
              app_two_pods_distinct (reflexivity _) (reverse_Permutation _))
    as (Heq & Hsize).
  split; [exact Heq|].
  destruct (hydrate_in (E:=sampleExtern) app_two_pods (map_to_list (forwarders app_two_pods)))
    as [data|] eqn:Hd; [|vm_compute in Hd; discriminate Hd].
  exists data. split; [reflexivity|].
  rewrite (Hsize data eq_refl). vm_compute. reflexivity.
Defined.

Lemma hydrate_row_started_witness :
  strings_Split "8080" ":"%char = ["8080"] ∧
  ∃ ev,
    hydrate_row (E:=sampleExtern) app0 (started "ns/pod" "app" ["8080:80"] "0s") = Some ev ∧
    resource.Fields ev !! 3 = Some "8080:80" ∧
    resource.Fields ev !! 4 = Some "http://localhost:8080".
Proof.
  split; [reflexivity|].
  destruct (hydrate_row_started (E:=sampleExtern) app0 "ns/pod" "app" "8080" "80" "0s" eq_refl)
    as (ev & Hrow & _ & Hports & Hurl & _).
  exists ev. split; [exact Hrow|]. split; [exact Hports|].
  rewrite Hurl. vm_compute. reflexivity.
Defined.

(** ** Starting things *)

Section Starting.
Context {E : Extern} {C : ExternContainer}.

(** X4.  From the dialog to the guard.  Confirming the dialog with a successful
    [Start] creates the session for [local:pod] on the container named in
    column 0 of the selected row and leaves the registry as it was, so
    until the registration job runs [portFwdCmd] decides as before the
    start.  Once the job has run, and provided the selected item is that
    container name, [portFwdCmd] refuses another forward. *)
Theorem forward_then_refused (cv : containerView) (d : portDialog) (age : string)
    (a : appView) (loaded : string → config.Benchmarks + string) :
  rowSelected cv = true →
  selectedItem cv = trimCell (masterPage cv) (selectedRow cv) 0 →
  let a1 := dialogOK cv d age None a in
  let pf := fresh (dom (heap a)) in
  heap a1 !! pf
    = Some (started (cv_path cv) (selectedItem cv)
              [stripPort (p2 d) +:+ ":" +:+ stripPort (p1 d)] age) ∧
  forwarders a1 = forwarders a ∧
  (portFwdCmd cv a1).1.2 = (portFwdCmd cv a).1.2 ∧
  ∃ a2, run_job loaded (registerForward pf) a1 = Some a2 ∧
    forwarders a2 !! fwFQN (cv_path cv) (selectedItem cv) = Some pf ∧
    portFwdCmd cv a2
    = (flash flashErr ("A PortForward already exist on container " +:+ cv_path cv) a2,
       None, true).
Proof.
  intros Hsel Hitem a1 pf. subst a1 pf. unfold dialogOK. rewrite <- Hitem.
  simpl. rewrite lookup_insert_eq. split; [done|]. split; [done|]. split.
  { unfold portFwdCmd. rewrite Hsel. simpl.
    repeat case_decide; try done; simpl in *; done. }
  simpl. eexists. split; [done|]. simpl.
  unfold FQN. simpl. split; [apply lookup_insert_eq|].
  unfold portFwdCmd. rewrite Hsel. simpl.
  case_decide as Hreg; [done|]. exfalso. apply Hreg.
  rewrite lookup_insert_eq. by eexists.
Qed.

(** X14.  What [benchCmd] does.  On the header row or with an occupied
    slot it starts nothing and leaves the slot as it is.  Otherwise it
    calls [newBenchmark] on the selected URL with a configuration named
    after the selected item, and the slot takes the session that call
    returns, also when an error comes with it.  A generator is started
    exactly when no error is returned.  A session returned together with
    an error therefore stays in the slot with no generator behind it, and
    the next [benchCmd] is refused with the "only one benchmark" error. *)
Theorem benchCmd_outcome (a : appView) :
  let sel := getSelectedItem a in
  let made := newBenchmark (trimCell (tv a) (selection (tv a)) 4) (benchCmd_config a sel) in
  config.Name (benchCmd_config a sel) = sel ∧
  (selection (tv a) = 0 ∨ is_Some (v_bench a) →
     v_bench (benchCmd a) = v_bench a ∧ goroutines (benchCmd a) = goroutines a) ∧
  (selection (tv a) ≠ 0 → v_bench a = None →
     v_bench (benchCmd a) = made.1 ∧
     tv (benchCmd a) = tv a ∧
     match made.2 with
     | None =>
         goroutines (benchCmd a) = goroutines a ++ [runBenchmark_running] ∧
         flashes (benchCmd a) = flashes a
     | Some err =>
         goroutines (benchCmd a) = goroutines a ∧
         flashes (benchCmd a) = flashes a ++ [(flashErr, "Bench failed " +:+ err)] ∧
         (is_Some made.1 →
            benchCmd (benchCmd a)
            = flash flashErr "Only one benchmark allowed at a time" (benchCmd a))
     end).
Proof.
  intros sel made. subst sel made. split; [done|]. split.
  - intros Hidle. unfold benchCmd. case_decide as Hsel; [done|].
    destruct Hidle as [Hrow|[b Hb]].
    + exfalso. apply Hsel. unfold getSelectedItem. by rewrite Hrow.
    + rewrite Hb. done.
  - intros Hrow Hfree.
    assert (getSelectedItem a ≠ "") as Hsel.
    { unfold getSelectedItem. case_decide; [done|]. apply fwFQN_nonempty. }
    destruct (newBenchmark _ _) as [nb [err|]] eqn:Hmade; simpl.
    + assert (benchCmd a
              = statusReset (flash flashErr ("Bench failed " +:+ err) (set_v_bench nb a)))
        as Heq.
      { unfold benchCmd. case_decide; [done|]. by rewrite Hfree, Hmade. }
      rewrite Heq. simpl. split; [done|]. split; [done|]. split; [done|].
      split; [done|]. intros [b ->]. unfold benchCmd.
      destruct (decide (getSelectedItem _ = "")) as [Hbad|_]; [|done].
      exfalso. by apply Hsel.
    + assert (benchCmd a
              = go runBenchmark_running
                  (log "Bench starting..."
                     (set_status (Some (flashWarn, "Benchmark in progress..."))
                        (set_v_bench nb a)))) as Heq.
      { unfold benchCmd. case_decide; [done|]. by rewrite Hfree, Hmade. }
      rewrite Heq. done.
Qed.


End Starting.

Lemma forward_then_refused_witness :
  rowSelected (ExternContainer:=sampleContainer) sampleContainerView = true ∧
  selectedItem sampleContainerView
    = trimCell (masterPage sampleContainerView) (selectedRow sampleContainerView) 0 ∧
  is_Some (portFwdCmd (C:=sampleContainer) sampleContainerView
             (dialogOK (C:=sampleContainer) sampleContainerView
                (mkPortDialog "80" "8080") "0s" None app0)).1.2 ∧
  ∃ a2,
    run_job (E:=sampleExtern) noFile (registerForward (fresh (dom (heap app0))))
      (dialogOK (C:=sampleContainer) sampleContainerView (mkPortDialog "80" "8080") "0s" None app0)
      = Some a2 ∧
    (portFwdCmd (C:=sampleContainer) sampleContainerView a2).1.2 = None.
Proof.
  assert (rowSelected (ExternContainer:=sampleContainer) sampleContainerView = true) as Hsel
    by reflexivity.
  split; [exact Hsel|]. split; [reflexivity|].
  destruct (forward_then_refused (E:=sampleExtern) (C:=sampleContainer) sampleContainerView
              (mkPortDialog "80" "8080") "0s" app0 noFile Hsel eq_refl)
    as (_ & _ & Hsame & a2 & Hjob & _ & Hrefused).
  split.
  - rewrite Hsame. vm_compute. eexists. reflexivity.
  - exists a2. split; [exact Hjob|]. rewrite Hrefused. reflexivity.
Defined.
